(** * roam-block-reconciler: a shallow embedding and its verified properties

    The development follows the TypeScript sources:

    - [types.ts]: [BlockPayload], [RoamNode], [SyncStats], the two
      configuration records;
    - [utils.ts]: the pacing helpers [delay], [yieldToMain], [maybeYield];
    - [roam-api-adapter.ts]: the [RoamApiAdapter] interface;
    - [children-reconciler.ts]: [ChildrenReconciler.syncChildren];
    - [block-reconciler.ts]: [BlockReconciler.reconcile] and its helpers.

    Asynchronous code is sequential here (every promise is awaited before
    the next statement runs), so it is embedded in a state, trace and error
    monad: the state holds the backend and the statistics objects the two
    entry points allocate, the trace records every observable effect in
    program order, and a rejected backend promise is an error that aborts
    the rest of the computation. *)

From Stdlib Require Import Ascii.
From stdpp Require Import base option list strings gmap pretty.

Open Scope string_scope.
Open Scope list_scope.
Open Scope nat_scope.

(** ** Data model ([types.ts]) *)

Unset Elimination Schemes.

(** [type BlockPayload = { text: string; children?: BlockPayload[] }] *)
Inductive BlockPayload : Type := mkBlockPayload {
  bp_text : string;
  bp_children : option (list BlockPayload) }.

(** [interface RoamNode { text: string; uid: string; children?: RoamNode[] }] *)
Inductive RoamNode : Type := mkRoamNode {
  node_text : string;
  node_uid : string;
  node_children : option (list RoamNode) }.

Set Elimination Schemes.

(** [interface SyncStats] *)
Record SyncStats : Type := mkSyncStats {
  total : nat;
  skipped : nat;
  created : nat;
  updated : nat;
  deleted : nat }.

(** [interface ChildSyncStats] (no [total]) *)
Record ChildSyncStats : Type := mkChildSyncStats {
  c_skipped : nat;
  c_updated : nat;
  c_created : nat;
  c_deleted : nat }.

(** [interface ReconcilerOptions].  The two observers are modelled by their
    presence: calling [onProgress] or [logger.debug] leaves an event in the
    trace and has no other effect. *)
Record ReconcilerOptions : Type := mkReconcilerOptions {
  preserveWhen : option (RoamNode -> bool);
  onProgress : bool;
  mutationDelayMs : option nat;
  yieldBatchSize : option nat;
  logger : bool }.

(** [interface ReconcilerConfig<T>] *)
Record ReconcilerConfig (T : Type) : Type := mkReconcilerConfig {
  extractId : T -> string;
  buildBlock : T -> BlockPayload;
  extractIdFromBlock : RoamNode -> option string;
  options : option ReconcilerOptions }.

Arguments extractId {T}.
Arguments buildBlock {T}.
Arguments extractIdFromBlock {T}.
Arguments options {T}.

(** [interface ChildReconcilerConfig] *)
Record ChildReconcilerConfig : Type := mkChildReconcilerConfig {
  extractKey : string -> option string;
  isSpecialBlock : option (string -> bool);
  c_mutationDelayMs : option nat;
  c_logger : bool }.

(** [x ?? []] on an optional child list. *)
Definition orEmpty {A : Type} (cs : option (list A)) : list A := default [] cs.

(** Structural induction on nodes, with the induction hypothesis for every
    child (an absent child list has none). *)
Section RoamNode_induction.
Variable P : RoamNode -> Prop.
Hypothesis step : forall t u cs,
  Forall P (orEmpty cs) -> P (mkRoamNode t u cs).

Fixpoint RoamNode_ind (n : RoamNode) : P n :=
  match n with
  | mkRoamNode t u cs =>
      step t u cs
        (match cs as c return Forall P (orEmpty c) with
         | Some l =>
             (fix all (l : list RoamNode) : Forall P l :=
                match l with
                | [] => List.Forall_nil P
                | x :: l' => @List.Forall_cons _ P x l' (RoamNode_ind x) (all l')
                end) l
         | None => List.Forall_nil P
         end)
  end.
End RoamNode_induction.

(** The same for payloads. *)
Section BlockPayload_induction.
Variable P : BlockPayload -> Prop.
Hypothesis step : forall t cs,
  Forall P (orEmpty cs) -> P (mkBlockPayload t cs).

Fixpoint BlockPayload_ind (p : BlockPayload) : P p :=
  match p with
  | mkBlockPayload t cs =>
      step t cs
        (match cs as c return Forall P (orEmpty c) with
         | Some l =>
             (fix all (l : list BlockPayload) : Forall P l :=
                match l with
                | [] => List.Forall_nil P
                | x :: l' =>
                    @List.Forall_cons _ P x l' (BlockPayload_ind x) (all l')
                end) l
         | None => List.Forall_nil P
         end)
  end.
End BlockPayload_induction.

(** ** JavaScript values used by the reconcilers *)

(** [if (id)] on a [string | undefined]: [undefined] and the empty string
    are falsy, every other string is truthy and is the value tested. *)
Definition truthy (v : option string) : option string :=
  match v with
  | Some s => if String.eqb s "" then None else Some s
  | None => None
  end.

(** [f?.(x)] used as a condition: an absent predicate gives [undefined],
    which is falsy. *)
Definition optCall {A : Type} (f : option (A -> bool)) (x : A) : bool :=
  match f with
  | Some p => p x
  | None => false
  end.

(** A JavaScript [Map<string, V>]: entries are kept in insertion order,
    [set] on a present key replaces the value in place, [delete] removes
    the entry. *)
Module JsMap.

Abbreviation t V := (list (string * V)).

Definition empty {V : Type} : t V := [].

Fixpoint get {V : Type} (k : string) (m : t V) : option V :=
  match m with
  | [] => None
  | (k', v) :: m' => if String.eqb k' k then Some v else get k m'
  end.

Fixpoint set {V : Type} (k : string) (v : V) (m : t V) : t V :=
  match m with
  | [] => [(k, v)]
  | (k', v') :: m' =>
      if String.eqb k' k then (k', v) :: m' else (k', v') :: set k v m'
  end.

Fixpoint delete {V : Type} (k : string) (m : t V) : t V :=
  match m with
  | [] => []
  | (k', v') :: m' =>
      if String.eqb k' k then m' else (k', v') :: delete k m'
  end.

Definition entries {V : Type} (m : t V) : list (string * V) := m.

Definition keys {V : Type} (m : t V) : list string := map fst m.

Definition size {V : Type} (m : t V) : nat := length m.

End JsMap.

(** ** Pacing constants ([utils.ts]) *)

Definition DEFAULT_MUTATION_DELAY_MS : nat := 100.
Definition DEFAULT_YIELD_BATCH_SIZE : nat := 3.

(** ** The adapter interface ([roam-api-adapter.ts]) and the effects *)

(** [order?: number | "last"] *)
Inductive Order : Type :=
| OrderLast
| OrderIndex (n : nat).

(** The three mutating adapter methods, as data. *)
Inductive Call : Type :=
| CreateBlock (parentUid : string) (block : BlockPayload) (order : Order)
| UpdateBlock (uid : string) (text : string)
| DeleteBlock (uid : string).

(** Everything a run does that an observer can see, in program order. *)
Inductive Event : Type :=
| Api (c : Call)
| Delay (ms : nat)
| YieldToMain
| OnProgress (s : SyncStats)
| Debug (event : string).

(** [interface RoamApiAdapter] over a backend state [B]; a rejected promise
    is [inl e].  [getChildren] is the synchronous read. *)
Record RoamApiAdapter (B E : Type) : Type := mkRoamApiAdapter {
  getChildren : string -> B -> list RoamNode;
  createBlock : string -> BlockPayload -> Order -> B -> B * (E + string);
  updateBlock : string -> string -> B -> B * (E + unit);
  deleteBlock : string -> B -> B * (E + unit) }.

Arguments getChildren {B E}.
Arguments createBlock {B E}.
Arguments updateBlock {B E}.
Arguments deleteBlock {B E}.

(** The error of a settled promise, its value dropped: no caller in the
    reconcilers binds the result of a mutation. *)
Definition rejection {E A : Type} (r : E + A) : option E :=
  match r with
  | inl e => Some e
  | inr _ => None
  end.

(** One mutating call against the backend. *)
Definition perform {B E : Type} (api : RoamApiAdapter B E) (c : Call) (b : B)
  : B * option E :=
  match c with
  | CreateBlock parentUid block order =>
      let (b', r) := createBlock api parentUid block order b in (b', rejection r)
  | UpdateBlock uid text =>
      let (b', r) := updateBlock api uid text b in (b', rejection r)
  | DeleteBlock uid =>
      let (b', r) := deleteBlock api uid b in (b', rejection r)
  end.

(** The backend calls of a trace. *)
Definition apiCalls (evs : list Event) : list Call :=
  omap (fun ev => match ev with Api c => Some c | _ => None end) evs.

(** The uid a call mutates: the block updated or deleted, or the parent a
    block is created under. *)
Definition target (c : Call) : string :=
  match c with
  | CreateBlock parentUid _ _ => parentUid
  | UpdateBlock uid _ => uid
  | DeleteBlock uid => uid
  end.

(** ** The monad *)

(** The mutable state of a run: the backend, and the [stats] objects that
    [reconcile] and [syncChildren] allocate and mutate in place. *)
Record Heap (B : Type) : Type := mkHeap {
  h_backend : B;
  h_stats : SyncStats;
  h_childStats : ChildSyncStats }.

Arguments mkHeap {B}.
Arguments h_backend {B}.
Arguments h_stats {B}.
Arguments h_childStats {B}.

Definition M (B E A : Type) : Type :=
  Heap B -> Heap B * list Event * (E + A).

Definition ret {B E A : Type} (a : A) : M B E A := fun h => (h, [], inr a).

Definition bind {B E A C : Type} (m : M B E A) (k : A -> M B E C)
  : M B E C :=
  fun h =>
    match m h with
    | (h1, ev1, inl e) => (h1, ev1, inl e)
    | (h1, ev1, inr a) =>
        match k a h1 with
        | (h2, ev2, r) => (h2, ev1 ++ ev2, r)
        end
    end.

Declare Scope reconciler_scope.
Delimit Scope reconciler_scope with M.
Bind Scope reconciler_scope with M.

Notation "x <- m ;; k" := (bind m (fun x => k))
  (at level 100, m at next level, right associativity) : reconciler_scope.
Notation "m ;; k" := (bind m (fun _ => k))
  (at level 100, right associativity) : reconciler_scope.

Open Scope reconciler_scope.

Section Engine.

Context {B E : Type}.
Variable roamApi : RoamApiAdapter B E.

Local Abbreviation M := (M B E).

Definition emit (ev : Event) : M unit := fun h => (h, [ev], inr tt).

(** [await this.roamApi.<method>(...)] *)
Definition await (c : Call) : M unit :=
  fun h =>
    let (b', r) := perform roamApi c (h_backend h) in
    (mkHeap b' (h_stats h) (h_childStats h), [Api c],
     match r with
     | Some e => inl e
     | None => inr tt
     end).

Definition readBackend {A : Type} (f : B -> A) : M A :=
  fun h => (h, [], inr (f (h_backend h))).

Definition getStats : M SyncStats := fun h => (h, [], inr (h_stats h)).

Definition getChildStats : M ChildSyncStats :=
  fun h => (h, [], inr (h_childStats h)).

Definition modifyStats (f : SyncStats -> SyncStats) : M unit :=
  fun h => (mkHeap (h_backend h) (f (h_stats h)) (h_childStats h), [], inr tt).

Definition modifyChildStats (f : ChildSyncStats -> ChildSyncStats) : M unit :=
  fun h => (mkHeap (h_backend h) (h_stats h) (f (h_childStats h)), [], inr tt).

(** [for (const x of xs) { ... }] with the loop-carried locals in [s]. *)
Fixpoint forOf {A S : Type} (body : S -> A -> M S) (s : S) (xs : list A)
  : M S :=
  match xs with
  | [] => ret s
  | x :: xs' => s' <- body s x ;; forOf body s' xs'
  end.

(** [logger?.debug(event, data)] *)
Definition debug (present : bool) (event : string) : M unit :=
  if present then emit (Debug event) else ret tt.

(** *** [utils.ts] *)

Definition delay (ms : nat) : M unit := emit (Delay ms).

Definition yieldToMain : M unit := emit YieldToMain.

(** [operationCount % batchSize === 0]; with [batchSize = 0] the remainder
    is [NaN] in JavaScript and the test fails, and [Nat.modulo n 0 = n] is
    not [0] for the positive counts passed here. *)
Definition maybeYield (operationCount batchSize : nat) : M unit :=
  if Nat.eqb (operationCount mod batchSize) 0 then yieldToMain else ret tt.

End Engine.

(** ** [children-reconciler.ts] *)

(** [class ChildrenReconciler]: the fields the constructor sets. *)
Record ChildrenReconciler : Type := mkChildrenReconciler {
  cr_config : ChildReconcilerConfig;
  cr_mutationDelayMs : nat;
  cr_logger : bool }.

(** [constructor(config, roamApi)] *)
Definition newChildrenReconciler (config : ChildReconcilerConfig)
  : ChildrenReconciler :=
  {| cr_config := config;
     cr_mutationDelayMs :=
       default DEFAULT_MUTATION_DELAY_MS (c_mutationDelayMs config);
     cr_logger := c_logger config |}.

Definition newChildStats : ChildSyncStats :=
  {| c_skipped := 0; c_updated := 0; c_created := 0; c_deleted := 0 |}.

Definition incChildSkipped (s : ChildSyncStats) : ChildSyncStats :=
  {| c_skipped := S (c_skipped s); c_updated := c_updated s;
     c_created := c_created s; c_deleted := c_deleted s |}.

Definition incChildUpdated (s : ChildSyncStats) : ChildSyncStats :=
  {| c_skipped := c_skipped s; c_updated := S (c_updated s);
     c_created := c_created s; c_deleted := c_deleted s |}.

Definition incChildCreated (s : ChildSyncStats) : ChildSyncStats :=
  {| c_skipped := c_skipped s; c_updated := c_updated s;
     c_created := S (c_created s); c_deleted := c_deleted s |}.

Definition incChildDeleted (s : ChildSyncStats) : ChildSyncStats :=
  {| c_skipped := c_skipped s; c_updated := c_updated s;
     c_created := c_created s; c_deleted := S (c_deleted s) |}.

(** The first loop of [syncChildren]: the key map and the list of special
    blocks built from [existingChildren]. *)
Definition partitionStep (config : ChildReconcilerConfig)
    (acc : JsMap.t RoamNode * list RoamNode) (child : RoamNode)
  : JsMap.t RoamNode * list RoamNode :=
  let (existingPropsMap, existingSpecialBlocks) := acc in
  match truthy (extractKey config (node_text child)) with
  | Some key => (JsMap.set key child existingPropsMap, existingSpecialBlocks)
  | None =>
      if optCall (isSpecialBlock config) (node_text child)
      then (existingPropsMap, existingSpecialBlocks ++ [child])
      else (existingPropsMap, existingSpecialBlocks)
  end.

Definition partitionExisting (config : ChildReconcilerConfig)
    (existingChildren : list RoamNode)
  : JsMap.t RoamNode * list RoamNode :=
  fold_left (partitionStep config) existingChildren (JsMap.empty, []).

(** The locals the second loop of [syncChildren] carries. *)
Record ChildLoop : Type := mkChildLoop {
  existingPropsMap : JsMap.t RoamNode;
  existingSpecialBlocks : list RoamNode;
  cl_operationCount : nat }.

Section ChildrenReconciler.

Context {B E : Type}.
Variable roamApi : RoamApiAdapter B E.
Variable this : ChildrenReconciler.

Local Abbreviation M := (M B E).

(** The body of [for (const specialBlock of existingSpecialBlocks)]. *)
Definition deleteSpecial (_ : unit) (specialBlock : RoamNode) : M unit :=
  await roamApi (DeleteBlock (node_uid specialBlock)) ;;
  delay (cr_mutationDelayMs this) ;;
  modifyChildStats incChildDeleted ;;
  debug (cr_logger this) "children_reconciler_delete_special".

(** The body of [for (const newChild of newChildren)]. *)
Definition syncChild (parentUid : string) (st : ChildLoop)
    (newChild : BlockPayload) : M ChildLoop :=
  st' <-
    match truthy (extractKey (cr_config this) (bp_text newChild)) with
    | Some key =>
        match JsMap.get key (existingPropsMap st) with
        | Some existing =>
            (if String.eqb (node_text existing) (bp_text newChild)
             then
               modifyChildStats incChildSkipped ;;
               debug (cr_logger this) "children_reconciler_skip"
             else
               await roamApi
                 (UpdateBlock (node_uid existing) (bp_text newChild)) ;;
               delay (cr_mutationDelayMs this) ;;
               modifyChildStats incChildUpdated ;;
               debug (cr_logger this) "children_reconciler_update") ;;
            ret (mkChildLoop (JsMap.delete key (existingPropsMap st))
                   (existingSpecialBlocks st) (cl_operationCount st))
        | None =>
            await roamApi (CreateBlock parentUid newChild OrderLast) ;;
            delay (cr_mutationDelayMs this) ;;
            modifyChildStats incChildCreated ;;
            debug (cr_logger this) "children_reconciler_create" ;;
            ret st
        end
    | None =>
        if optCall (isSpecialBlock (cr_config this)) (bp_text newChild)
        then
          forOf deleteSpecial tt (existingSpecialBlocks st) ;;
          await roamApi (CreateBlock parentUid newChild OrderLast) ;;
          delay (cr_mutationDelayMs this) ;;
          modifyChildStats incChildCreated ;;
          debug (cr_logger this) "children_reconciler_create_special" ;;
          ret (mkChildLoop (existingPropsMap st) [] (cl_operationCount st))
        else ret st
    end ;;
  let operationCount := S (cl_operationCount st') in
  maybeYield operationCount DEFAULT_YIELD_BATCH_SIZE ;;
  ret (mkChildLoop (existingPropsMap st') (existingSpecialBlocks st')
         operationCount).

(** The body of [for (const [key, orphanBlock] of existingPropsMap)]. *)
Definition deleteOrphan (operationCount : nat) (entry : string * RoamNode)
  : M nat :=
  let (key, orphanBlock) := entry in
  delay (cr_mutationDelayMs this) ;;
  await roamApi (DeleteBlock (node_uid orphanBlock)) ;;
  modifyChildStats incChildDeleted ;;
  debug (cr_logger this) "children_reconciler_delete_orphan" ;;
  let operationCount := S operationCount in
  maybeYield operationCount DEFAULT_YIELD_BATCH_SIZE ;;
  ret operationCount.

(** [async syncChildren(parentUid, existingChildren, newChildren)] *)
Definition syncChildren (parentUid : string)
    (existingChildren : list RoamNode) (newChildren : list BlockPayload)
  : M ChildSyncStats :=
  modifyChildStats (fun _ => newChildStats) ;;
  let (propsMap, specialBlocks) :=
    partitionExisting (cr_config this) existingChildren in
  debug (cr_logger this) "children_reconciler_start" ;;
  st <- forOf (syncChild parentUid) (mkChildLoop propsMap specialBlocks 0)
          newChildren ;;
  forOf deleteOrphan (cl_operationCount st)
    (JsMap.entries (existingPropsMap st)) ;;
  debug (cr_logger this) "children_reconciler_complete" ;;
  getChildStats.

End ChildrenReconciler.

(** ** [block-reconciler.ts] *)

(** [isChildUnchanged(existing, newChild)].  The two child arrays are
    walked in step, which is the indexed loop of the source once the two
    lengths are known to agree; the case split on the optional child list
    unfolds [existing.children ?? []] (see [isChildUnchanged_unfold]). *)
Fixpoint isChildUnchanged (existing : RoamNode) (newChild : BlockPayload)
  {struct existing} : bool :=
  if negb (String.eqb (node_text existing) (bp_text newChild)) then false
  else
    let newChildren := orEmpty (bp_children newChild) in
    let loop :=
      fix loop (existingChildren : list RoamNode)
          (newChildren : list BlockPayload) {struct existingChildren}
        : bool :=
        match existingChildren, newChildren with
        | existingChild :: es, newChild :: ns =>
            if negb (isChildUnchanged existingChild newChild) then false
            else loop es ns
        | _, _ => true
        end in
    match node_children existing with
    | Some existingChildren =>
        if negb (Nat.eqb (length existingChildren) (length newChildren))
        then false
        else loop existingChildren newChildren
    | None =>
        if negb (Nat.eqb 0 (length newChildren)) then false else true
    end.

(** The loop of [isUnchanged] and [isChildUnchanged], on its own. *)
Fixpoint childrenUnchanged (existingChildren : list RoamNode)
    (newChildren : list BlockPayload) : bool :=
  match existingChildren, newChildren with
  | existingChild :: es, newChild :: ns =>
      if negb (isChildUnchanged existingChild newChild) then false
      else childrenUnchanged es ns
  | _, _ => true
  end.

(** [isUnchanged(existing, newBlock)]: the same text as
    [isChildUnchanged], one level up. *)
Definition isUnchanged (existing : RoamNode) (newBlock : BlockPayload)
  : bool :=
  if negb (String.eqb (node_text existing) (bp_text newBlock)) then false
  else
    let existingChildren := orEmpty (node_children existing) in
    let newChildren := orEmpty (bp_children newBlock) in
    if negb (Nat.eqb (length existingChildren) (length newChildren))
    then false
    else childrenUnchanged existingChildren newChildren.

(** [class BlockReconciler<T>]: the fields the constructor sets. *)
Record BlockReconciler (T : Type) : Type := mkBlockReconciler {
  br_config : ReconcilerConfig T;
  br_mutationDelayMs : nat;
  br_yieldBatchSize : nat;
  br_logger : bool;
  childrenReconciler : option ChildrenReconciler }.

Arguments br_config {T}.
Arguments br_mutationDelayMs {T}.
Arguments br_yieldBatchSize {T}.
Arguments br_logger {T}.
Arguments childrenReconciler {T}.

(** [constructor(config, roamApi)] *)
Definition newBlockReconciler {T : Type} (config : ReconcilerConfig T)
  : BlockReconciler T :=
  {| br_config := config;
     br_mutationDelayMs :=
       default DEFAULT_MUTATION_DELAY_MS
         (options config ≫= mutationDelayMs);
     br_yieldBatchSize :=
       default DEFAULT_YIELD_BATCH_SIZE
         (options config ≫= yieldBatchSize);
     br_logger :=
       match options config with
       | Some o => logger o
       | None => false
       end;
     childrenReconciler := None |}.

(** [withChildrenReconciler(config)]: the child reconciler logs to its own
    sink or, failing that, to the parent's
    ([logger: config.logger ?? this.logger]). *)
Definition withChildrenReconciler {T : Type} (this : BlockReconciler T)
    (config : ChildReconcilerConfig) : BlockReconciler T :=
  {| br_config := br_config this;
     br_mutationDelayMs := br_mutationDelayMs this;
     br_yieldBatchSize := br_yieldBatchSize this;
     br_logger := br_logger this;
     childrenReconciler :=
       Some (newChildrenReconciler
               {| extractKey := extractKey config;
                  isSpecialBlock := isSpecialBlock config;
                  c_mutationDelayMs := c_mutationDelayMs config;
                  c_logger := c_logger config || br_logger this |}) |}.

Definition newStats (itemCount : nat) : SyncStats :=
  {| total := itemCount; skipped := 0; created := 0; updated := 0;
     deleted := 0 |}.

Definition incSkipped (s : SyncStats) : SyncStats :=
  {| total := total s; skipped := S (skipped s); created := created s;
     updated := updated s; deleted := deleted s |}.

Definition incCreated (s : SyncStats) : SyncStats :=
  {| total := total s; skipped := skipped s; created := S (created s);
     updated := updated s; deleted := deleted s |}.

Definition incUpdated (s : SyncStats) : SyncStats :=
  {| total := total s; skipped := skipped s; created := created s;
     updated := S (updated s); deleted := deleted s |}.

Definition setDeleted (n : nat) (s : SyncStats) : SyncStats :=
  {| total := total s; skipped := skipped s; created := created s;
     updated := updated s; deleted := n |}.

(** The locals the item loop of [reconcile] carries. *)
Record ItemLoop : Type := mkItemLoop {
  seenIds : gset string;
  il_operationCount : nat }.

(** The locals the loop of [removeObsolete] carries. *)
Record ObsoleteLoop : Type := mkObsoleteLoop {
  deletedCount : nat;
  ol_operationCount : nat }.

Section BlockReconciler.

Context {B E T : Type}.
Variable roamApi : RoamApiAdapter B E.
Variable this : BlockReconciler T.

Local Abbreviation M := (M B E).
Local Abbreviation config := (br_config this).

(** [maybeYieldToMain(count)] *)
Definition maybeYieldToMain (count : nat) : M unit :=
  if Nat.eqb (count mod br_yieldBatchSize this) 0 then yieldToMain
  else ret tt.

(** The body of the loop of [buildExistingMap]. *)
Definition mapEntry (map : JsMap.t RoamNode) (node : RoamNode)
  : M (JsMap.t RoamNode) :=
  match truthy (extractIdFromBlock config node) with
  | Some id =>
      debug (br_logger this) "reconciler_map_entry" ;;
      ret (JsMap.set id node map)
  | None => ret map
  end.

(** [buildExistingMap(nodes)] *)
Definition buildExistingMap (nodes : list RoamNode) : M (JsMap.t RoamNode) :=
  forOf mapEntry JsMap.empty nodes.

(** [updateExistingBlock(existing, newBlock)]; the statistics
    [syncChildren] returns are dropped. *)
Definition updateExistingBlock (existing : RoamNode)
    (newBlock : BlockPayload) : M unit :=
  (if negb (String.eqb (node_text existing) (bp_text newBlock))
   then
     await roamApi (UpdateBlock (node_uid existing) (bp_text newBlock)) ;;
     delay (br_mutationDelayMs this)
   else ret tt) ;;
  match childrenReconciler this, bp_children newBlock with
  | Some reconciler, Some newChildren =>
      syncChildren roamApi reconciler (node_uid existing)
        (orEmpty (node_children existing)) newChildren ;;
      ret tt
  | _, _ => ret tt
  end.

(** [createNewBlock(parentUid, block)] *)
Definition createNewBlock (parentUid : string) (block : BlockPayload)
  : M unit :=
  await roamApi (CreateBlock parentUid block OrderLast).

(** [this.config.options?.onProgress?.(stats)]: the callback sees the
    statistics object as it is at the call. *)
Definition reportProgress : M unit :=
  match options config with
  | Some o =>
      if onProgress o then s <- getStats ;; emit (OnProgress s) else ret tt
  | None => ret tt
  end.

(** The body of [for (const item of items)] in [reconcile]. *)
Definition reconcileItem (parentUid : string)
    (existingMap : JsMap.t RoamNode) (st : ItemLoop) (item : T)
  : M ItemLoop :=
  let id := extractId config item in
  let seen := {[ id ]} ∪ seenIds st in
  let newBlock := buildBlock config item in
  match JsMap.get id existingMap with
  | Some existingNode =>
      let unchanged := isUnchanged existingNode newBlock in
      if unchanged
      then
        modifyStats incSkipped ;;
        debug (br_logger this) "reconciler_skip"
      else
        updateExistingBlock existingNode newBlock ;;
        modifyStats incUpdated ;;
        debug (br_logger this) "reconciler_update"
  | None =>
      createNewBlock parentUid newBlock ;;
      modifyStats incCreated ;;
      debug (br_logger this) "reconciler_create"
  end ;;
  let operationCount := S (il_operationCount st) in
  maybeYieldToMain operationCount ;;
  reportProgress ;;
  ret (mkItemLoop seen operationCount).

(** The body of the loop of [removeObsolete]; the two [continue]s leave
    the locals as they are. *)
Definition removeEntry (seen : gset string) (st : ObsoleteLoop)
    (entry : string * RoamNode) : M ObsoleteLoop :=
  let (id, node) := entry in
  if bool_decide (id ∈ seen) then ret st
  else if optCall (options config ≫= preserveWhen) node
  then debug (br_logger this) "reconciler_preserve" ;; ret st
  else
    await roamApi (DeleteBlock (node_uid node)) ;;
    delay (br_mutationDelayMs this) ;;
    let deletedCount := S (deletedCount st) in
    debug (br_logger this) "reconciler_delete" ;;
    let operationCount := S (ol_operationCount st) in
    maybeYieldToMain operationCount ;;
    ret (mkObsoleteLoop deletedCount operationCount).

(** [removeObsolete(existingMap, seenIds)] *)
Definition removeObsolete (existingMap : JsMap.t RoamNode)
    (seen : gset string) : M nat :=
  st <- forOf (removeEntry seen) (mkObsoleteLoop 0 0)
          (JsMap.entries existingMap) ;;
  ret (deletedCount st).

(** [async reconcile(parentUid, items)] *)
Definition reconcile (parentUid : string) (items : list T) : M SyncStats :=
  modifyStats (fun _ => newStats (length items)) ;;
  existingNodes <- readBackend (getChildren roamApi parentUid) ;;
  existingMap <- buildExistingMap existingNodes ;;
  debug (br_logger this) "reconciler_start" ;;
  st <- forOf (reconcileItem parentUid existingMap) (mkItemLoop ∅ 0) items ;;
  n <- removeObsolete existingMap (seenIds st) ;;
  modifyStats (setDeleted n) ;;
  debug (br_logger this) "reconciler_complete" ;;
  getStats.

End BlockReconciler.

(** * Vocabulary of the specification *)

(** [wp m h Q]: the run of [m] from [h] ends in a heap, a trace and a
    result that satisfy [Q]. *)
Definition wp {B E A : Type} (m : M B E A) (h : Heap B)
    (Q : Heap B -> list Event -> E + A -> Prop) : Prop :=
  Q (m h).1.1 (m h).1.2 (m h).2.

(** A trace without backend calls. *)
Definition quiet (evs : list Event) : Prop := apiCalls evs = [].

(** A backend whose promises all resolve. *)
Definition resolves {B E : Type} (api : RoamApiAdapter B E) : Prop :=
  forall c b, (perform api c b).2 = None.

(** What the truthiness test of [syncChildren] makes of the key of a
    text. *)
Definition keyOf (this : ChildrenReconciler) (text : string)
  : option string :=
  truthy (extractKey (cr_config this) text).

(** The keys of the desired children that have one. *)
Definition desiredKeys (this : ChildrenReconciler)
    (newChildren : list BlockPayload) : list string :=
  omap (fun c => keyOf this (bp_text c)) newChildren.

(** ** Concrete instances on which the model is run *)

Module Examples.

(** The key of a [key:: value] text: what precedes the first [::]. *)
Fixpoint propertyKey (text : string) : option string :=
  match text with
  | EmptyString => None
  | String c rest =>
      match c, rest with
      | ":"%char, String ":"%char _ => Some EmptyString
      | _, _ => String c <$> propertyKey rest
      end
  end.

(** The adapter of the test suite: a fixed tree, every promise resolved. *)
Definition mockApi : RoamApiAdapter (list RoamNode) string :=
  {| getChildren := fun _ nodes => nodes;
     createBlock := fun _ _ _ nodes => (nodes, inr "new-uid");
     updateBlock := fun _ _ nodes => (nodes, inr tt);
     deleteBlock := fun _ nodes => (nodes, inr tt) |}.

Definition heapOf (nodes : list RoamNode) : Heap (list RoamNode) :=
  mkHeap nodes (newStats 0) newChildStats.

Definition leaf (uid text : string) : RoamNode := mkRoamNode text uid None.

Definition line (text : string) : BlockPayload := mkBlockPayload text None.

Definition childConfig : ChildReconcilerConfig :=
  {| extractKey := propertyKey;
     isSpecialBlock := Some (fun text => String.eqb text "comments...");
     c_mutationDelayMs := Some 0;
     c_logger := false |}.

Definition children : ChildrenReconciler := newChildrenReconciler childConfig.

End Examples.

(** [Performed api b evs b' r]: issued one after the other from the
    backend state [b], the calls of [evs] leave the backend in [b']; with
    [r = None] every one of them resolved, and with [r = Some e] the last
    event of [evs] is a call that the backend rejected with [e], every call
    before it having resolved. *)
Inductive Performed {B E : Type} (api : RoamApiAdapter B E)
  : B -> list Event -> B -> option E -> Prop :=
| Performed_nil b : Performed api b [] b None
| Performed_quiet b ev evs b' r :
    quiet [ev] -> Performed api b evs b' r ->
    Performed api b (ev :: evs) b' r
| Performed_rejected b c b' e :
    perform api c b = (b', Some e) -> Performed api b [Api c] b' (Some e)
| Performed_resolved b c b1 evs b' r :
    perform api c b = (b1, None) -> Performed api b1 evs b' r ->
    Performed api b (Api c :: evs) b' r.

(** [sound api P R Post m]: whatever the backend answers, every backend
    call of a run of [m] satisfies [P], the heap moves along [R], the trace
    is faithful to the backend and ends with the rejected call when the run
    fails, and a returned value satisfies [Post]. *)
Definition sound {B E A : Type} (api : RoamApiAdapter B E)
    (P : Call -> Prop) (R : Heap B -> Heap B -> Prop) (Post : A -> Prop)
    (m : M B E A) : Prop :=
  forall h,
    wp m h (fun h' evs r =>
      Forall P (apiCalls evs) /\
      R h h' /\
      Performed api (h_backend h) evs (h_backend h') (rejection r) /\
      forall a, r = inr a -> Post a).

(** A relation on heaps that a run may move along: it is a preorder and
    does not look at the backend. *)
Record Frame {B : Type} (R : Heap B -> Heap B -> Prop) : Prop := mkFrame {
  frame_refl : forall h, R h h;
  frame_trans : forall h1 h2 h3, R h1 h2 -> R h2 h3 -> R h1 h3;
  frame_backend : forall h b',
    R h (mkHeap b' (h_stats h) (h_childStats h)) }.

(** The statistics of [syncChildren] only grow. *)
Definition childKeeps (s s' : ChildSyncStats) : Prop :=
  c_skipped s <= c_skipped s' /\ c_updated s <= c_updated s' /\
  c_created s <= c_created s' /\ c_deleted s <= c_deleted s'.

(** The statistics of [reconcile] are left alone. *)
Definition sameStats {B : Type} (h h' : Heap B) : Prop :=
  h_stats h' = h_stats h.

(** The statistics of [reconcile] are left alone and those of
    [syncChildren] only grow. *)
Definition childFrame {B : Type} (h h' : Heap B) : Prop :=
  h_stats h' = h_stats h /\ childKeeps (h_childStats h) (h_childStats h').

(** The existing children [syncChildren] tracks by key. *)
Definition keyed (this : ChildrenReconciler) (n : RoamNode) : Prop :=
  is_Some (keyOf this (node_text n)).

(** The existing children [syncChildren] tracks as special blocks. *)
Definition special (this : ChildrenReconciler) (n : RoamNode) : Prop :=
  keyOf this (node_text n) = None /\
  optCall (isSpecialBlock (cr_config this)) (node_text n) = true.

(** The backend calls [syncChildren] may issue: a block created last under
    the parent, a keyed existing child updated, a keyed or special existing
    child deleted. *)
Definition childCall (this : ChildrenReconciler) (parentUid : string)
    (existingChildren : list RoamNode) (c : Call) : Prop :=
  match c with
  | CreateBlock p _ order => p = parentUid /\ order = OrderLast
  | UpdateBlock uid _ =>
      exists n, n ∈ existingChildren /\ node_uid n = uid /\ keyed this n
  | DeleteBlock uid =>
      exists n, n ∈ existingChildren /\ node_uid n = uid /\
                (keyed this n \/ special this n)
  end.

(** The locals of the second loop of [syncChildren] hold existing children
    only, under their keys or as special blocks. *)
Definition childInv (this : ChildrenReconciler)
    (existingChildren : list RoamNode) (st : ChildLoop) : Prop :=
  (forall k n, (k, n) ∈ existingPropsMap st ->
     n ∈ existingChildren /\ keyOf this (node_text n) = Some k) /\
  (forall n, n ∈ existingSpecialBlocks st ->
     n ∈ existingChildren /\ special this n).

(** Structural equality of an existing node and a payload, in the words
    of the specification: the texts are identical, the child sequences
    (an absent one counting as empty) have the same length, and the
    children at every position are equal by this same rule.  Uids play no
    part. *)
Inductive structurallyEqual : RoamNode -> BlockPayload -> Prop :=
| structurallyEqual_intro existing payload :
    node_text existing = bp_text payload ->
    length (orEmpty (node_children existing))
      = length (orEmpty (bp_children payload)) ->
    (forall i e c,
       orEmpty (node_children existing) !! i = Some e ->
       orEmpty (bp_children payload) !! i = Some c ->
       structurallyEqual e c) ->
    structurallyEqual existing payload.

(** The identifier map, as a function of the fetched nodes. *)
Definition existingMapOf {T : Type} (config : ReconcilerConfig T)
    (nodes : list RoamNode) : JsMap.t RoamNode :=
  fold_left
    (fun map node =>
       match truthy (extractIdFromBlock config node) with
       | Some id => JsMap.set id node map
       | None => map
       end)
    nodes JsMap.empty.

(** The fetched nodes that enter the identifier map. *)
Definition mapped {T : Type} (config : ReconcilerConfig T) (n : RoamNode)
  : Prop :=
  is_Some (truthy (extractIdFromBlock config n)).

(** The backend calls the item loop of [reconcile] may issue: a block
    created last under the parent; a mapped node updated; a call of
    [syncChildren] on the children of a mapped node. *)
Definition itemCall {T : Type} (this : BlockReconciler T)
    (parentUid : string) (existingNodes : list RoamNode) (c : Call) : Prop :=
  (exists block, c = CreateBlock parentUid block OrderLast) \/
  exists n, n ∈ existingNodes /\ mapped (br_config this) n /\
    ((exists text, c = UpdateBlock (node_uid n) text) \/
     exists reconciler, childrenReconciler this = Some reconciler /\
       childCall reconciler (node_uid n) (orEmpty (node_children n)) c).

(** The backend calls [reconcile] may issue: those of its item loop, and
    a mapped node deleted. *)
Definition topCall {T : Type} (this : BlockReconciler T)
    (parentUid : string) (existingNodes : list RoamNode) (c : Call) : Prop :=
  (exists block, c = CreateBlock parentUid block OrderLast) \/
  exists n, n ∈ existingNodes /\ mapped (br_config this) n /\
    ((exists text, c = UpdateBlock (node_uid n) text) \/
     c = DeleteBlock (node_uid n) \/
     exists reconciler, childrenReconciler this = Some reconciler /\
       childCall reconciler (node_uid n) (orEmpty (node_children n)) c).

(** The counters of [reconcile] that are incremented only grow. *)
Definition statsKept (s s' : SyncStats) : Prop :=
  total s' = total s /\ skipped s <= skipped s' /\
  created s <= created s' /\ updated s <= updated s'.

Definition topFrame {B : Type} (h h' : Heap B) : Prop :=
  statsKept (h_stats h) (h_stats h').

Module TopExamples.
Import Examples.

(** Source items: an identifier and a content. *)
Definition Item : Type := (string * string)%type.

(** Blocks carry [id:: content]; the identifier of a block is its
    property key. *)
Definition itemConfig : ReconcilerConfig Item :=
  {| extractId := fst;
     buildBlock := fun item => line (item.1 ++ ":: " ++ item.2)%string;
     extractIdFromBlock := fun node => propertyKey (node_text node);
     options :=
       Some {| preserveWhen :=
                 Some (fun node => String.eqb (node_text node) "9:: done");
               onProgress := true;
               mutationDelayMs := Some 0;
               yieldBatchSize := Some 100;
               logger := false |} |}.

Definition reconciler : BlockReconciler Item := newBlockReconciler itemConfig.

End TopExamples.

(** [this.config.options?.preserveWhen?.(node)] as a condition. *)
Definition preserved {T : Type} (this : BlockReconciler T) (node : RoamNode)
  : bool :=
  optCall (mbind preserveWhen (options (br_config this))) node.

(** The entries of the identifier map whose identifier was not seen and
    that [preserveWhen] does not protect. *)
Definition obsolete {T : Type} (this : BlockReconciler T)
    (existingMap : JsMap.t RoamNode) (seen : gset string)
  : list (string * RoamNode) :=
  filter (fun kv => (kv.1 ∉ seen) /\ preserved this kv.2 = false)
    existingMap.

(** The uids of fetched nodes and of their children. *)
Definition fetchedUids (nodes : list RoamNode) : list string :=
  flat_map (fun n => node_uid n :: (node_uid <$> orEmpty (node_children n)))
    nodes.

(** [aborted api b evs b' e]: the trace [evs], started with the backend in
    [b], ends with a call that the backend rejected with [e] and that left
    it in [b']; every call before it resolved. *)
Definition aborted {B E : Type} (api : RoamApiAdapter B E) (b : B)
    (evs : list Event) (b' : B) (e : E) : Prop :=
  exists pre c b1,
    evs = pre ++ [Api c] /\
    Performed api b pre b1 None /\
    perform api c b1 = (b', Some e).

Module FailureExamples.
Import Examples.

(** A backend that refuses to delete the block [u3]. *)
Definition flakyApi : RoamApiAdapter (list RoamNode) string :=
  {| getChildren := fun _ nodes => nodes;
     createBlock := fun _ _ _ nodes => (nodes, inr "new-uid");
     updateBlock := fun _ _ nodes => (nodes, inr tt);
     deleteBlock := fun uid nodes =>
       if String.eqb uid "u3" then (nodes, inl "locked") else (nodes, inr tt) |}.

End FailureExamples.

(** An extraction function with the empty string turned into absent. *)
Definition absentIfEmpty {A : Type} (f : A -> option string)
  : A -> option string :=
  fun x => truthy (f x).

Definition absentIfEmptyKey (this : ChildrenReconciler) : ChildrenReconciler :=
  {| cr_config :=
       {| extractKey := absentIfEmpty (extractKey (cr_config this));
          isSpecialBlock := isSpecialBlock (cr_config this);
          c_mutationDelayMs := c_mutationDelayMs (cr_config this);
          c_logger := c_logger (cr_config this) |};
     cr_mutationDelayMs := cr_mutationDelayMs this;
     cr_logger := cr_logger this |}.

Definition absentIfEmptyId {T : Type} (this : BlockReconciler T)
  : BlockReconciler T :=
  {| br_config :=
       {| extractId := extractId (br_config this);
          buildBlock := buildBlock (br_config this);
          extractIdFromBlock :=
            absentIfEmpty (extractIdFromBlock (br_config this));
          options := options (br_config this) |};
     br_mutationDelayMs := br_mutationDelayMs this;
     br_yieldBatchSize := br_yieldBatchSize this;
     br_logger := br_logger this;
     childrenReconciler := absentIfEmptyKey <$> childrenReconciler this |}.

Module EmptyKeyExamples.
Import Examples.

(** Texts that begin with [::] have the empty key; here they are the
    special blocks. *)
Definition notesConfig : ChildReconcilerConfig :=
  {| extractKey := propertyKey;
     isSpecialBlock := Some (fun text => String.prefix "::" text);
     c_mutationDelayMs := Some 0;
     c_logger := false |}.

Definition notes : ChildrenReconciler := newChildrenReconciler notesConfig.

End EmptyKeyExamples.

(** Every backend call of the trace is directly followed by a delay of
    [ms]. *)
Fixpoint paced (ms : nat) (evs : list Event) : Prop :=
  match evs with
  | [] => True
  | Api _ :: rest =>
      match rest with
      | Delay ms' :: _ => ms' = ms /\ paced ms rest
      | _ => False
      end
  | _ :: rest => paced ms rest
  end.

Module PacingExamples.
Import Examples.

(** Configurations without options: the delay is the default one. *)
Definition plainConfig : ReconcilerConfig (string * string) :=
  {| extractId := fst;
     buildBlock := fun item => line (item.1 ++ ":: " ++ item.2)%string;
     extractIdFromBlock := fun node => propertyKey (node_text node);
     options := None |}.

Definition plainChildConfig : ChildReconcilerConfig :=
  {| extractKey := propertyKey;
     isSpecialBlock := None;
     c_mutationDelayMs := None;
     c_logger := false |}.

(** Every block is built with one child line. *)
Definition outlineConfig : ReconcilerConfig (string * string) :=
  {| extractId := fst;
     buildBlock := fun item =>
       mkBlockPayload (item.1 ++ ":: " ++ item.2)%string
         (Some [line "details"]);
     extractIdFromBlock := fun node => propertyKey (node_text node);
     options := None |}.

(** Every block is built with two properties. *)
Definition propsConfig : ReconcilerConfig (string * string) :=
  {| extractId := fst;
     buildBlock := fun item =>
       mkBlockPayload (item.1 ++ ":: " ++ item.2)%string
         (Some [line "a:: 1"; line "b:: 2"]);
     extractIdFromBlock := fun node => propertyKey (node_text node);
     options := None |}.

End PacingExamples.

(** The fetched nodes already reflect the items: the identifier of every
    item is mapped to a node structurally equal to the payload of the item,
    and every entry of the identifier map is the entry of an item or is
    protected by [preserveWhen]. *)
Definition converged {T : Type} (this : BlockReconciler T)
    (nodes : list RoamNode) (items : list T) : Prop :=
  (forall item, item ∈ items ->
     exists n,
       JsMap.get (extractId (br_config this) item)
         (existingMapOf (br_config this) nodes) = Some n /\
       structurallyEqual n (buildBlock (br_config this) item)) /\
  (forall id n, (id, n) ∈ existingMapOf (br_config this) nodes ->
     id ∈ extractId (br_config this) <$> items \/ preserved this n = true).

(** The statistics of a pass that skipped every item. *)
Definition allSkipped (itemCount : nat) : SyncStats :=
  {| total := itemCount; skipped := itemCount; created := 0; updated := 0;
     deleted := 0 |}.

(** ** The backend *)

(** A node with its text replaced. *)
Definition setText (text : string) (n : RoamNode) : RoamNode :=
  mkRoamNode text (node_uid n) (node_children n).

(** Modelled from the spec: the backend behind [RoamApiAdapter] is not
    part of the repository; section 6 of the specification gives its
    contract, stated here for the children of one page.  Every promise
    resolves.  On the states [wf] that the backend can be in, the children
    of the page carry distinct uids; [createBlock] under the page with
    position ["last"] appends one node that mirrors the payload,
    descendants included; [updateBlock] replaces the text of the child with
    that uid and nothing else; [deleteBlock] removes the child with that
    uid, descendants included. *)
Record PageContract {B E : Type} (api : RoamApiAdapter B E) (page : string)
    (wf : B -> Prop) : Prop := mkPageContract {
  contract_resolves : resolves api;
  contract_wf : forall c b, wf b -> wf (perform api c b).1;
  contract_uids : forall b,
    wf b -> NoDup (node_uid <$> getChildren api page b);
  contract_create : forall b block,
    wf b ->
    exists n,
      getChildren api page (perform api (CreateBlock page block OrderLast) b).1
        = getChildren api page b ++ [n] /\
      structurallyEqual n block;
  contract_update : forall b uid text,
    wf b -> uid ∈ node_uid <$> getChildren api page b ->
    getChildren api page (perform api (UpdateBlock uid text) b).1
      = (fun n => if decide (node_uid n = uid) then setText text n else n)
          <$> getChildren api page b;
  contract_delete : forall b uid,
    wf b -> uid ∈ node_uid <$> getChildren api page b ->
    getChildren api page (perform api (DeleteBlock uid) b).1
      = filter (fun n => node_uid n <> uid) (getChildren api page b) }.

(** Modelled from the spec: an in-memory backend for the children of one
    page, after section 6 of the specification.  The state is the list of
    children; blocks are addressed by uid among them, and calls addressed
    elsewhere leave the page as it is. *)
Module PageBackend.

(** A uid that no child carries: it is longer than each of theirs. *)
Definition freshUid (nodes : list RoamNode) : string :=
  fold_right (fun n acc => (node_uid n ++ acc)%string) "u" nodes.

(** The node created for a payload: the descendants are created with it,
    under uids derived from its own. *)
Fixpoint nodeOfPayload (uid : string) (payload : BlockPayload) : RoamNode :=
  mkRoamNode (bp_text payload) uid
    (match bp_children payload with
     | Some children =>
         Some ((fix go (i : nat) (children : list BlockPayload)
                 : list RoamNode :=
                  match children with
                  | [] => []
                  | child :: rest =>
                      nodeOfPayload (uid ++ "." ++ pretty i)%string child
                        :: go (S i) rest
                  end) 0 children)
     | None => None
     end).

Definition insertAt (order : Order) (n : RoamNode) (nodes : list RoamNode)
  : list RoamNode :=
  match order with
  | OrderLast => nodes ++ [n]
  | OrderIndex i => take i nodes ++ n :: drop i nodes
  end.

Definition api (page : string) : RoamApiAdapter (list RoamNode) string :=
  {| getChildren := fun parentUid nodes =>
       if String.eqb parentUid page then nodes else [];
     createBlock := fun parentUid block order nodes =>
       if String.eqb parentUid page
       then (insertAt order (nodeOfPayload (freshUid nodes) block) nodes,
             inr (freshUid nodes))
       else (nodes, inr (freshUid nodes));
     updateBlock := fun uid text nodes =>
       ((fun n => if String.eqb (node_uid n) uid then setText text n else n)
          <$> nodes, inr tt);
     deleteBlock := fun uid nodes =>
       (filter (fun n => node_uid n <> uid) nodes, inr tt) |}.

Definition wf (nodes : list RoamNode) : Prop := NoDup (node_uid <$> nodes).

Definition heapOf (nodes : list RoamNode) : Heap (list RoamNode) :=
  mkHeap nodes (newStats 0) newChildStats.

End PageBackend.

(** Modelled from the spec: the in-memory backend of [PageBackend], one
    level deeper.  The state is the list of the children of the page, each
    with its own children.  [createBlock] under a child of the page inserts
    among the children of that child; [updateBlock] and [deleteBlock]
    address the children of the page and their children by uid. *)
Module TreeBackend.

Definition withChildren (children : list RoamNode) (n : RoamNode) : RoamNode :=
  mkRoamNode (node_text n) (node_uid n) (Some children).

(** [f] applied to the child list of every child of the page that has
    one. *)
Definition underEach (f : list RoamNode -> list RoamNode)
    (nodes : list RoamNode) : list RoamNode :=
  (fun n =>
     match node_children n with
     | Some children => withChildren (f children) n
     | None => n
     end) <$> nodes.

(** The children of the page and their children. *)
Definition allNodes (nodes : list RoamNode) : list RoamNode :=
  flat_map (fun n => n :: orEmpty (node_children n)) nodes.

Definition api (page : string) : RoamApiAdapter (list RoamNode) string :=
  {| getChildren := fun parentUid nodes =>
       if String.eqb parentUid page then nodes
       else flat_map
              (fun n =>
                 if String.eqb (node_uid n) parentUid
                 then orEmpty (node_children n) else [])
              nodes;
     createBlock := fun parentUid block order nodes =>
       let uid := PageBackend.freshUid (allNodes nodes) in
       let created := PageBackend.nodeOfPayload uid block in
       (if String.eqb parentUid page
        then PageBackend.insertAt order created nodes
        else (fun n =>
                if String.eqb (node_uid n) parentUid
                then withChildren
                       (PageBackend.insertAt order created
                          (orEmpty (node_children n))) n
                else n) <$> nodes,
        inr uid);
     updateBlock := fun uid text nodes =>
       let update :=
         fmap (M:=list)
           (fun n => if String.eqb (node_uid n) uid then setText text n else n)
       in
       (underEach update (update nodes), inr tt);
     deleteBlock := fun uid nodes =>
       let delete := filter (fun n => node_uid n <> uid) in
       (underEach delete (delete nodes), inr tt) |}.

End TreeBackend.

(** The identifier under which a fetched node enters the identifier map,
    if it does. *)
Definition idOf {T : Type} (config : ReconcilerConfig T) (n : RoamNode)
  : option string :=
  truthy (extractIdFromBlock config n).

(** What holds of the backend [b] while the first of two passes works
    through the items, [done] being the items processed so far: every
    processed item has a child structurally equal to its payload; the
    mapped nodes of the unprocessed identifiers are still there; no two
    children carry the same identifier; and every child is a node fetched
    at the start or the node of a processed item. *)
Definition passInv {B E T : Type} (api : RoamApiAdapter B E) (page : string)
    (wf : B -> Prop) (this : BlockReconciler T) (nodes0 : list RoamNode)
    (done : list T) (b : B) : Prop :=
  wf b /\
  (forall i, i ∈ done ->
     exists m, m ∈ getChildren api page b /\
               structurallyEqual m (buildBlock (br_config this) i)) /\
  (forall k n, (k, n) ∈ existingMapOf (br_config this) nodes0 ->
     k ∉ extractId (br_config this) <$> done ->
     n ∈ getChildren api page b) /\
  NoDup (omap (idOf (br_config this)) (getChildren api page b)) /\
  (forall m, m ∈ getChildren api page b ->
     m ∈ nodes0 \/
     exists i, i ∈ done /\
               structurallyEqual m (buildBlock (br_config this) i)).

(** ** Counters and observers *)

(** The items a pass has accounted for so far. *)
Definition counted (s : SyncStats) : nat := skipped s + created s + updated s.

(** The statistics handed to [onProgress], in the order of the calls. *)
Definition progressReports (evs : list Event) : list SyncStats :=
  omap (fun ev => match ev with OnProgress s => Some s | _ => None end) evs.

(** Whether [this.config.options?.onProgress] is there to be called. *)
Definition reportsProgress {T : Type} (this : BlockReconciler T) : bool :=
  match options (br_config this) with
  | Some o => onProgress o
  | None => false
  end.

(** [unseen obs m]: no run of [m] leaves an event that [obs] observes. *)
Definition unseen {B E A X : Type} (obs : Event -> option X) (m : M B E A)
  : Prop :=
  forall h, omap obs (m h).1.2 = [].

(** ** Desired children *)

(** Whether [syncChildren] does anything for a desired child: it does when
    the child has a key, and otherwise when it is a special block. *)
Definition handled (this : ChildrenReconciler) (c : BlockPayload) : bool :=
  match keyOf this (bp_text c) with
  | Some _ => true
  | None => optCall (isSpecialBlock (cr_config this)) (bp_text c)
  end.

(** A desired child that replaces the special blocks. *)
Definition replacesSpecials (this : ChildrenReconciler) (c : BlockPayload)
  : Prop :=
  keyOf this (bp_text c) = None /\
  optCall (isSpecialBlock (cr_config this)) (bp_text c) = true.

(** The desired children a pass of [syncChildren] has accounted for. *)
Definition childCounted (s : ChildSyncStats) : nat :=
  c_created s + c_updated s + c_skipped s.

(** The backend calls [syncChildren] may issue when no desired child
    replaces the special blocks. *)
Definition keyedCall (this : ChildrenReconciler) (parentUid : string)
    (existingChildren : list RoamNode) (c : Call) : Prop :=
  match c with
  | CreateBlock p _ order => p = parentUid /\ order = OrderLast
  | UpdateBlock uid _ | DeleteBlock uid =>
      exists n, n ∈ existingChildren /\ node_uid n = uid /\ keyed this n
  end.

(** ** Delays between calls *)

(** Whether a call has been issued that no delay of [ms] has followed yet,
    after the events [evs], [pending] telling the same of what came
    before. *)
Fixpoint pendingAfter (ms : nat) (pending : bool) (evs : list Event) : bool :=
  match evs with
  | [] => pending
  | Api _ :: rest => pendingAfter ms true rest
  | Delay ms' :: rest =>
      pendingAfter ms (if Nat.eqb ms' ms then false else pending) rest
  | _ :: rest => pendingAfter ms pending rest
  end.

(** No backend call of [evs] is issued while an earlier one is still
    pending: a delay of [ms] separates any two consecutive calls. *)
Fixpoint separated (ms : nat) (pending : bool) (evs : list Event) : Prop :=
  match evs with
  | [] => True
  | Api _ :: rest => pending = false /\ separated ms true rest
  | Delay ms' :: rest =>
      separated ms (if Nat.eqb ms' ms then false else pending) rest
  | _ :: rest => separated ms pending rest
  end.

(** [paces ms p p' m]: started with [p] pending, every run of [m] keeps its
    calls separated, and one that returns ends with [p'] pending. *)
Definition paces {B E A : Type} (ms : nat) (p p' : bool) (m : M B E A)
  : Prop :=
  forall h,
    wp m h (fun _ evs r =>
      separated ms p evs /\
      forall a, r = inr a -> pendingAfter ms p evs = p').

(** [pacesAll ms m]: however it is started, every run of [m] keeps its
    calls separated. *)
Definition pacesAll {B E A : Type} (ms : nat) (m : M B E A) : Prop :=
  forall p h, wp m h (fun _ evs _ => separated ms p evs).

(** ** Yields *)

(** How often a trace yields to the main thread. *)
Definition yieldCount (evs : list Event) : nat :=
  length (omap (fun ev => match ev with YieldToMain => Some tt | _ => None end)
            evs).

(** ** [roam-api-adapter.ts]: the adapter over Roam's own functions *)

Unset Elimination Schemes.

(** [interface RoamBasicNode
      { text?: string; uid: string; children?: RoamBasicNode[] }] *)
Inductive RoamBasicNode : Type := mkRoamBasicNode {
  basic_text : option string;
  basic_uid : string;
  basic_children : option (list RoamBasicNode) }.

(** [interface InputTextNode { text: string; children?: InputTextNode[] }] *)
Inductive InputTextNode : Type := mkInputTextNode {
  input_text : string;
  input_children : option (list InputTextNode) }.

Set Elimination Schemes.

(** Structural induction on raw nodes, as for [RoamNode]. *)
Section RoamBasicNode_induction.
Variable P : RoamBasicNode -> Prop.
Hypothesis step : forall t u cs,
  Forall P (orEmpty cs) -> P (mkRoamBasicNode t u cs).

Fixpoint RoamBasicNode_ind (n : RoamBasicNode) : P n :=
  match n with
  | mkRoamBasicNode t u cs =>
      step t u cs
        (match cs as c return Forall P (orEmpty c) with
         | Some l =>
             (fix all (l : list RoamBasicNode) : Forall P l :=
                match l with
                | [] => List.Forall_nil P
                | x :: l' =>
                    @List.Forall_cons _ P x l' (RoamBasicNode_ind x) (all l')
                end) l
         | None => List.Forall_nil P
         end)
  end.
End RoamBasicNode_induction.

(** [toRoamNode(node)]: [text ?? ""], and [children?.map(toRoamNode)]. *)
Fixpoint toRoamNode (node : RoamBasicNode) : RoamNode :=
  mkRoamNode (default "" (basic_text node)) (basic_uid node)
    (match basic_children node with
     | Some children => Some (map toRoamNode children)
     | None => None
     end).

(** [toInputNode(payload)] *)
Fixpoint toInputNode (payload : BlockPayload) : InputTextNode :=
  mkInputTextNode (bp_text payload)
    (match bp_children payload with
     | Some children => Some (map toInputNode children)
     | None => None
     end).

(** [interface RoamApiAdapterOptions]; [createBlock] takes the fields of
    its one parameter in the order [parentUid], [order], [node]. *)
Record RoamApiAdapterOptions (B E : Type) : Type := mkRoamApiAdapterOptions {
  getBasicTreeByParentUid : string -> B -> list RoamBasicNode;
  opt_createBlock : string -> Order -> InputTextNode -> B -> B * (E + string);
  opt_updateBlock : string -> string -> B -> B * (E + unit);
  opt_deleteBlock : string -> B -> B * (E + unit) }.

Arguments getBasicTreeByParentUid {B E}.
Arguments opt_createBlock {B E}.
Arguments opt_updateBlock {B E}.
Arguments opt_deleteBlock {B E}.

(** [async createBlock(parentUid, block, order = "last")] of the adapter:
    an omitted [order] is ["last"]. *)
Definition adapterCreateBlock {B E : Type}
    (options : RoamApiAdapterOptions B E) (parentUid : string)
    (block : BlockPayload) (order : option Order) : B -> B * (E + string) :=
  opt_createBlock options parentUid (default OrderLast order)
    (toInputNode block).

(** [createRoamApiAdapter(options)] *)
Definition createRoamApiAdapter {B E : Type}
    (options : RoamApiAdapterOptions B E) : RoamApiAdapter B E :=
  {| getChildren parentUid b :=
       let nodes := getBasicTreeByParentUid options parentUid b in
       map toRoamNode nodes;
     createBlock parentUid block order :=
       adapterCreateBlock options parentUid block (Some order);
     updateBlock uid text := opt_updateBlock options uid text;
     deleteBlock uid := opt_deleteBlock options uid |}.

(** A raw node of Roam holds what an input node asked for: the same text,
    a missing text standing for the empty one, and as many children, a
    missing list standing for the empty one, each holding its input
    child.  Uids play no part. *)
Inductive mirrors : RoamBasicNode -> InputTextNode -> Prop :=
| mirrors_intro raw input :
    default "" (basic_text raw) = input_text input ->
    length (orEmpty (basic_children raw))
      = length (orEmpty (input_children input)) ->
    (forall i r c,
       orEmpty (basic_children raw) !! i = Some r ->
       orEmpty (input_children input) !! i = Some c ->
       mirrors r c) ->
    mirrors raw input.

(** ** Tallies of backend calls *)

Definition creates (calls : list Call) : nat :=
  sum_list_with
    (fun c => match c with CreateBlock _ _ _ => 1 | _ => 0 end) calls.

Definition updates (calls : list Call) : nat :=
  sum_list_with (fun c => match c with UpdateBlock _ _ => 1 | _ => 0 end) calls.

Definition deletes (calls : list Call) : nat :=
  sum_list_with (fun c => match c with DeleteBlock _ => 1 | _ => 0 end) calls.

(** The mutations a [ChildSyncStats] records. *)
Definition mutations (s : ChildSyncStats) : nat :=
  c_created s + c_updated s + c_deleted s.

(** Whether a run has returned. *)
Definition returned {E A : Type} (r : E + A) : bool :=
  match r with
  | inr _ => true
  | inl _ => false
  end.

(** [tallies I m]: every run of [m] relates the heap it starts from, its
    backend calls and the heap it ends in by [I], which is also told
    whether the run has returned. *)
Definition tallies {B E A : Type}
    (I : Heap B -> list Call -> Heap B -> bool -> Prop) (m : M B E A)
  : Prop :=
  forall h, wp m h (fun h' evs r => I h (apiCalls evs) h' (returned r)).

(** The child statistics move with the calls: one more created, updated
    or deleted for every call of the kind when the run returns; when it
    fails, one call in all has not been recorded. *)
Definition childTally {B : Type} (h : Heap B) (calls : list Call)
    (h' : Heap B) (ok : bool) : Prop :=
  if ok
  then c_created (h_childStats h')
         = c_created (h_childStats h) + creates calls /\
       c_updated (h_childStats h')
         = c_updated (h_childStats h) + updates calls /\
       c_deleted (h_childStats h')
         = c_deleted (h_childStats h) + deletes calls
  else mutations (h_childStats h) + length calls
         = S (mutations (h_childStats h')).

(** The statistics of a pass move with the calls of the item loop, which
    deletes nothing. *)
Definition itemTally {B : Type} (h : Heap B) (calls : list Call)
    (h' : Heap B) (ok : bool) : Prop :=
  if ok
  then created (h_stats h') = created (h_stats h) + creates calls /\
       updated (h_stats h) + updates calls <= updated (h_stats h') /\
       deletes calls = 0
  else True.



(** ** Keys of existing and desired children *)

(** The distinct non-empty keys of the existing children. *)
Definition existingKeys (this : ChildrenReconciler)
    (existingChildren : list RoamNode) : list string :=
  remove_dups (omap (fun n => keyOf this (node_text n)) existingChildren).

(** Whether a call writes a text that has the key: a block created with
    such a text, or a block updated to one. *)
Definition carriesKey (this : ChildrenReconciler) (key : string) (c : Call)
  : bool :=
  match c with
  | CreateBlock _ block _ => bool_decide (keyOf this (bp_text block) = Some key)
  | UpdateBlock _ text => bool_decide (keyOf this text = Some key)
  | DeleteBlock _ => false
  end.

(** The calls that carry a key in a pass over desired children of which
    [dups] have the key, [entry] being what the key map holds for it: the
    first of [dups] is matched against the entry if there is one, and every
    other one is created. *)
Definition keyCalls (parentUid : string) (entry : option RoamNode)
    (dups : list BlockPayload) : list Call :=
  match dups with
  | [] => []
  | first :: rest =>
      match entry with
      | Some n =>
          if String.eqb (node_text n) (bp_text first) then []
          else [UpdateBlock (node_uid n) (bp_text first)]
      | None => [CreateBlock parentUid first OrderLast]
      end ++ ((fun c => CreateBlock parentUid c OrderLast) <$> rest)
  end.

(** ** Items and the nodes they are matched with *)

(** The node an item is matched with: the last of the fetched nodes that
    carry the identifier of the item. *)
Definition matchOf {T : Type} (config : ReconcilerConfig T)
    (nodes : list RoamNode) (item : T) (n : RoamNode) : Prop :=
  exists pre post,
    nodes = pre ++ n :: post /\
    idOf config n = Some (extractId config item) /\
    forall m, m ∈ post -> idOf config m <> Some (extractId config item).

(** An item that no fetched node carries the identifier of. *)
Definition unmatched {T : Type} (config : ReconcilerConfig T)
    (nodes : list RoamNode) (item : T) : Prop :=
  forall m, m ∈ nodes -> idOf config m <> Some (extractId config item).

(** An item matched with a node structurally equal to its payload. *)
Definition skippable {T : Type} (config : ReconcilerConfig T)
    (nodes : list RoamNode) (item : T) : Prop :=
  exists n, matchOf config nodes item n /\
            structurallyEqual n (buildBlock config item).

(** An item matched with a node that is not structurally equal to its
    payload. *)
Definition changed {T : Type} (config : ReconcilerConfig T)
    (nodes : list RoamNode) (item : T) : Prop :=
  exists n, matchOf config nodes item n /\
            ~ structurallyEqual n (buildBlock config item).

(** [counts P l n]: [n] of the elements of [l], repetitions included,
    satisfy [P]. *)
Inductive counts {A : Type} (P : A -> Prop) : list A -> nat -> Prop :=
| counts_nil : counts P [] 0
| counts_yes x l n : P x -> counts P l n -> counts P (x :: l) (S n)
| counts_no x l n : ~ P x -> counts P l n -> counts P (x :: l) n.

(** * Reasoning about runs *)

(** ** The JavaScript [Map] *)

Module JsMapFacts.
Import JsMap.

Section Facts.
Context {V : Type}.
Implicit Types (m : list (string * V)) (k : string) (v : V).

Lemma get_set_eq k v m : get k (set k v m) = Some v.
Proof.
  induction m as [|[k' v'] m IH]; simpl.
  - by rewrite String.eqb_refl.
  - destruct (String.eqb k' k) eqn:Hk; simpl; rewrite Hk; done.
Qed.

Lemma get_set_ne k k' v m : k' <> k -> get k (set k' v m) = get k m.
Proof.
  intros Hne. induction m as [|[k0 v0] m IH]; simpl.
  - apply String.eqb_neq in Hne. by rewrite Hne.
  - destruct (String.eqb k0 k') eqn:Hk0; simpl.
    + apply String.eqb_eq in Hk0. subst k0.
      apply String.eqb_neq in Hne. by rewrite Hne.
    + by rewrite IH.
Qed.

Lemma get_Some_In k v m : get k m = Some v -> In (k, v) m.
Proof.
  induction m as [|[k0 v0] m IH]; simpl; [done|].
  destruct (String.eqb k0 k) eqn:Hk.
  - apply String.eqb_eq in Hk. intros [= ->]. subst. by left.
  - intros H. right. by apply IH.
Qed.

Lemma get_None_keys k m : get k m = None <-> ~ In k (keys m).
Proof.
  induction m as [|[k0 v0] m IH]; simpl; [tauto|].
  destruct (String.eqb k0 k) eqn:Hk.
  - apply String.eqb_eq in Hk. split; [done|]. intros H. destruct H. by left.
  - apply String.eqb_neq in Hk. rewrite IH. tauto.
Qed.

Lemma In_get k v m : NoDup (keys m) -> In (k, v) m -> get k m = Some v.
Proof.
  induction m as [|[k0 v0] m IH]; simpl; [done|].
  intros Hnd [Heq|Hin].
  - injection Heq as -> ->. by rewrite String.eqb_refl.
  - apply NoDup_cons in Hnd as [Hk0 Hnd].
    destruct (String.eqb k0 k) eqn:Hk.
    + apply String.eqb_eq in Hk. subst k0. destruct Hk0.
      apply list_elem_of_In. change k with (fst (k, v)). by apply in_map.
    + by apply IH.
Qed.

Lemma keys_set k v m :
  keys (set k v m) =
    match get k m with
    | Some _ => keys m
    | None => keys m ++ [k]
    end.
Proof.
  induction m as [|[k0 v0] m IH]; simpl; [done|].
  destruct (String.eqb k0 k) eqn:Hk; simpl; [done|].
  rewrite IH. by destruct (get k m).
Qed.

Lemma NoDup_keys_set k v m : NoDup (keys m) -> NoDup (keys (set k v m)).
Proof.
  intros Hnd. rewrite keys_set. destruct (get k m) eqn:Hg; [done|].
  apply NoDup_app. split_and!; [done| |apply NoDup_singleton].
  intros x Hx ->%list_elem_of_singleton.
  apply get_None_keys in Hg. by apply Hg, list_elem_of_In.
Qed.

Lemma filter_all {A : Type} (P : A -> Prop) `{forall x, Decision (P x)}
    (l : list A) :
  Forall P l -> filter P l = l.
Proof.
  induction 1 as [|x l Hx _ IH]; [done|].
  by rewrite filter_cons_True, IH.
Qed.

(** On a map, whose keys are distinct, [delete] drops every entry of the
    key. *)
Lemma delete_filter k m :
  NoDup (keys m) ->
  delete k m = filter (fun kv => kv.1 <> k) m.
Proof.
  induction m as [|[k0 v0] m IH]; [done|].
  cbn [delete keys map fst].
  intros [Hk0 Hnd]%NoDup_cons.
  destruct (String.eqb k0 k) eqn:Hk.
  - apply String.eqb_eq in Hk. subst k0.
    rewrite filter_cons_False by (simpl; tauto).
    symmetry. apply filter_all, Forall_forall.
    intros [k1 v1] Hin Heq. simpl in Heq. subst k1. apply Hk0.
    change k with (fst (k, v1)). by apply list_elem_of_fmap_2.
  - apply String.eqb_neq in Hk.
    rewrite filter_cons_True by done. by rewrite IH.
Qed.

Lemma get_delete_None k m : get k m = None -> delete k m = m.
Proof.
  induction m as [|[k0 v0] m IH]; simpl; [done|].
  destruct (String.eqb k0 k); [done|]. intros H. by rewrite IH.
Qed.

Lemma NoDup_keys_filter (P : string * V -> Prop)
    `{forall x, Decision (P x)} m :
  NoDup (keys m) -> NoDup (keys (filter P m)).
Proof.
  induction m as [|[k v] m IH]; [done|].
  cbn [keys map fst]. intros [Hk Hnd]%NoDup_cons.
  destruct (decide (P (k, v))).
  - rewrite filter_cons_True by done. cbn [keys map fst].
    apply NoDup_cons. split; [|by apply IH].
    intros Hin. apply Hk.
    apply list_elem_of_fmap in Hin as [[k1 v1] [-> Hin]].
    apply list_elem_of_filter in Hin as [_ Hin].
    by apply (list_elem_of_fmap_2 fst) in Hin.
  - rewrite filter_cons_False by done. by apply IH.
Qed.

Lemma NoDup_keys_delete k m : NoDup (keys m) -> NoDup (keys (delete k m)).
Proof.
  intros Hnd. rewrite delete_filter by done. by apply NoDup_keys_filter.
Qed.

Lemma get_delete_eq k m : NoDup (keys m) -> get k (delete k m) = None.
Proof.
  intros Hnd. apply get_None_keys. rewrite delete_filter by done.
  intros Hin. apply list_elem_of_In in Hin.
  apply list_elem_of_fmap in Hin as [[k1 v1] [-> Hin]].
  apply list_elem_of_filter in Hin as [Hne _]. by apply Hne.
Qed.

Lemma get_filter_None (P : string * V -> Prop)
    `{forall x, Decision (P x)} k m :
  get k m = None -> get k (filter P m) = None.
Proof.
  rewrite !get_None_keys. intros Hk Hin. apply Hk.
  apply list_elem_of_In in Hin. apply list_elem_of_In.
  apply list_elem_of_fmap in Hin as [[k1 v1] [-> Hin]].
  apply list_elem_of_filter in Hin as [_ Hin].
  by apply (list_elem_of_fmap_2 fst) in Hin.
Qed.

Lemma get_delete_None_mono k k' m :
  NoDup (keys m) -> get k m = None -> get k (delete k' m) = None.
Proof.
  intros Hnd Hk. rewrite delete_filter by done. by apply get_filter_None.
Qed.

End Facts.
End JsMapFacts.

(** ** Weakest preconditions *)

Section Logic.

Context {B E : Type}.
Variable roamApi : RoamApiAdapter B E.

Local Abbreviation M := (M B E).
Implicit Types h : Heap B.

Lemma wp_run {A : Type} (m : M A) h Q h' evs r :
  wp m h Q -> m h = (h', evs, r) -> Q h' evs r.
Proof. unfold wp. intros HQ Hm. by rewrite Hm in HQ. Qed.

Lemma wp_of_run {A : Type} (m : M A) h (Q : _ -> _ -> _ -> Prop) :
  (forall h' evs r, m h = (h', evs, r) -> Q h' evs r) -> wp m h Q.
Proof. intros HQ. unfold wp. apply HQ. by destruct (m h) as [[? ?] ?]. Qed.

Lemma wp_mono {A : Type} (m : M A) h (Q Q' : _ -> _ -> _ -> Prop) :
  wp m h Q -> (forall h' evs r, Q h' evs r -> Q' h' evs r) -> wp m h Q'.
Proof. unfold wp. auto. Qed.

Lemma wp_ret {A : Type} (a : A) h (Q : _ -> _ -> _ -> Prop) :
  Q h [] (inr a) -> wp (ret (E:=E) a) h Q.
Proof. done. Qed.

Lemma wp_bind {A C : Type} (m : M A) (k : A -> M C) h
    (Q : _ -> _ -> _ -> Prop) :
  wp m h (fun h1 ev1 r1 =>
            match r1 with
            | inl e => Q h1 ev1 (inl e)
            | inr a => wp (k a) h1 (fun h2 ev2 r2 => Q h2 (ev1 ++ ev2) r2)
            end) ->
  wp (bind m k) h Q.
Proof.
  unfold wp, bind. destruct (m h) as [[h1 ev1] [e|a]]; simpl; [done|].
  by destruct (k a h1) as [[h2 ev2] r2].
Qed.

Lemma wp_emit ev h (Q : _ -> _ -> _ -> Prop) :
  Q h [ev] (inr tt) -> wp (emit (E:=E) ev) h Q.
Proof. done. Qed.

Lemma wp_await c h (Q : _ -> _ -> _ -> Prop) :
  (forall b' r, perform roamApi c (h_backend h) = (b', r) ->
     Q (mkHeap b' (h_stats h) (h_childStats h)) [Api c]
       (match r with Some e => inl e | None => inr tt end)) ->
  wp (await roamApi c) h Q.
Proof.
  intros HQ. unfold wp, await.
  destruct (perform roamApi c (h_backend h)) as [b' r] eqn:Hp. simpl.
  by apply HQ.
Qed.

Lemma wp_modifyStats f h (Q : _ -> _ -> _ -> Prop) :
  Q (mkHeap (h_backend h) (f (h_stats h)) (h_childStats h)) [] (inr tt) ->
  wp (modifyStats (E:=E) f) h Q.
Proof. done. Qed.

Lemma wp_modifyChildStats f h (Q : _ -> _ -> _ -> Prop) :
  Q (mkHeap (h_backend h) (h_stats h) (f (h_childStats h))) [] (inr tt) ->
  wp (modifyChildStats (E:=E) f) h Q.
Proof. done. Qed.

Lemma wp_getStats h (Q : _ -> _ -> _ -> Prop) :
  Q h [] (inr (h_stats h)) -> wp (getStats (E:=E)) h Q.
Proof. done. Qed.

Lemma wp_getChildStats h (Q : _ -> _ -> _ -> Prop) :
  Q h [] (inr (h_childStats h)) -> wp (getChildStats (E:=E)) h Q.
Proof. done. Qed.

Lemma wp_readBackend {A : Type} (f : B -> A) h (Q : _ -> _ -> _ -> Prop) :
  Q h [] (inr (f (h_backend h))) -> wp (readBackend (E:=E) f) h Q.
Proof. done. Qed.

(** The pacing and logging helpers never fail and leave the heap alone;
    they only add events that are no backend calls. *)
Lemma wp_debug present event h (Q : _ -> _ -> _ -> Prop) :
  (forall evs, quiet evs -> Q h evs (inr tt)) ->
  wp (debug (E:=E) present event) h Q.
Proof. intros HQ. destruct present; by apply HQ. Qed.

Lemma wp_delay ms h (Q : _ -> _ -> _ -> Prop) :
  Q h [Delay ms] (inr tt) -> wp (delay (E:=E) ms) h Q.
Proof. done. Qed.

Lemma wp_maybeYield n batch h (Q : _ -> _ -> _ -> Prop) :
  (forall evs, quiet evs -> Q h evs (inr tt)) ->
  wp (maybeYield (E:=E) n batch) h Q.
Proof.
  intros HQ. unfold maybeYield.
  destruct (Nat.eqb (n mod batch) 0); by apply HQ.
Qed.

End Logic.

(** ** Traces *)

Lemma apiCalls_app evs1 evs2 :
  apiCalls (evs1 ++ evs2) = apiCalls evs1 ++ apiCalls evs2.
Proof. apply omap_app. Qed.

Lemma apiCalls_cons ev evs :
  apiCalls (ev :: evs) =
    match ev with
    | Api c => c :: apiCalls evs
    | _ => apiCalls evs
    end.
Proof. by destruct ev. Qed.

Lemma apiCalls_nil : apiCalls [] = [].
Proof. done. Qed.

#[global] Arguments apiCalls : simpl never.

Lemma quiet_nil : quiet [].
Proof. done. Qed.

Lemma quiet_app evs1 evs2 : quiet evs1 -> quiet evs2 -> quiet (evs1 ++ evs2).
Proof. unfold quiet. rewrite apiCalls_app. by intros -> ->. Qed.

Lemma quiet_delay ms : quiet [Delay ms].
Proof. done. Qed.

Lemma quiet_progress s : quiet [OnProgress s].
Proof. done. Qed.

Create HintDb quiet.
#[global] Hint Resolve quiet_nil quiet_app quiet_delay quiet_progress : quiet.

Lemma wp_await_resolves {B E : Type} (api : RoamApiAdapter B E) c h
    (Q : _ -> _ -> _ -> Prop) :
  resolves api ->
  Q (mkHeap (perform api c (h_backend h)).1 (h_stats h) (h_childStats h))
    [Api c] (inr tt) ->
  wp (await api c) h Q.
Proof.
  intros Hres HQ. apply wp_await. intros b' r Hp.
  specialize (Hres c (h_backend h)). rewrite Hp in *. simpl in *. by subst r.
Qed.

(** One step of symbolic execution. *)
Ltac wp_step :=
  lazymatch goal with
  | |- wp (bind _ _) _ _ => apply wp_bind
  | |- wp (ret _) _ _ => apply wp_ret
  | |- wp (emit _) _ _ => apply wp_emit
  | |- wp (delay _) _ _ => apply wp_delay
  | |- wp (debug _ _) _ _ => apply wp_debug; intros ? ?
  | |- wp (maybeYield _ _) _ _ => apply wp_maybeYield; intros ? ?
  | |- wp (modifyStats _) _ _ => apply wp_modifyStats
  | |- wp (modifyChildStats _) _ _ => apply wp_modifyChildStats
  | |- wp getStats _ _ => apply wp_getStats
  | |- wp getChildStats _ _ => apply wp_getChildStats
  | |- wp (readBackend _) _ _ => apply wp_readBackend
  end; cbv beta iota.

Ltac wp_steps := repeat wp_step.

(** Steps of a run whatever the backend answers. *)
Ltac wp_any :=
  repeat first
    [ wp_step
    | apply wp_await; intros ? [?|] _; cbv beta iota ].

(** The calls of a trace, kind by kind. *)
Lemma calls_by_kind calls :
  length calls = creates calls + updates calls + deletes calls.
Proof.
  induction calls as [|[] calls IH]; [done|..];
    unfold creates, updates, deletes in *; simpl; lia.
Qed.

Lemma creates_app calls1 calls2 :
  creates (calls1 ++ calls2) = creates calls1 + creates calls2.
Proof. apply sum_list_with_app. Qed.

Lemma updates_app calls1 calls2 :
  updates (calls1 ++ calls2) = updates calls1 + updates calls2.
Proof. apply sum_list_with_app. Qed.

Lemma deletes_app calls1 calls2 :
  deletes (calls1 ++ calls2) = deletes calls1 + deletes calls2.
Proof. apply sum_list_with_app. Qed.

(** Normalises the backend calls of a concatenated trace. *)
Ltac calls :=
  repeat first
    [ rewrite apiCalls_app
    | rewrite apiCalls_cons
    | rewrite apiCalls_nil
    | match goal with
      | H : quiet ?evs |- context [apiCalls ?evs] => rewrite H
      end ];
  cbn [app].

(** * [syncChildren] *)

Section ChildrenFacts.

Context {B E : Type}.
Variable roamApi : RoamApiAdapter B E.
Variable this : ChildrenReconciler.

Local Abbreviation cfg := (cr_config this).

Lemma partition_fold_NoDup existingChildren acc :
  NoDup (JsMap.keys acc.1) ->
  NoDup (JsMap.keys (fold_left (partitionStep cfg) existingChildren acc).1).
Proof.
  revert acc. induction existingChildren as [|child l IH]; intros acc Hnd;
    [done|].
  cbn [fold_left]. apply IH. unfold partitionStep. destruct acc as [m sp].
  destruct (truthy _); [|by destruct (optCall _ _)].
  by apply JsMapFacts.NoDup_keys_set.
Qed.

Lemma partitionExisting_NoDup existingChildren :
  NoDup (JsMap.keys (partitionExisting cfg existingChildren).1).
Proof. apply partition_fold_NoDup. constructor. Qed.

Hypothesis Hres : resolves roamApi.

Lemma wp_deleteSpecials specials h (Q : _ -> _ -> _ -> Prop) :
  (forall h' evs,
     apiCalls evs = map (fun n => DeleteBlock (node_uid n)) specials ->
     h_stats h' = h_stats h ->
     c_skipped (h_childStats h') = c_skipped (h_childStats h) ->
     c_updated (h_childStats h') = c_updated (h_childStats h) ->
     c_created (h_childStats h') = c_created (h_childStats h) ->
     c_deleted (h_childStats h')
       = c_deleted (h_childStats h) + length specials ->
     Q h' evs (inr tt)) ->
  wp (forOf (deleteSpecial roamApi this) tt specials) h Q.
Proof.
  revert h Q. induction specials as [|s specials IH]; intros h Q HQ.
  - apply wp_ret. apply HQ; simpl; auto.
  - cbn [forOf]. unfold deleteSpecial at 1. wp_steps.
    apply wp_await_resolves; [done|]. cbv beta iota. wp_steps.
    apply IH. intros h' evs' Hc Hs H1 H2 H3 H4. simpl in *.
    apply HQ; try done.
    + calls. by rewrite Hc.
    + lia.
Qed.

(** A desired child with a key: it is skipped, updated or created, and its
    key leaves the map. *)
Lemma wp_syncChild_keyed parentUid st newChild key h
    (Q : _ -> _ -> _ -> Prop) :
  keyOf this (bp_text newChild) = Some key ->
  (forall h' evs st',
     existingPropsMap st' = JsMap.delete key (existingPropsMap st) ->
     existingSpecialBlocks st' = existingSpecialBlocks st ->
     h_stats h' = h_stats h ->
     c_deleted (h_childStats h') = c_deleted (h_childStats h) ->
     c_created (h_childStats h') + c_updated (h_childStats h')
       + c_skipped (h_childStats h')
       = S (c_created (h_childStats h) + c_updated (h_childStats h)
            + c_skipped (h_childStats h)) ->
     (JsMap.get key (existingPropsMap st) = None ->
      apiCalls evs = [CreateBlock parentUid newChild OrderLast] /\
      c_created (h_childStats h') = S (c_created (h_childStats h))) ->
     Q h' evs (inr st')) ->
  wp (syncChild roamApi this parentUid st newChild) h Q.
Proof.
  intros Hkey HQ. unfold syncChild. unfold keyOf in Hkey. rewrite Hkey.
  destruct (JsMap.get key (existingPropsMap st)) as [existing|] eqn:Hget.
  - destruct (String.eqb (node_text existing) (bp_text newChild)).
    + wp_steps. apply HQ; simpl; try done; lia.
    + wp_steps. apply wp_await_resolves; [done|]. cbv beta iota. wp_steps.
      apply HQ; simpl; try done; lia.
  - wp_steps. apply wp_await_resolves; [done|]. cbv beta iota. wp_steps.
    apply HQ; simpl; try done.
    + by rewrite JsMapFacts.get_delete_None.
    + intros _. split; [|done]. by calls.
Qed.

(** The second loop over desired children that all have a key. *)
Lemma wp_syncChild_loop parentUid newChildren : forall st h
    (Q : _ -> _ -> _ -> Prop),
  Forall (fun c => is_Some (keyOf this (bp_text c))) newChildren ->
  NoDup (JsMap.keys (existingPropsMap st)) ->
  (forall h' evs st',
     existingPropsMap st'
       = filter (fun kv => kv.1 ∉ desiredKeys this newChildren)
           (existingPropsMap st) ->
     h_stats h' = h_stats h ->
     c_deleted (h_childStats h') = c_deleted (h_childStats h) ->
     c_created (h_childStats h') + c_updated (h_childStats h')
       + c_skipped (h_childStats h')
       = length newChildren
         + (c_created (h_childStats h) + c_updated (h_childStats h)
            + c_skipped (h_childStats h)) ->
     Q h' evs (inr st')) ->
  wp (forOf (syncChild roamApi this parentUid) st newChildren) h Q.
Proof.
  induction newChildren as [|c cs IH]; intros st h Q Hkeys Hnd HQ.
  - apply wp_ret. apply HQ; try done.
    symmetry. apply JsMapFacts.filter_all, Forall_forall.
    intros kv _. unfold desiredKeys. simpl. apply not_elem_of_nil.
  - apply Forall_cons in Hkeys as [[key Hkey] Hkeys].
    cbn [forOf]. apply wp_bind.
    apply (wp_syncChild_keyed _ _ _ key); [done|].
    intros h1 ev1 st1 Hmap Hsp Hst Hdel Hsum _.
    apply IH; [done| |].
    { rewrite Hmap. by apply JsMapFacts.NoDup_keys_delete. }
    intros h2 ev2 st2 Hmap2 Hst2 Hdel2 Hsum2.
    apply HQ; [|congruence|congruence|simpl; lia].
    rewrite Hmap2, Hmap, JsMapFacts.delete_filter by done.
    rewrite list_filter_filter. apply list_filter_iff.
    intros [k v]. unfold desiredKeys. cbn [omap list_omap].
    rewrite Hkey. simpl. rewrite not_elem_of_cons. tauto.
Qed.

(** The third loop: every entry left in the map is deleted. *)
Lemma wp_deleteOrphan_loop entries : forall n h (Q : _ -> _ -> _ -> Prop),
  (forall h' evs n',
     apiCalls evs = map (fun kv => DeleteBlock (node_uid kv.2)) entries ->
     h_stats h' = h_stats h ->
     c_skipped (h_childStats h') = c_skipped (h_childStats h) ->
     c_updated (h_childStats h') = c_updated (h_childStats h) ->
     c_created (h_childStats h') = c_created (h_childStats h) ->
     c_deleted (h_childStats h')
       = c_deleted (h_childStats h) + length entries ->
     Q h' evs (inr n')) ->
  wp (forOf (deleteOrphan roamApi this) n entries) h Q.
Proof.
  induction entries as [|[key orphanBlock] entries IH]; intros n h Q HQ.
  - apply wp_ret. apply HQ; simpl; auto.
  - cbn [forOf]. unfold deleteOrphan at 1. wp_steps.
    apply wp_await_resolves; [done|]. cbv beta iota. wp_steps.
    apply IH. intros h' evs' n' Hc Hs H1 H2 H3 H4. simpl in *.
    apply HQ; try done.
    + calls. by rewrite Hc.
    + lia.
Qed.

Lemma wp_exists {A : Type} (m : M B E A) h (Q : _ -> _ -> _ -> Prop) :
  wp m h Q -> exists h' evs r, m h = (h', evs, r) /\ Q h' evs r.
Proof.
  intros HQ. destruct (m h) as [[h' evs] r] eqn:Hm.
  exists h', evs, r. split; [done|]. by eapply wp_run.
Qed.


End ChildrenFacts.

(** ** [syncChildren] on concrete children *)

Module ChildrenExamples.
Import Examples.


End ChildrenExamples.

(** ** Faithful traces *)

Section PerformedFacts.

Context {B E : Type}.
Variable roamApi : RoamApiAdapter B E.

Lemma Performed_app b ev1 b1 ev2 b2 r :
  Performed roamApi b ev1 b1 None -> Performed roamApi b1 ev2 b2 r ->
  Performed roamApi b (ev1 ++ ev2) b2 r.
Proof.
  intros H1 H2. remember None as r1 eqn:Hr1.
  induction H1 as [b|b ev evs b' r' Hq H IH|b c b' e Hp
                  |b c b1' evs b' r' Hp H IH]; simpl.
  - done.
  - apply Performed_quiet; auto.
  - done.
  - eapply Performed_resolved; eauto.
Qed.

Lemma Performed_quiet_all b evs : quiet evs -> Performed roamApi b evs b None.
Proof.
  induction evs as [|ev evs IH]; intros Hq; [constructor|].
  unfold quiet in Hq. rewrite apiCalls_cons in Hq.
  destruct ev; try done; (apply Performed_quiet; [done|by apply IH]).
Qed.

(** A failed run ends with the call that was rejected; the calls before
    it all resolved. *)
Lemma Performed_rejected_inv b evs b' e :
  Performed roamApi b evs b' (Some e) ->
  exists pre c b1,
    evs = pre ++ [Api c] /\
    Performed roamApi b pre b1 None /\
    perform roamApi c b1 = (b', Some e).
Proof.
  intros H. remember (Some e) as r eqn:Hr.
  induction H as [b|b ev evs b' r' Hq H IH|b c b' e' Hp
                 |b c b1' evs b' r' Hp H IH]; [done| | |].
  - destruct (IH Hr) as (pre & c & b1 & -> & Hpre & Hp).
    exists (ev :: pre), c, b1. split_and!; [done| |done].
    by apply Performed_quiet.
  - injection Hr as ->. exists [], c, b. split_and!; [done|constructor|done].
  - destruct (IH Hr) as (pre & c' & b1 & -> & Hpre & Hp').
    exists (Api c :: pre), c', b1. split_and!; [done| |done].
    by eapply Performed_resolved.
Qed.

End PerformedFacts.

(** ** Sound computations *)

Section Sound.

Context {B E : Type}.
Variable roamApi : RoamApiAdapter B E.
Variable P : Call -> Prop.
Variable R : Heap B -> Heap B -> Prop.
Hypothesis HR : Frame R.

Local Abbreviation sound := (sound roamApi P R).

Lemma sound_ret {A : Type} (Post : A -> Prop) a : Post a -> sound Post (ret a).
Proof.
  intros HPost h. apply wp_ret. split_and!.
  - constructor.
  - apply HR.
  - constructor.
  - by intros ? [= <-].
Qed.

Lemma sound_bind {A C : Type} (PostA : A -> Prop) (PostC : C -> Prop)
    (m : M B E A) (k : A -> M B E C) :
  sound PostA m -> (forall a, PostA a -> sound PostC (k a)) ->
  sound PostC (bind m k).
Proof.
  intros Hm Hk h. apply wp_bind. eapply wp_mono; [apply Hm|].
  intros h1 ev1 [e|a] (HP1 & HR1 & Hrun1 & Hpost1).
  - split_and!; try done.
  - eapply wp_mono; [apply (Hk a); by apply Hpost1|].
    intros h2 ev2 r2 (HP2 & HR2 & Hrun2 & Hpost2). split_and!.
    + rewrite apiCalls_app. by apply Forall_app.
    + by eapply (frame_trans R HR).
    + by eapply Performed_app.
    + done.
Qed.

Lemma sound_quiet_event ev : quiet [ev] -> sound (fun _ => True) (emit ev).
Proof.
  intros Hq h. apply wp_emit. split_and!.
  - rewrite Hq. constructor.
  - apply HR.
  - apply Performed_quiet; [done|constructor].
  - done.
Qed.

Lemma sound_debug present event : sound (fun _ => True) (debug present event).
Proof.
  destruct present; [by apply sound_quiet_event|by apply sound_ret].
Qed.

Lemma sound_delay ms : sound (fun _ => True) (delay ms).
Proof. by apply sound_quiet_event. Qed.

Lemma sound_maybeYield n batch : sound (fun _ => True) (maybeYield n batch).
Proof.
  unfold maybeYield. destruct (Nat.eqb _ _);
    [by apply sound_quiet_event|by apply sound_ret].
Qed.

Lemma sound_await c : P c -> sound (fun _ => True) (await roamApi c).
Proof.
  intros HP h. apply wp_await. intros b' r Hp. split_and!.
  - rewrite apiCalls_cons, apiCalls_nil. by constructor.
  - apply HR.
  - simpl. destruct r as [e|]; simpl.
    + by apply Performed_rejected.
    + eapply Performed_resolved; [done|constructor].
  - done.
Qed.

Lemma sound_modifyStats f :
  (forall h, R h (mkHeap (h_backend h) (f (h_stats h)) (h_childStats h))) ->
  sound (fun _ => True) (modifyStats f).
Proof.
  intros Hf h. apply wp_modifyStats. split_and!;
    [constructor|apply Hf|constructor|done].
Qed.

Lemma sound_modifyChildStats f :
  (forall h, R h (mkHeap (h_backend h) (h_stats h) (f (h_childStats h)))) ->
  sound (fun _ => True) (modifyChildStats f).
Proof.
  intros Hf h. apply wp_modifyChildStats. split_and!;
    [constructor|apply Hf|constructor|done].
Qed.

Lemma sound_getStats : sound (fun _ => True) getStats.
Proof.
  intros h. apply wp_getStats. split_and!;
    [constructor|apply HR|constructor|done].
Qed.

Lemma sound_getChildStats : sound (fun _ => True) getChildStats.
Proof.
  intros h. apply wp_getChildStats. split_and!;
    [constructor|apply HR|constructor|done].
Qed.

Lemma sound_readBackend {A : Type} (f : B -> A) :
  sound (fun _ => True) (readBackend f).
Proof.
  intros h. apply wp_readBackend. split_and!;
    [constructor|apply HR|constructor|done].
Qed.

Lemma sound_post {A : Type} (Post Post' : A -> Prop) (m : M B E A) :
  sound Post m -> (forall a, Post a -> Post' a) -> sound Post' m.
Proof.
  intros Hm Himp h. eapply wp_mono; [apply Hm|].
  intros h' evs r (? & ? & ? & Hpost). split_and!; try done.
  intros a Ha. by apply Himp, Hpost.
Qed.

(** A loop whose body keeps an invariant of the loop-carried locals. *)
Lemma sound_forOf {A S : Type} (Inv : S -> Prop) (body : S -> A -> M B E S)
    xs :
  (forall s x, Inv s -> x ∈ xs -> sound Inv (body s x)) ->
  forall s, Inv s -> sound Inv (forOf body s xs).
Proof.
  induction xs as [|x xs IH]; intros Hbody s Hs.
  - by apply sound_ret.
  - cbn [forOf]. eapply sound_bind.
    + apply Hbody; [done|by left].
    + intros s' Hs'. apply IH; [|done].
      intros s0 x0 ? ?. apply Hbody; [done|by right].
Qed.

End Sound.

Lemma sound_mono {B E A : Type} (api : RoamApiAdapter B E)
    (P P' : Call -> Prop) (R R' : Heap B -> Heap B -> Prop)
    (Post : A -> Prop) (m : M B E A) :
  sound api P R Post m ->
  (forall c, P c -> P' c) -> (forall h h', R h h' -> R' h h') ->
  sound api P' R' Post m.
Proof.
  intros Hm HP HRR h. eapply wp_mono; [apply Hm|].
  intros h' evs r (Hcalls & ? & ? & ?). split_and!; try done; [|by auto].
  eapply Forall_impl; [done|]. auto.
Qed.

(** ** Every run of [syncChildren] *)

Lemma childKeeps_refl s : childKeeps s s.
Proof. unfold childKeeps. lia. Qed.

Lemma childKeeps_trans s1 s2 s3 :
  childKeeps s1 s2 -> childKeeps s2 s3 -> childKeeps s1 s3.
Proof. unfold childKeeps. lia. Qed.

Lemma sameStats_Frame {B : Type} : Frame (@sameStats B).
Proof. split; unfold sameStats; [done|congruence|done]. Qed.

Lemma childFrame_Frame {B : Type} : Frame (@childFrame B).
Proof.
  split; unfold childFrame.
  - intros h. split; [done|apply childKeeps_refl].
  - intros h1 h2 h3 [? ?] [? ?]. split; [congruence|].
    by eapply childKeeps_trans.
  - intros h b'. split; [done|apply childKeeps_refl].
Qed.

Lemma In_set_inv {V : Type} k v k0 v0 (m : list (string * V)) :
  (k, v) ∈ JsMap.set k0 v0 m -> (k, v) = (k0, v0) \/ (k, v) ∈ m.
Proof.
  induction m as [|[k1 v1] m IH]; simpl.
  - intros Hin. apply list_elem_of_singleton in Hin as ->. by left.
  - destruct (String.eqb k1 k0) eqn:Hk.
    + apply String.eqb_eq in Hk. subst k1.
      intros [->|Hin]%elem_of_cons; [by left|]. right. by right.
    + intros [->|Hin]%elem_of_cons; [right; by left|].
      destruct (IH Hin) as [?|?]; [by left|right; by right].
Qed.

Lemma In_delete_inv {V : Type} k v k0 (m : list (string * V)) :
  (k, v) ∈ JsMap.delete k0 m -> (k, v) ∈ m.
Proof.
  induction m as [|[k1 v1] m IH]; simpl; [done|].
  destruct (String.eqb k1 k0).
  - intros ?. by right.
  - intros [->|Hin]%elem_of_cons; [by left|]. right. by apply IH.
Qed.

Section ChildrenSound.

Context {B E : Type}.
Variable roamApi : RoamApiAdapter B E.
Variable this : ChildrenReconciler.
Variable parentUid : string.
Variable existingChildren : list RoamNode.

Local Abbreviation P := (childCall this parentUid existingChildren).
Local Abbreviation Inv := (childInv this existingChildren).
Local Abbreviation sound := (sound roamApi P childFrame).

Lemma partition_fold_childInv l acc :
  (forall n, n ∈ l -> n ∈ existingChildren) ->
  Inv (mkChildLoop acc.1 acc.2 0) ->
  Inv (mkChildLoop (fold_left (partitionStep (cr_config this)) l acc).1
         (fold_left (partitionStep (cr_config this)) l acc).2 0).
Proof.
  revert acc. induction l as [|child l IH]; intros acc Hl Hacc; [done|].
  cbn [fold_left]. apply IH; [intros n Hn; apply Hl; by right|].
  assert (Hchild : child ∈ existingChildren) by (apply Hl; by left).
  destruct acc as [m sp]. destruct Hacc as [Hm Hsp]. simpl in *.
  unfold partitionStep.
  destruct (truthy (extractKey (cr_config this) (node_text child)))
    as [key|] eqn:Hkey.
  - split; simpl; [|done]. intros k n [Heq|Hin]%In_set_inv; [|by auto].
    by injection Heq as -> ->.
  - destruct (optCall _ _) eqn:Hsp'; split; simpl; try done.
    intros n [Hin|Hin]%elem_of_app; [auto|].
    apply list_elem_of_singleton in Hin as ->. by split.
Qed.

Lemma partitionExisting_childInv :
  Inv (mkChildLoop (partitionExisting (cr_config this) existingChildren).1
         (partitionExisting (cr_config this) existingChildren).2 0).
Proof.
  apply partition_fold_childInv; [done|].
  split; simpl; intros *; by intros ?%elem_of_nil.
Qed.

Lemma childFrame_modify (f : ChildSyncStats -> ChildSyncStats) :
  (forall s, childKeeps s (f s)) ->
  forall h : Heap B,
    childFrame h (mkHeap (h_backend h) (h_stats h) (f (h_childStats h))).
Proof. intros Hf h. split; [done|apply Hf]. Qed.

Lemma sound_incChild (f : ChildSyncStats -> ChildSyncStats) :
  (forall s, childKeeps s (f s)) ->
  sound (fun _ => True) (modifyChildStats f).
Proof. intros Hf. apply sound_modifyChildStats. by apply childFrame_modify. Qed.

Lemma keeps_incChildSkipped s : childKeeps s (incChildSkipped s).
Proof. unfold childKeeps. simpl. lia. Qed.
Lemma keeps_incChildUpdated s : childKeeps s (incChildUpdated s).
Proof. unfold childKeeps. simpl. lia. Qed.
Lemma keeps_incChildCreated s : childKeeps s (incChildCreated s).
Proof. unfold childKeeps. simpl. lia. Qed.
Lemma keeps_incChildDeleted s : childKeeps s (incChildDeleted s).
Proof. unfold childKeeps. simpl. lia. Qed.

(** Chains of steps that return nothing of interest. *)
Ltac sound_seq :=
  repeat first
    [ apply (sound_bind roamApi _ _ childFrame_Frame (fun _ => True));
      [|intros ? _]
    | apply sound_debug; apply childFrame_Frame
    | apply sound_delay; apply childFrame_Frame
    | apply sound_maybeYield; apply childFrame_Frame
    | apply sound_incChild;
      first [ apply keeps_incChildSkipped | apply keeps_incChildUpdated
            | apply keeps_incChildCreated | apply keeps_incChildDeleted ]
    | apply sound_await; [apply childFrame_Frame|] ].

Lemma sound_deleteSpecial specialBlock :
  specialBlock ∈ existingChildren -> special this specialBlock ->
  sound (fun _ => True) (deleteSpecial roamApi this tt specialBlock).
Proof.
  intros Hin Hsp. unfold deleteSpecial. sound_seq.
  exists specialBlock. split_and!; [done..|by right].
Qed.

Lemma sound_syncChild st newChild :
  Inv st -> sound Inv (syncChild roamApi this parentUid st newChild).
Proof.
  intros [Hm Hsp]. unfold syncChild.
  apply (sound_bind roamApi _ _ childFrame_Frame Inv).
  2:{ intros st' Hst'. sound_seq.
      apply sound_ret; [apply childFrame_Frame|]. by destruct Hst'. }
  destruct (truthy (extractKey (cr_config this) (bp_text newChild)))
    as [key|] eqn:Hkey.
  - destruct (JsMap.get key (existingPropsMap st)) as [existing|] eqn:Hget.
    + apply JsMapFacts.get_Some_In, list_elem_of_In, Hm in Hget
        as [Hin Hk].
      apply (sound_bind roamApi _ _ childFrame_Frame (fun _ => True)).
      * destruct (String.eqb _ _); sound_seq.
        exists existing. split_and!; [done..|]. unfold keyed. by rewrite Hk.
      * intros _ _. apply sound_ret; [apply childFrame_Frame|].
        split; simpl; [|done]. intros k n Hkn%In_delete_inv. auto.
    + sound_seq; [done|]. by apply sound_ret; [apply childFrame_Frame|].
  - destruct (optCall _ _); [|by apply sound_ret; [apply childFrame_Frame|]].
    sound_seq.
    + eapply sound_post.
      * apply (sound_forOf roamApi _ _ childFrame_Frame (fun _ => True));
          [|done].
        intros [] sb _ Hsb. destruct (Hsp sb Hsb).
        by apply sound_deleteSpecial.
      * done.
    + done.
    + apply sound_ret; [apply childFrame_Frame|].
      split; simpl; [done|]. intros n. by intros ?%elem_of_nil.
Qed.

Lemma sound_deleteOrphan n key orphanBlock :
  orphanBlock ∈ existingChildren -> keyed this orphanBlock ->
  sound (fun _ => True) (deleteOrphan roamApi this n (key, orphanBlock)).
Proof.
  intros Hin Hk. unfold deleteOrphan. sound_seq.
  - exists orphanBlock. split_and!; [done..|by left].
  - by apply sound_ret; [apply childFrame_Frame|].
Qed.

(** The part of [syncChildren] that follows the allocation of [stats]. *)
Lemma sound_syncChildren_loops st newChildren :
  Inv st ->
  sound (fun _ => True)
    (st' <- forOf (syncChild roamApi this parentUid) st newChildren ;;
     forOf (deleteOrphan roamApi this) (cl_operationCount st')
       (JsMap.entries (existingPropsMap st')) ;;
     debug (cr_logger this) "children_reconciler_complete" ;;
     getChildStats).
Proof.
  intros Hst. apply (sound_bind roamApi _ _ childFrame_Frame Inv).
  - apply (sound_forOf roamApi _ _ childFrame_Frame); [|done].
    intros s x Hs _. by apply sound_syncChild.
  - intros st' [Hm _]. sound_seq.
    + eapply sound_post.
      * apply (sound_forOf roamApi _ _ childFrame_Frame (fun _ => True));
          [|done].
        intros n [k orphan] _ Hin. destruct (Hm k orphan Hin) as [? Hk].
        apply sound_deleteOrphan; [done|]. unfold keyed. by rewrite Hk.
      * done.
    + apply sound_getChildStats, childFrame_Frame.
Qed.

End ChildrenSound.

(** Every run of [syncChildren], whatever the backend answers: the
    statistics of an enclosing [reconcile] are untouched, the calls are
    those of [childCall], and the trace is faithful. *)
Lemma sound_syncChildren {B E : Type} (roamApi : RoamApiAdapter B E) this
    parentUid existingChildren newChildren :
  sound roamApi (childCall this parentUid existingChildren) sameStats
    (fun _ => True)
    (syncChildren roamApi this parentUid existingChildren newChildren).
Proof.
  unfold syncChildren.
  pose proof (partitionExisting_childInv this existingChildren) as Hinv.
  destruct (partitionExisting (cr_config this) existingChildren)
    as [propsMap specialBlocks].
  apply (sound_bind roamApi _ _ sameStats_Frame (fun _ => True)).
  { by apply sound_modifyChildStats. }
  intros _ _. apply (sound_bind roamApi _ _ sameStats_Frame (fun _ => True)).
  { apply sound_debug, sameStats_Frame. }
  intros _ _. eapply sound_mono.
  - by apply sound_syncChildren_loops.
  - done.
  - by intros h h' [? _].
Qed.

(** * [reconcile] *)

(** ** Structural equality *)

Lemma childrenUnchanged_loop existingChildren newChildren :
  (fix loop (existingChildren : list RoamNode)
       (newChildren : list BlockPayload) {struct existingChildren} : bool :=
     match existingChildren, newChildren with
     | existingChild :: es, newChild :: ns =>
         if negb (isChildUnchanged existingChild newChild) then false
         else loop es ns
     | _, _ => true
     end) existingChildren newChildren
  = childrenUnchanged existingChildren newChildren.
Proof.
  revert newChildren.
  induction existingChildren as [|e es IH]; intros [|n ns]; simpl;
    try done; by rewrite IH.
Qed.

(** [isChildUnchanged] with [existing.children ?? []] folded back: the
    body of the source function. *)
Lemma isChildUnchanged_unfold existing newChild :
  isChildUnchanged existing newChild =
    if negb (String.eqb (node_text existing) (bp_text newChild)) then false
    else
      let existingChildren := orEmpty (node_children existing) in
      let newChildren := orEmpty (bp_children newChild) in
      if negb (Nat.eqb (length existingChildren) (length newChildren))
      then false
      else childrenUnchanged existingChildren newChildren.
Proof.
  destruct existing as [t u [cs|]]; simpl.
  - destruct (negb (String.eqb t (bp_text newChild))); [done|].
    destruct (negb (Nat.eqb _ _)); [done|]. apply childrenUnchanged_loop.
  - destruct (negb (String.eqb t (bp_text newChild))); [done|].
    by destruct (length (orEmpty (bp_children newChild))).
Qed.

Lemma isUnchanged_isChildUnchanged existing newBlock :
  isUnchanged existing newBlock = isChildUnchanged existing newBlock.
Proof. by rewrite isChildUnchanged_unfold. Qed.

Lemma childrenUnchanged_lookup es ns :
  length es = length ns ->
  childrenUnchanged es ns = true <->
  forall i e c, es !! i = Some e -> ns !! i = Some c ->
                isChildUnchanged e c = true.
Proof.
  revert ns. induction es as [|e es IH]; intros [|n ns] Hlen; try done.
  simpl in Hlen. injection Hlen as Hlen. cbn [childrenUnchanged].
  destruct (isChildUnchanged e n) eqn:Hen; simpl.
  - rewrite IH by done. split.
    + intros H [|i] e' c'; simpl; [by intros [= <-] [= <-]|apply H].
    + intros H i e' c'. apply (H (S i)).
  - split; [done|]. intros H. specialize (H 0 e n eq_refl eq_refl).
    congruence.
Qed.

Lemma isChildUnchanged_structurallyEqual existing :
  forall payload,
    isChildUnchanged existing payload = true <->
    structurallyEqual existing payload.
Proof.
  induction existing as [t u cs IH] using RoamNode_ind. intros payload.
  rewrite isChildUnchanged_unfold. cbn [node_text node_children].
  destruct (String.eqb t (bp_text payload)) eqn:Ht; simpl.
  - apply String.eqb_eq in Ht.
    destruct (Nat.eqb (length (orEmpty cs))
                (length (orEmpty (bp_children payload)))) eqn:Hlen; simpl.
    + apply Nat.eqb_eq in Hlen. rewrite childrenUnchanged_lookup by done.
      split.
      * intros H. constructor; [done..|]. simpl. intros i e c He Hc.
        rewrite Forall_lookup in IH. apply (IH i e He). by eapply H.
      * intros H. inversion H as [? ? _ _ Hkids]; subst. simpl in *.
        intros i e c He Hc. rewrite Forall_lookup in IH.
        apply (IH i e He). by eapply Hkids.
    + apply Nat.eqb_neq in Hlen. split; [done|].
      intros H. by inversion H.
  - apply String.eqb_neq in Ht. split; [done|]. intros H. by inversion H.
Qed.

Lemma isUnchanged_structurallyEqual existing newBlock :
  isUnchanged existing newBlock = true <->
  structurallyEqual existing newBlock.
Proof.
  rewrite isUnchanged_isChildUnchanged.
  apply isChildUnchanged_structurallyEqual.
Qed.

(** ** The identifier map *)

Section ExistingMap.

Context {T : Type}.
Variable config : ReconcilerConfig T.

Local Abbreviation step :=
  (fun (map : JsMap.t RoamNode) node =>
     match truthy (extractIdFromBlock config node) with
     | Some id => JsMap.set id node map
     | None => map
     end).

Lemma existingMap_fold_NoDup nodes (acc : JsMap.t RoamNode) :
  NoDup (JsMap.keys acc) -> NoDup (JsMap.keys (fold_left step nodes acc)).
Proof.
  revert acc. induction nodes as [|node nodes IH]; intros acc Hnd; [done|].
  cbn [fold_left]. apply IH. destruct (truthy _); [|done].
  by apply JsMapFacts.NoDup_keys_set.
Qed.

Lemma existingMapOf_NoDup nodes : NoDup (JsMap.keys (existingMapOf config nodes)).
Proof. apply existingMap_fold_NoDup. constructor. Qed.

Lemma existingMap_fold_In nodes (all : list RoamNode)
    (acc : JsMap.t RoamNode) :
  (forall n, n ∈ nodes -> n ∈ all) ->
  (forall k n, (k, n) ∈ acc ->
     n ∈ all /\ truthy (extractIdFromBlock config n) = Some k) ->
  forall k n, (k, n) ∈ fold_left step nodes acc ->
    n ∈ all /\ truthy (extractIdFromBlock config n) = Some k.
Proof.
  revert acc. induction nodes as [|node nodes IH]; intros acc Hall Hacc;
    [done|].
  cbn [fold_left]. apply IH; [intros n Hn; apply Hall; by right|].
  destruct (truthy (extractIdFromBlock config node)) as [id|] eqn:Hid;
    [|done].
  intros k n [Heq|Hin]%In_set_inv; [|by auto].
  injection Heq as -> ->. split; [apply Hall; by left|done].
Qed.

(** An entry of the identifier map is a fetched node under its truthy
    identifier. *)
Lemma existingMapOf_In nodes k n :
  (k, n) ∈ existingMapOf config nodes ->
  n ∈ nodes /\ truthy (extractIdFromBlock config n) = Some k.
Proof.
  apply existingMap_fold_In; [done|]. intros k' n'. by intros ?%elem_of_nil.
Qed.

End ExistingMap.

(** ** Every run of [reconcile] *)

Lemma statsKept_refl s : statsKept s s.
Proof. unfold statsKept. lia. Qed.

Lemma statsKept_trans s1 s2 s3 :
  statsKept s1 s2 -> statsKept s2 s3 -> statsKept s1 s3.
Proof. unfold statsKept. intros (?&?&?&?) (?&?&?&?). split_and!; lia. Qed.

Lemma topFrame_Frame {B : Type} : Frame (@topFrame B).
Proof.
  split; unfold topFrame.
  - intros h. apply statsKept_refl.
  - intros h1 h2 h3. apply statsKept_trans.
  - intros h b'. apply statsKept_refl.
Qed.

Lemma sameStats_topFrame {B : Type} (h h' : Heap B) :
  sameStats h h' -> topFrame h h'.
Proof. unfold sameStats, topFrame. intros ->. apply statsKept_refl. Qed.

Section TopSound.

Context {B E T : Type}.
Variable roamApi : RoamApiAdapter B E.
Variable this : BlockReconciler T.
Variable parentUid : string.
Variable existingNodes : list RoamNode.

Local Abbreviation config := (br_config this).

Lemma wp_buildExistingMap_from nodes : forall (map : JsMap.t RoamNode)
    (h : Heap B) (Q : Heap B -> list Event -> E + JsMap.t RoamNode -> Prop),
  (forall evs, quiet evs ->
     Q h evs
       (inr (fold_left
               (fun (map : JsMap.t RoamNode) node =>
                  match truthy (extractIdFromBlock config node) with
                  | Some id => JsMap.set id node map
                  | None => map
                  end) nodes map))) ->
  wp (forOf (mapEntry (B:=B) (E:=E) this) map nodes) h Q.
Proof.
  induction nodes as [|node nodes IH]; intros map h Q HQ.
  - apply wp_ret. apply HQ. done.
  - cbn [forOf]. cbn [fold_left] in HQ. unfold mapEntry at 1. revert HQ.
    destruct (truthy (extractIdFromBlock config node)) as [id|]; intros HQ;
      wp_steps.
    + apply IH. intros evs' Hq'. apply HQ. auto with quiet.
    + apply IH. intros evs' Hq'. by apply HQ.
Qed.

(** [buildExistingMap] computes [existingMapOf] and only logs. *)
Lemma wp_buildExistingMap nodes (h : Heap B)
    (Q : Heap B -> list Event -> E + JsMap.t RoamNode -> Prop) :
  (forall evs, quiet evs -> Q h evs (inr (existingMapOf config nodes))) ->
  wp (buildExistingMap (B:=B) (E:=E) this nodes) h Q.
Proof. apply wp_buildExistingMap_from. Qed.

Lemma wp_maybeYieldToMain n (h : Heap B)
    (Q : Heap B -> list Event -> E + unit -> Prop) :
  (forall evs, quiet evs -> Q h evs (inr tt)) ->
  wp (maybeYieldToMain (B:=B) (E:=E) this n) h Q.
Proof.
  intros HQ. unfold maybeYieldToMain.
  destruct (Nat.eqb _ _); by apply HQ.
Qed.

Lemma wp_reportProgress (h : Heap B)
    (Q : Heap B -> list Event -> E + unit -> Prop) :
  (forall evs, quiet evs -> Q h evs (inr tt)) ->
  wp (reportProgress (B:=B) (E:=E) this) h Q.
Proof.
  intros HQ. unfold reportProgress.
  destruct (options config) as [o|]; [|by apply HQ].
  destruct (onProgress o); [|by apply HQ].
  wp_steps. by apply HQ.
Qed.

Lemma sound_quiet_step (P : Call -> Prop) (R : Heap B -> Heap B -> Prop)
    (m : M B E unit) :
  Frame R ->
  (forall h (Q : Heap B -> list Event -> E + unit -> Prop),
     (forall evs, quiet evs -> Q h evs (inr tt)) -> wp m h Q) ->
  sound roamApi P R (fun _ => True) m.
Proof.
  intros HR Hm h. apply Hm. intros evs Hq. split_and!.
  - rewrite Hq. constructor.
  - apply HR.
  - by apply Performed_quiet_all.
  - done.
Qed.

Lemma sound_maybeYieldToMain (P : Call -> Prop)
    (R : Heap B -> Heap B -> Prop) n :
  Frame R -> sound roamApi P R (fun _ => True) (maybeYieldToMain this n).
Proof. intros HR. apply sound_quiet_step; [done|]. apply wp_maybeYieldToMain. Qed.

Lemma sound_reportProgress (P : Call -> Prop)
    (R : Heap B -> Heap B -> Prop) :
  Frame R -> sound roamApi P R (fun _ => True) (reportProgress this).
Proof. intros HR. apply sound_quiet_step; [done|]. apply wp_reportProgress. Qed.

Local Abbreviation P := (topCall this parentUid existingNodes).
Local Abbreviation PI := (itemCall this parentUid existingNodes).

Lemma itemCall_topCall c : PI c -> P c.
Proof.
  intros [Hc|(n & Hn & Hmapped & [Hc|Hc])]; [by left|right; exists n..];
    (split_and!; [done..|]); [by left|by right; right].
Qed.

(** [updateExistingBlock] on a mapped node. *)
Lemma sound_updateExistingBlock existing newBlock :
  existing ∈ existingNodes -> mapped config existing ->
  sound roamApi PI sameStats (fun _ => True)
    (updateExistingBlock roamApi this existing newBlock).
Proof.
  intros Hin Hmapped. unfold updateExistingBlock.
  apply (sound_bind roamApi _ _ sameStats_Frame (fun _ => True)).
  - destruct (negb _); [|by apply sound_ret; [apply sameStats_Frame|]].
    apply (sound_bind roamApi _ _ sameStats_Frame (fun _ => True)).
    + apply sound_await; [apply sameStats_Frame|].
      right. exists existing. split_and!; [done..|]. left. by eexists.
    + intros _ _. apply sound_delay, sameStats_Frame.
  - intros _ _.
    destruct (childrenReconciler this) as [reconciler|] eqn:Hrec;
      [|by apply sound_ret; [apply sameStats_Frame|]].
    destruct (bp_children newBlock) as [newChildren|];
      [|by apply sound_ret; [apply sameStats_Frame|]].
    apply (sound_bind roamApi _ _ sameStats_Frame (fun _ => True));
      [|intros _ _; by apply sound_ret; [apply sameStats_Frame|]].
    eapply sound_mono; [apply sound_syncChildren| |done].
    intros c Hc. right. exists existing. split_and!; [done..|].
    right. by exists reconciler.
Qed.

Variable existingMap : JsMap.t RoamNode.
Hypothesis HexistingMap : forall k n, (k, n) ∈ existingMap ->
  n ∈ existingNodes /\ truthy (extractIdFromBlock config n) = Some k.

Lemma topFrame_modify (f : SyncStats -> SyncStats) :
  (forall s, statsKept s (f s)) ->
  forall h : Heap B,
    topFrame h (mkHeap (h_backend h) (f (h_stats h)) (h_childStats h)).
Proof. intros Hf h. apply Hf. Qed.

Lemma kept_incSkipped s : statsKept s (incSkipped s).
Proof. unfold statsKept. simpl. lia. Qed.
Lemma kept_incUpdated s : statsKept s (incUpdated s).
Proof. unfold statsKept. simpl. lia. Qed.
Lemma kept_incCreated s : statsKept s (incCreated s).
Proof. unfold statsKept. simpl. lia. Qed.
Lemma kept_setDeleted n s : statsKept s (setDeleted n s).
Proof. unfold statsKept. simpl. lia. Qed.

Lemma sound_reconcileItem st item :
  sound roamApi PI topFrame (fun _ => True)
    (reconcileItem roamApi this parentUid existingMap st item).
Proof.
  unfold reconcileItem.
  apply (sound_bind roamApi _ _ topFrame_Frame (fun _ => True)).
  2:{ intros _ _.
      apply (sound_bind roamApi _ _ topFrame_Frame (fun _ => True));
        [apply sound_maybeYieldToMain, topFrame_Frame|intros _ _].
      apply (sound_bind roamApi _ _ topFrame_Frame (fun _ => True));
        [apply sound_reportProgress, topFrame_Frame|intros _ _].
      by apply sound_ret; [apply topFrame_Frame|]. }
  destruct (JsMap.get _ existingMap) as [existingNode|] eqn:Hget.
  - apply JsMapFacts.get_Some_In, list_elem_of_In, HexistingMap in Hget
      as [Hin Hid].
    destruct (isUnchanged _ _).
    + apply (sound_bind roamApi _ _ topFrame_Frame (fun _ => True));
        [|intros _ _; apply sound_debug, topFrame_Frame].
      apply sound_modifyStats, topFrame_modify, kept_incSkipped.
    + apply (sound_bind roamApi _ _ topFrame_Frame (fun _ => True)).
      * eapply sound_mono;
          [apply sound_updateExistingBlock|done|apply sameStats_topFrame].
        -- done.
        -- unfold mapped. by rewrite Hid.
      * intros _ _.
        apply (sound_bind roamApi _ _ topFrame_Frame (fun _ => True));
          [|intros _ _; apply sound_debug, topFrame_Frame].
        apply sound_modifyStats, topFrame_modify, kept_incUpdated.
  - apply (sound_bind roamApi _ _ topFrame_Frame (fun _ => True)).
    + apply sound_await; [apply topFrame_Frame|]. left. by eexists.
    + intros _ _.
      apply (sound_bind roamApi _ _ topFrame_Frame (fun _ => True));
        [|intros _ _; apply sound_debug, topFrame_Frame].
      apply sound_modifyStats, topFrame_modify, kept_incCreated.
Qed.

Lemma sound_removeEntry seen st entry :
  entry ∈ existingMap ->
  sound roamApi P sameStats (fun _ => True)
    (removeEntry roamApi this seen st entry).
Proof.
  intros Hin. destruct entry as [id node]. unfold removeEntry.
  destruct (HexistingMap id node Hin) as [Hnode Hid].
  destruct (bool_decide _); [by apply sound_ret; [apply sameStats_Frame|]|].
  destruct (optCall _ _).
  { apply (sound_bind roamApi _ _ sameStats_Frame (fun _ => True));
      [apply sound_debug, sameStats_Frame|intros _ _].
    by apply sound_ret; [apply sameStats_Frame|]. }
  apply (sound_bind roamApi _ _ sameStats_Frame (fun _ => True)).
  { apply sound_await; [apply sameStats_Frame|].
    right. exists node. split_and!; [done| |by right; left].
    unfold mapped. by rewrite Hid. }
  intros _ _.
  apply (sound_bind roamApi _ _ sameStats_Frame (fun _ => True));
    [apply sound_delay, sameStats_Frame|intros _ _].
  apply (sound_bind roamApi _ _ sameStats_Frame (fun _ => True));
    [apply sound_debug, sameStats_Frame|intros _ _].
  apply (sound_bind roamApi _ _ sameStats_Frame (fun _ => True));
    [apply sound_maybeYieldToMain, sameStats_Frame|intros _ _].
  by apply sound_ret; [apply sameStats_Frame|].
Qed.

Lemma sound_removeObsolete seen :
  sound roamApi P sameStats (fun _ => True)
    (removeObsolete roamApi this existingMap seen).
Proof.
  unfold removeObsolete.
  apply (sound_bind roamApi _ _ sameStats_Frame (fun _ => True));
    [|intros ? _; by apply sound_ret; [apply sameStats_Frame|]].
  apply (sound_forOf roamApi _ _ sameStats_Frame (fun _ => True)); [|done].
  intros st entry _ Hin. by apply sound_removeEntry.
Qed.

(** What [reconcile] does once the identifier map is built. *)
Lemma sound_reconcile_loops st items :
  sound roamApi P topFrame (fun _ => True)
    (st' <- forOf (reconcileItem roamApi this parentUid existingMap) st
              items ;;
     n <- removeObsolete roamApi this existingMap (seenIds st') ;;
     modifyStats (setDeleted n) ;;
     debug (br_logger this) "reconciler_complete" ;;
     getStats).
Proof.
  apply (sound_bind roamApi _ _ topFrame_Frame (fun _ => True)).
  - eapply sound_mono; [|apply itemCall_topCall|done].
    apply (sound_forOf roamApi _ _ topFrame_Frame (fun _ => True)); [|done].
    intros s x _ _. apply sound_reconcileItem.
  - intros st' _.
    apply (sound_bind roamApi _ _ topFrame_Frame (fun _ => True)).
    + eapply sound_mono;
        [apply sound_removeObsolete|done|apply sameStats_topFrame].
    + intros n _.
      apply (sound_bind roamApi _ _ topFrame_Frame (fun _ => True)).
      * apply sound_modifyStats, topFrame_modify, kept_setDeleted.
      * intros _ _.
        apply (sound_bind roamApi _ _ topFrame_Frame (fun _ => True));
          [apply sound_debug, topFrame_Frame|intros _ _].
        eapply sound_post; [apply sound_getStats, topFrame_Frame|done].
Qed.

End TopSound.

(** ** Removal of obsolete blocks *)

Lemma NoDup_fmap_eq {A C : Type} (f : A -> C) (l : list A) x y :
  NoDup (f <$> l) -> x ∈ l -> y ∈ l -> f x = f y -> x = y.
Proof.
  induction l as [|a l IH]; [by intros _ ?%elem_of_nil|].
  rewrite fmap_cons. intros [Ha Hnd]%NoDup_cons.
  intros [->|Hx]%elem_of_cons [->|Hy]%elem_of_cons Hf; [done| | |by apply IH].
  - destruct Ha. rewrite Hf. by apply list_elem_of_fmap_2.
  - destruct Ha. rewrite <- Hf. by apply list_elem_of_fmap_2.
Qed.

Section ObsoleteFacts.

Context {B E T : Type}.
Variable roamApi : RoamApiAdapter B E.
Variable this : BlockReconciler T.
Hypothesis Hres : resolves roamApi.

Lemma wp_removeEntry_loop seen entries : forall st (h : Heap B)
    (Q : Heap B -> list Event -> E + ObsoleteLoop -> Prop),
  (forall h' evs st',
     apiCalls evs
       = (fun kv => DeleteBlock (node_uid kv.2)) <$> obsolete this entries seen ->
     deletedCount st'
       = deletedCount st + length (obsolete this entries seen) ->
     h_stats h' = h_stats h ->
     h_childStats h' = h_childStats h ->
     Q h' evs (inr st')) ->
  wp (forOf (removeEntry roamApi this seen) st entries) h Q.
Proof.
  induction entries as [|[id node] entries IH]; intros st h Q HQ.
  - apply wp_ret. apply HQ; simpl; auto.
  - cbn [forOf]. unfold removeEntry at 1. unfold obsolete in *.
    destruct (bool_decide (id ∈ seen)) eqn:Hseen.
    + apply bool_decide_eq_true in Hseen.
      rewrite filter_cons_False in HQ by (simpl; tauto).
      wp_steps. apply IH. intros h' evs st' ? ? ? ?. by apply HQ.
    + apply bool_decide_eq_false in Hseen.
      fold (preserved this node).
      destruct (preserved this node) eqn:Hpres.
      * rewrite filter_cons_False in HQ
          by (simpl; rewrite Hpres; intros [_ ?]; done).
        wp_steps. apply IH. intros h' evs' st' Hc ? ? ?. apply HQ; try done.
        calls. by rewrite Hc.
      * rewrite filter_cons_True in HQ by done.
        wp_steps. apply wp_await_resolves; [done|]. cbv beta iota. wp_steps.
        apply wp_maybeYieldToMain. intros ev2 Hq2. wp_steps.
        apply IH. intros h' evs' st' Hc Hn ? ?. apply HQ; try done.
        -- calls. by rewrite Hc.
        -- rewrite Hn. simpl. lia.
Qed.

(** [removeObsolete] issues one [deleteBlock] for every entry of the
    identifier map whose identifier was not seen and that [preserveWhen]
    (if there is one) does not hold for, in the order of the map, and it
    returns their number. *)
Lemma removeObsolete_deletes existingMap seen (h : Heap B) :
  NoDup ((fun kv => node_uid kv.2) <$> existingMap) ->
  exists h' evs n,
    removeObsolete roamApi this existingMap seen h = (h', evs, inr n) /\
    apiCalls evs
      = (fun kv => DeleteBlock (node_uid kv.2))
          <$> obsolete this existingMap seen /\
    n = length (obsolete this existingMap seen) /\
    NoDup (apiCalls evs) /\
    forall id node, (id, node) ∈ existingMap -> id ∉ seen ->
      if preserved this node
      then DeleteBlock (node_uid node) ∉ apiCalls evs
      else DeleteBlock (node_uid node) ∈ apiCalls evs.
Proof.
  intros Hnd.
  cut (wp (removeObsolete roamApi this existingMap seen) h
         (fun h' evs r => exists n, r = inr n /\
            apiCalls evs
              = (fun kv => DeleteBlock (node_uid kv.2))
                  <$> obsolete this existingMap seen /\
            n = length (obsolete this existingMap seen))).
  { intros (h' & evs & r & Hrun & n & -> & Hc & Hn)%wp_exists.
    exists h', evs, n. split_and!; try done.
    - rewrite Hc.
      change (fun kv : string * RoamNode => DeleteBlock (node_uid kv.2))
        with (DeleteBlock ∘ (fun kv : string * RoamNode => node_uid kv.2)).
      rewrite list_fmap_compose. apply NoDup_fmap_2; [by intros ? ? [= ?]|].
      eapply sublist_NoDup; [done|apply fmap_sublist, sublist_filter].
    - intros id node Hin Hseen. rewrite Hc.
      destruct (preserved this node) eqn:Hpres.
      + intros ([id' node'] & [= Huid] & Hin')%list_elem_of_fmap.
        apply list_elem_of_filter in Hin' as [[_ Hpres'] Hin'].
        simpl in *.
        assert ((id', node') = (id, node)) as [= -> ->]
          by (by eapply (NoDup_fmap_eq (fun kv => node_uid kv.2))).
        congruence.
      + apply (list_elem_of_fmap_2'
                 (fun kv : string * RoamNode => DeleteBlock (node_uid kv.2))
                 _ (id, node)); [|done].
        by apply list_elem_of_filter. }
  unfold removeObsolete. wp_steps. apply wp_removeEntry_loop.
  intros h' evs st' Hc Hn _ _. wp_steps. exists (deletedCount st').
  split_and!; [done| |by rewrite Hn]. calls. by rewrite app_nil_r.
Qed.

End ObsoleteFacts.

(** ** Nodes outside the identifier map *)

Lemma NoDup_flat_map_eq {A C : Type} (f : A -> list C) (l : list A) x y a :
  NoDup (flat_map f l) -> x ∈ l -> y ∈ l -> a ∈ f x -> a ∈ f y -> x = y.
Proof.
  induction l as [|z l IH]; [by intros _ ?%elem_of_nil|].
  cbn [flat_map]. intros (Hz & Hdisj & Hl)%NoDup_app.
  assert (Hin : forall w, w ∈ l -> a ∈ f w -> a ∈ flat_map f l).
  { intros w Hw Ha. apply list_elem_of_In, in_flat_map.
    exists w. by split; apply list_elem_of_In. }
  intros [->|Hx]%elem_of_cons [->|Hy]%elem_of_cons Hax Hay; [done| | |].
  - destruct (Hdisj a Hax). by eapply Hin.
  - destruct (Hdisj a Hay). by eapply Hin.
  - by apply IH.
Qed.

Lemma fetchedUids_top nodes n : n ∈ nodes -> node_uid n ∈ fetchedUids nodes.
Proof.
  intros Hn. apply list_elem_of_In, in_flat_map. exists n.
  split; [by apply list_elem_of_In|by left].
Qed.

Section Invisible.

Context {B E T : Type}.
Variable roamApi : RoamApiAdapter B E.
Variable this : BlockReconciler T.

Local Abbreviation config := (br_config this).

(** [reconcile] is its set-up, which only logs, followed by the two
    loops. *)
Lemma wp_reconcile parentUid items (h : Heap B)
    (Q : Heap B -> list Event -> E + SyncStats -> Prop) :
  (forall ev0, quiet ev0 ->
     wp (st' <- forOf
                  (reconcileItem roamApi this parentUid
                     (existingMapOf config
                        (getChildren roamApi parentUid (h_backend h))))
                  (mkItemLoop ∅ 0) items ;;
         n <- removeObsolete roamApi this
                (existingMapOf config
                   (getChildren roamApi parentUid (h_backend h)))
                (seenIds st') ;;
         modifyStats (setDeleted n) ;;
         debug (br_logger this) "reconciler_complete" ;;
         getStats)
       (mkHeap (h_backend h) (newStats (length items)) (h_childStats h))
       (fun h' evs r => Q h' (ev0 ++ evs) r)) ->
  wp (reconcile roamApi this parentUid items) h Q.
Proof.
  intros HQ. unfold reconcile.
  apply wp_bind, wp_modifyStats. cbv beta iota.
  apply wp_bind, wp_readBackend. cbv beta iota.
  apply wp_bind, wp_buildExistingMap. intros ev1 Hq1. cbv beta iota.
  apply wp_bind, wp_debug. intros ev2 Hq2. cbv beta iota.
  eapply wp_mono; [apply (HQ (ev1 ++ ev2)); auto with quiet|].
  intros h' evs' r. simpl. by rewrite <- !app_assoc.
Qed.

(** Every call of a run of [reconcile] is one of [topCall], and the trace
    is faithful to the backend. *)
Lemma reconcile_sound parentUid items (h : Heap B) h' evs r :
  reconcile roamApi this parentUid items h = (h', evs, r) ->
  Forall (topCall this parentUid
            (getChildren roamApi parentUid (h_backend h))) (apiCalls evs) /\
  Performed roamApi (h_backend h) evs (h_backend h') (rejection r).
Proof.
  apply (wp_run _ _ (fun h' evs r =>
    Forall (topCall this parentUid
              (getChildren roamApi parentUid (h_backend h))) (apiCalls evs) /\
    Performed roamApi (h_backend h) evs (h_backend h') (rejection r))).
  apply wp_reconcile. intros ev0 Hq0.
  eapply wp_mono.
  { apply (sound_reconcile_loops roamApi this parentUid
             (getChildren roamApi parentUid (h_backend h))
             (existingMapOf config
                (getChildren roamApi parentUid (h_backend h)))).
    apply existingMapOf_In. }
  intros h1 ev1 r1 (Hcalls & _ & Hperf & _). simpl in *. split.
  - by calls.
  - eapply Performed_app; [by apply Performed_quiet_all|done].
Qed.

(** A call of [reconcile] does not touch a fetched node that is not in the
    identifier map, when uids are distinct. *)
Lemma topCall_target parentUid nodes n c :
  n ∈ nodes -> truthy (extractIdFromBlock config n) = None ->
  NoDup (parentUid :: fetchedUids nodes) ->
  topCall this parentUid nodes c -> target c <> node_uid n.
Proof.
  intros Hn Hid [Hparent Hnd]%NoDup_cons Hc Heq.
  assert (Hne : forall m, m ∈ nodes -> mapped config m ->
                  forall a, a ∈ node_uid m
                                :: (node_uid <$> orEmpty (node_children m)) ->
                  a <> node_uid n).
  { intros m Hm Hmapped a Ha ->.
    assert (m = n) as ->.
    { eapply (NoDup_flat_map_eq _ nodes); [exact Hnd|done..|by left]. }
    unfold mapped in Hmapped. rewrite Hid in Hmapped. by destruct Hmapped. }
  destruct Hc as [[block ->]|(m & Hm & Hmapped & Hc)]; simpl in Heq.
  - subst parentUid. by apply Hparent, fetchedUids_top.
  - destruct Hc as [[text ->]|[->|(reconciler & _ & Hc)]]; simpl in Heq.
    + eapply Hne; [done..|by left|done].
    + eapply Hne; [done..|by left|done].
    + destruct c as [p block order|uid text|uid]; simpl in *.
      * destruct Hc as [-> _]. eapply Hne; [done..|by left|done].
      * destruct Hc as (ch & Hch & <- & _).
        eapply Hne; [done..| |done]. right. by apply list_elem_of_fmap_2.
      * destruct Hc as (ch & Hch & <- & _).
        eapply Hne; [done..| |done]. right. by apply list_elem_of_fmap_2.
Qed.

Lemma invisible parentUid items (h : Heap B) h' evs r n :
  n ∈ getChildren roamApi parentUid (h_backend h) ->
  truthy (extractIdFromBlock config n) = None ->
  NoDup (parentUid
           :: fetchedUids (getChildren roamApi parentUid (h_backend h))) ->
  reconcile roamApi this parentUid items h = (h', evs, r) ->
  (forall id,
     JsMap.get id
       (existingMapOf config (getChildren roamApi parentUid (h_backend h)))
     <> Some n) /\
  (forall c, c ∈ apiCalls evs -> target c <> node_uid n).
Proof.
  intros Hn Hid Hnd Hrun. split.
  - intros id Hget.
    apply JsMapFacts.get_Some_In, list_elem_of_In, existingMapOf_In in Hget
      as [_ Hid']. congruence.
  - intros c Hc. apply reconcile_sound in Hrun as [Hcalls _].
    rewrite Forall_forall in Hcalls. by eapply topCall_target; eauto.
Qed.

(** C7. An existing top-level node for which [extractIdFromBlock] returns
    absent is not in the identifier map, and, uids being distinct, no
    create, update or delete of the pass targets its uid, whatever its
    content and whether the pass completes or fails. *)
Theorem unextractable_nodes_invisible parentUid items (h : Heap B) h' evs r
    n :
  n ∈ getChildren roamApi parentUid (h_backend h) ->
  extractIdFromBlock config n = None ->
  NoDup (parentUid
           :: fetchedUids (getChildren roamApi parentUid (h_backend h))) ->
  reconcile roamApi this parentUid items h = (h', evs, r) ->
  (forall id,
     JsMap.get id
       (existingMapOf config (getChildren roamApi parentUid (h_backend h)))
     <> Some n) /\
  (forall c, c ∈ apiCalls evs -> target c <> node_uid n).
Proof.
  intros Hn Hid. apply invisible; [done|]. by rewrite Hid.
Qed.

End Invisible.

Module InvisibleExamples.
Import Examples TopExamples.

Lemma unextractable_nodes_invisible_witness :
  (forall id,
     JsMap.get id
       (existingMapOf itemConfig
          [leaf "u1" "1:: old"; leaf "u2" "plain text"; leaf "u3" "3:: x"])
     <> Some (leaf "u2" "plain text")) /\
  (forall c,
     c ∈ apiCalls
           [Api (UpdateBlock "u1" "1:: new"); Delay 0;
            OnProgress (incUpdated (newStats 1));
            Api (DeleteBlock "u3"); Delay 0] ->
     target c <> "u2").
Proof.
  apply (unextractable_nodes_invisible mockApi reconciler "page"
           [("1", "new")]
           (heapOf [leaf "u1" "1:: old"; leaf "u2" "plain text";
                    leaf "u3" "3:: x"])
           (mkHeap [leaf "u1" "1:: old"; leaf "u2" "plain text";
                    leaf "u3" "3:: x"]
              (setDeleted 1 (incUpdated (newStats 1))) newChildStats)
           _ (inr (setDeleted 1 (incUpdated (newStats 1))))
           (leaf "u2" "plain text")).
  - simpl. repeat constructor.
  - reflexivity.
  - apply (bool_decide_unpack _). by vm_compute.
  - reflexivity.
Defined.

End InvisibleExamples.

(** ** Removal of obsolete blocks, within a pass *)

Lemma NoDup_flat_map_elem {A C : Type} (f : A -> list C) (l : list A) x :
  NoDup (flat_map f l) -> x ∈ l -> NoDup (f x).
Proof.
  induction l as [|z l IH]; [by intros _ ?%elem_of_nil|].
  cbn [flat_map]. intros (Hz & _ & Hl)%NoDup_app [->|Hx]%elem_of_cons;
    [done|by apply IH].
Qed.

(** With a backend that resolves, a faithful trace is that of a run that
    returned. *)
Lemma Performed_resolves {B E : Type} (api : RoamApiAdapter B E) b evs b' r :
  resolves api -> Performed api b evs b' r -> r = None.
Proof.
  intros Hres. induction 1 as [b|b ev evs b' r Hq H IH|b c b' e Hp
                              |b c b1 evs b' r Hp H IH]; try done.
  specialize (Hres c b). by rewrite Hp in Hres.
Qed.

Section ObsoleteInPass.

Context {B E T : Type}.
Variable roamApi : RoamApiAdapter B E.
Variable this : BlockReconciler T.

Local Abbreviation config := (br_config this).

(** The locals an iteration of the item loop returns. *)
Lemma reconcileItem_locals parentUid existingMap st item (h : Heap B) h' evs
    st' :
  reconcileItem roamApi this parentUid existingMap st item h
    = (h', evs, inr st') ->
  st' = mkItemLoop ({[ extractId config item ]} ∪ seenIds st)
          (S (il_operationCount st)).
Proof.
  intros Hrun.
  refine (wp_run _ _ (fun _ _ r => forall st', r = inr st' ->
            st' = mkItemLoop ({[ extractId config item ]} ∪ seenIds st)
                    (S (il_operationCount st)))
            _ _ _ _ Hrun st' eq_refl).
  unfold reconcileItem. apply wp_bind, wp_of_run.
  intros h1 ev1 [e|[]] _; [done|].
  wp_steps. apply wp_maybeYieldToMain. intros ev2 _. wp_steps.
  apply wp_reportProgress. intros ev3 _. wp_steps. by intros ? [= <-].
Qed.

Lemma forOf_reconcileItem_seen parentUid existingMap items :
  forall st (h : Heap B) h' evs st',
    forOf (reconcileItem roamApi this parentUid existingMap) st items h
      = (h', evs, inr st') ->
    seenIds st' = list_to_set (extractId config <$> items) ∪ seenIds st.
Proof.
  induction items as [|item items IH]; intros st h h' evs st' Hrun.
  - injection Hrun as _ _ <-. simpl. by rewrite (left_id_L ∅ (∪)).
  - cbn [forOf] in Hrun. unfold bind in Hrun.
    destruct (reconcileItem _ _ _ _ _ _ _) as [[h1 ev1] [e|st1]] eqn:Hitem;
      [done|].
    apply reconcileItem_locals in Hitem as ->.
    destruct (forOf _ _ _ _) as [[h2 ev2] r2] eqn:Hrest.
    injection Hrun as _ _ ->.
    apply IH in Hrest. rewrite Hrest. simpl.
    apply set_eq. intros y. rewrite !elem_of_union. tauto.
Qed.

(** No two entries of the identifier map hold nodes of the same uid, when
    the fetched nodes carry distinct uids. *)
Lemma existingMapOf_uids nodes :
  NoDup (fetchedUids nodes) ->
  NoDup ((fun kv : string * RoamNode => node_uid kv.2)
           <$> existingMapOf config nodes).
Proof.
  intros Hnd. apply NoDup_fmap_2_strong.
  - intros [k n] [k' n'] Hx Hy Huid. simpl in Huid.
    apply existingMapOf_In in Hx as [Hn Hk].
    apply existingMapOf_In in Hy as [Hn' Hk'].
    assert (n = n') as <-.
    { eapply (NoDup_flat_map_eq _ nodes _ _ (node_uid n)); [exact Hnd|done..| |].
      - by left.
      - rewrite Huid. by left. }
    congruence.
  - eapply (NoDup_fmap_1 fst). apply (existingMapOf_NoDup config nodes).
Qed.

(** The item loop deletes no fetched node. *)
Lemma itemCall_not_delete parentUid nodes node :
  NoDup (fetchedUids nodes) -> node ∈ nodes ->
  ~ itemCall this parentUid nodes (DeleteBlock (node_uid node)).
Proof.
  intros Hnd Hnode [[block [=]]|(n & Hn & _ & [[text [=]]|Hc])].
  destruct Hc as (reconciler & _ & ch & Hch & Huid & _).
  assert (n = node) as ->.
  { eapply (NoDup_flat_map_eq _ nodes _ _ (node_uid node)); [exact Hnd|done..| |].
    - right. rewrite <- Huid. by apply list_elem_of_fmap_2.
    - by left. }
  apply (NoDup_flat_map_elem _ _ _ Hnd) in Hn.
  apply NoDup_cons in Hn as [Hn _]. apply Hn.
  rewrite <- Huid. by apply list_elem_of_fmap_2.
Qed.

Hypothesis Hres : resolves roamApi.

(** The item loop returns, having seen the identifiers of the items. *)
Lemma wp_items_resolves parentUid nodes items st (h : Heap B)
    (Q : Heap B -> list Event -> E + ItemLoop -> Prop) :
  (forall h' evs st',
     Forall (itemCall this parentUid nodes) (apiCalls evs) ->
     seenIds st' = list_to_set (extractId config <$> items) ∪ seenIds st ->
     Q h' evs (inr st')) ->
  wp (forOf (reconcileItem roamApi this parentUid
               (existingMapOf config nodes)) st items) h Q.
Proof.
  intros HQ. apply wp_of_run. intros h' evs r Hrun.
  pose proof (sound_forOf roamApi (itemCall this parentUid nodes) topFrame
                topFrame_Frame (fun _ => True)
                (reconcileItem roamApi this parentUid
                   (existingMapOf config nodes)) items
                (fun s x _ _ =>
                   sound_reconcileItem roamApi this parentUid nodes
                     (existingMapOf config nodes) (existingMapOf_In _ _) s x)
                st I h) as Hsound.
  apply (fun H => wp_run _ _ _ _ _ _ H Hrun) in Hsound
    as (Hcalls & _ & Hperf & _).
  apply (Performed_resolves _ _ _ _ _ Hres) in Hperf.
  destruct r as [e|st']; [done|].
  apply HQ; [done|]. by eapply forOf_reconcileItem_seen.
Qed.

(** C3. With a backend that resolves: [removeObsolete] issues exactly one
    [deleteBlock] for every entry of the identifier map whose identifier
    is not in the set of seen identifiers and that [preserveWhen] (if
    there is one) does not hold for, and returns their number; the uid of
    a preserved entry is not deleted.  So for a whole pass of [reconcile]
    over nodes of distinct uids: it returns, [deleted] is the number of
    mapped nodes whose identifier no item has and that are not preserved,
    each of them is deleted exactly once in the pass, and a preserved one
    is not deleted. *)
Theorem obsolete_deleted_once_preserved_kept :
  (forall existingMap seen (h : Heap B),
     NoDup ((fun kv => node_uid kv.2) <$> existingMap) ->
     exists h' evs n,
       removeObsolete roamApi this existingMap seen h = (h', evs, inr n) /\
       apiCalls evs
         = (fun kv => DeleteBlock (node_uid kv.2))
             <$> obsolete this existingMap seen /\
       n = length (obsolete this existingMap seen) /\
       NoDup (apiCalls evs) /\
       forall id node, (id, node) ∈ existingMap -> id ∉ seen ->
         if preserved this node
         then DeleteBlock (node_uid node) ∉ apiCalls evs
         else DeleteBlock (node_uid node) ∈ apiCalls evs) /\
  (forall parentUid items (h : Heap B),
     NoDup (fetchedUids (getChildren roamApi parentUid (h_backend h))) ->
     exists h' evs stats,
       reconcile roamApi this parentUid items h = (h', evs, inr stats) /\
       deleted stats
         = length
             (obsolete this
                (existingMapOf config
                   (getChildren roamApi parentUid (h_backend h)))
                (list_to_set (extractId config <$> items))) /\
       forall id node,
         (id, node) ∈ existingMapOf config
                        (getChildren roamApi parentUid (h_backend h)) ->
         (id ∉ extractId config <$> items) ->
         if preserved this node
         then DeleteBlock (node_uid node) ∉ apiCalls evs
         else exists pre post,
                apiCalls evs = pre ++ DeleteBlock (node_uid node) :: post /\
                (DeleteBlock (node_uid node) ∉ pre) /\
                DeleteBlock (node_uid node) ∉ post).
Proof.
  split; [intros existingMap seen h; by apply removeObsolete_deletes|].
  intros parentUid items h Hnd.
  set (nodes := getChildren roamApi parentUid (h_backend h)) in *.
  set (seen := list_to_set (extractId config <$> items) : gset string).
  cut (wp (reconcile roamApi this parentUid items) h
         (fun h' evs r => exists stats ev1 ev2,
            r = inr stats /\
            deleted stats
              = length (obsolete this (existingMapOf config nodes) seen) /\
            apiCalls evs = apiCalls ev1 ++ apiCalls ev2 /\
            Forall (itemCall this parentUid nodes) (apiCalls ev1) /\
            apiCalls ev2
              = (fun kv => DeleteBlock (node_uid kv.2))
                  <$> obsolete this (existingMapOf config nodes) seen)).
  { intros (h' & evs & r & Hrun & stats & ev1 & ev2 & -> & Hdel & Hevs
            & Hitems & Hev2)%wp_exists.
    exists h', evs, stats. split_and!; [done..|].
    intros id node Hin Hid.
    assert (Hseen : id ∉ seen) by (unfold seen; by rewrite elem_of_list_to_set).
    assert (Hnode : node ∈ nodes) by (by apply existingMapOf_In in Hin as []).
    assert (Hnot1 : DeleteBlock (node_uid node) ∉ apiCalls ev1).
    { intros Hc. rewrite Forall_forall in Hitems.
      by eapply itemCall_not_delete, Hitems. }
    pose proof (existingMapOf_uids nodes Hnd) as Huids.
    destruct (preserved this node) eqn:Hpres.
    - rewrite Hevs, Hev2. intros [?|Hc]%elem_of_app; [done|].
      apply list_elem_of_fmap in Hc as ([id' node'] & [= Huid] & Hin').
      apply list_elem_of_filter in Hin' as [[_ Hpres'] Hin']. simpl in *.
      assert ((id', node') = (id, node)) as [= -> ->]
        by (by eapply (NoDup_fmap_eq (fun kv => node_uid kv.2))).
      congruence.
    - assert (Hc : DeleteBlock (node_uid node) ∈ apiCalls ev2).
      { rewrite Hev2.
        apply (list_elem_of_fmap_2'
                 (fun kv : string * RoamNode => DeleteBlock (node_uid kv.2))
                 _ (id, node)); [|done].
        by apply list_elem_of_filter. }
      assert (Hnd2 : NoDup (apiCalls ev2)).
      { rewrite Hev2.
        change (fun kv : string * RoamNode => DeleteBlock (node_uid kv.2))
          with (DeleteBlock ∘ (fun kv : string * RoamNode => node_uid kv.2)).
        rewrite list_fmap_compose. apply NoDup_fmap_2; [by intros ? ? [= ?]|].
        eapply sublist_NoDup; [done|apply fmap_sublist, sublist_filter]. }
      apply list_elem_of_split in Hc as (pre & post & Hsplit).
      rewrite Hsplit in Hnd2.
      apply NoDup_app in Hnd2 as (_ & Hpre & [Hpost _]%NoDup_cons).
      exists (apiCalls ev1 ++ pre), post. split_and!.
      + by rewrite Hevs, Hsplit, app_assoc.
      + intros [?|Hc]%elem_of_app; [done|]. apply (Hpre _ Hc). by left.
      + done. }
  apply wp_reconcile. intros ev0 Hq0. fold nodes.
  apply wp_bind, wp_items_resolves. intros h1 ev1 st1 Hitems Hseen.
  apply wp_bind. unfold removeObsolete.
  apply wp_bind, wp_removeEntry_loop; [done|].
  intros h2 ev2 st2 Hc Hn _ _. wp_steps.
  exists (setDeleted (deletedCount st2) (h_stats h2)), ev1, ev2.
  assert (Heq : seenIds st1 = seen)
    by (rewrite Hseen; apply (right_id_L ∅ (∪))).
  rewrite Heq in *.
  split_and!; [done|by rewrite Hn|by calls; rewrite !app_nil_r|done|done].
Qed.

End ObsoleteInPass.

Module ObsoleteExamples.
Import Examples TopExamples.

Lemma obsolete_deleted_once_preserved_kept_witness :
  (exists h' evs n,
     removeObsolete mockApi reconciler
       [("1", leaf "u1" "1:: a"); ("2", leaf "u2" "2:: b");
        ("9", leaf "u9" "9:: done")]
       ({[ "1" ]} ∪ ∅) (heapOf [])
       = (h', evs, inr n) /\
     apiCalls evs = [DeleteBlock "u2"] /\
     n = 1 /\
     NoDup (apiCalls evs) /\
     forall id node,
       (id, node) ∈ [("1", leaf "u1" "1:: a"); ("2", leaf "u2" "2:: b");
                     ("9", leaf "u9" "9:: done")] ->
       id ∉ ({[ "1" ]} ∪ ∅ : gset string) ->
       if preserved reconciler node
       then DeleteBlock (node_uid node) ∉ apiCalls evs
       else DeleteBlock (node_uid node) ∈ apiCalls evs) /\
  (exists h' evs stats,
     reconcile mockApi reconciler "page" [("1", "a")]
       (heapOf [leaf "u1" "1:: a"; leaf "u2" "2:: b"; leaf "u9" "9:: done"])
       = (h', evs, inr stats) /\
     deleted stats = 1 /\
     forall id node,
       (id, node) ∈ [("1", leaf "u1" "1:: a"); ("2", leaf "u2" "2:: b");
                     ("9", leaf "u9" "9:: done")] ->
       id ∉ ["1"] ->
       if preserved reconciler node
       then DeleteBlock (node_uid node) ∉ apiCalls evs
       else exists pre post,
              apiCalls evs = pre ++ DeleteBlock (node_uid node) :: post /\
              (DeleteBlock (node_uid node) ∉ pre) /\
              DeleteBlock (node_uid node) ∉ post).
Proof.
  pose proof (obsolete_deleted_once_preserved_kept mockApi reconciler
                (fun c b => match c with
                            | CreateBlock _ _ _ => eq_refl
                            | UpdateBlock _ _ => eq_refl
                            | DeleteBlock _ => eq_refl
                            end)) as [Hremove Hpass].
  split.
  - apply Hremove. apply (bool_decide_unpack _). by vm_compute.
  - apply (Hpass "page" [("1", "a")]
             (heapOf [leaf "u1" "1:: a"; leaf "u2" "2:: b";
                      leaf "u9" "9:: done"])).
    apply (bool_decide_unpack _). by vm_compute.
Defined.

End ObsoleteExamples.

(** ** Failure *)

Section Loops.

Context {B E A S C : Type}.
Variable body : S -> A -> M B E S.

(** A loop over [xs ++ ys] whose first part completes goes on with the
    second part from where the first part ended. *)
Lemma forOf_app_run xs ys : forall s (h : Heap B) h1 ev1 s1,
  forOf body s xs h = (h1, ev1, inr s1) ->
  forOf body s (xs ++ ys) h =
    let '(h2, ev2, r) := forOf body s1 ys h1 in (h2, ev1 ++ ev2, r).
Proof.
  induction xs as [|x xs IH]; intros s h h1 ev1 s1 Hrun.
  - injection Hrun as <- <- <-. simpl.
    by destruct (forOf body s ys h) as [[? ?] ?].
  - cbn [forOf app] in *. unfold bind in *.
    destruct (body s x h) as [[h0 e0] [e|s0]]; [done|].
    destruct (forOf body s0 xs h0) as [[h1' ev1'] r1] eqn:Hxs.
    injection Hrun as -> <- ->.
    rewrite (IH _ _ _ _ _ Hxs).
    destruct (forOf body s1 ys h1) as [[h2 ev2] r].
    by rewrite app_assoc.
Qed.

Lemma bind_forOf_app_run xs ys (k : S -> M B E C) s (h : Heap B) h1 ev1 s1
    h' evs r :
  forOf body s xs h = (h1, ev1, inr s1) ->
  bind (forOf body s (xs ++ ys)) k h = (h', evs, r) ->
  exists ev2,
    evs = ev1 ++ ev2 /\ bind (forOf body s1 ys) k h1 = (h', ev2, r).
Proof.
  intros Hrun. unfold bind. rewrite (forOf_app_run _ _ _ _ _ _ _ Hrun).
  destruct (forOf body s1 ys h1) as [[h2 ev2] [e|s2]].
  - intros [= <- <- <-]. by exists ev2.
  - destruct (k s2 h2) as [[h3 ev3] r3]. intros [= <- <- <-].
    exists (ev2 ++ ev3). by rewrite app_assoc.
Qed.

End Loops.

Lemma Performed_aborted {B E : Type} (api : RoamApiAdapter B E) b evs b'
    e :
  Performed api b evs b' (Some e) -> aborted api b evs b' e.
Proof. apply Performed_rejected_inv. Qed.

(** A call that the backend rejects, every call before it having
    resolved, ends a faithful trace. *)
Lemma Performed_rejects {B E A : Type} (api : RoamApiAdapter B E) b pre c
    post b1 b2 e b' (r : E + A) :
  Performed api b (pre ++ Api c :: post) b' (rejection r) ->
  Performed api b pre b1 None ->
  perform api c b1 = (b2, Some e) ->
  r = inl e /\ post = [] /\ b' = b2.
Proof.
  intros Hall Hpre Hc.
  cut (rejection r = Some e /\ post = [] /\ b' = b2).
  { intros (Hr & ? & ?). split; [|done]. destruct r; simpl in Hr; congruence. }
  revert Hall. generalize (rejection r). intros o Hall.
  remember None as none eqn:Hnone.
  induction Hpre as [b|b ev pre b1 o' Hq H IH|b c0 b1 e0 Hp
                    |b c0 b0 pre b1 o' Hp H IH]; try done; simpl in Hall.
  - inversion Hall as [|? ? ? ? ? Hq| |]; subst; [done| |congruence].
    split_and!; congruence.
  - inversion Hall as [|? ? ? ? ? Hq' Hrest|? ? ? ? Hp'
                      |? ? ? ? ? ? Hp' Hrest]; subst.
    + by apply IH.
    + by destruct pre.
    + done.
  - inversion Hall as [|? ? ? ? ? Hq' Hrest|? ? ? ? Hp'
                      |? ? ? ? ? ? Hp' Hrest]; subst.
    + done.
    + by destruct pre.
    + apply IH; [done|done|]. congruence.
Qed.

Section Failure.

Context {B E : Type}.
Variable roamApi : RoamApiAdapter B E.

(** [syncChildren] is the allocation of its statistics and a log entry,
    followed by its loops. *)
Lemma wp_syncChildren this parentUid existingChildren newChildren
    (h : Heap B) (Q : Heap B -> list Event -> E + ChildSyncStats -> Prop) :
  (forall ev0, quiet ev0 ->
     wp (st' <- forOf (syncChild roamApi this parentUid)
                  (mkChildLoop
                     (partitionExisting (cr_config this) existingChildren).1
                     (partitionExisting (cr_config this) existingChildren).2
                     0) newChildren ;;
         forOf (deleteOrphan roamApi this) (cl_operationCount st')
           (JsMap.entries (existingPropsMap st')) ;;
         debug (cr_logger this) "children_reconciler_complete" ;;
         getChildStats)
       (mkHeap (h_backend h) (h_stats h) newChildStats)
       (fun h' evs r => Q h' (ev0 ++ evs) r)) ->
  wp (syncChildren roamApi this parentUid existingChildren newChildren) h Q.
Proof.
  intros HQ. unfold syncChildren.
  destruct (partitionExisting (cr_config this) existingChildren)
    as [propsMap specialBlocks].
  apply wp_bind, wp_modifyChildStats. cbv beta iota.
  apply wp_bind, wp_debug. intros ev0 Hq0. cbv beta iota.
  eapply wp_mono; [by apply (HQ ev0)|]. done.
Qed.

(** C8. In a run of [reconcile] or of [syncChildren], a backend call that
    the backend rejects with [e] is the last event of the trace: the run
    fails with this very [e], and the backend is left as the calls up to
    it made it.  Conversely a run that fails with [e] ends with such a
    call, every call before it having resolved.  Whatever prefix of the
    items (of the desired children) the loop had completed, its events are
    part of the trace, the calls issued after it lead from the backend it
    had reached to the final one, and the counters it had reached have not
    decreased. *)
Theorem rejection_propagates_progress_kept :
  (forall (T : Type) (this : BlockReconciler T) parentUid items
          (h : Heap B) h' evs r,
     reconcile roamApi this parentUid items h = (h', evs, r) ->
     (forall pre c post b1 b2 e,
        evs = pre ++ Api c :: post ->
        Performed roamApi (h_backend h) pre b1 None ->
        perform roamApi c b1 = (b2, Some e) ->
        r = inl e /\ post = [] /\ h_backend h' = b2) /\
     forall e, r = inl e ->
       aborted roamApi (h_backend h) evs (h_backend h') e /\
       forall done rest h1 ev1 st1,
         items = done ++ rest ->
         forOf
           (reconcileItem roamApi this parentUid
              (existingMapOf (br_config this)
                 (getChildren roamApi parentUid (h_backend h))))
           (mkItemLoop ∅ 0) done
           (mkHeap (h_backend h) (newStats (length items)) (h_childStats h))
           = (h1, ev1, inr st1) ->
         statsKept (h_stats h1) (h_stats h') /\
         exists ev0 ev2,
           evs = ev0 ++ ev1 ++ ev2 /\
           aborted roamApi (h_backend h1) ev2 (h_backend h') e) /\
  (forall this parentUid existingChildren newChildren (h : Heap B) h' evs r,
     syncChildren roamApi this parentUid existingChildren newChildren h
       = (h', evs, r) ->
     (forall pre c post b1 b2 e,
        evs = pre ++ Api c :: post ->
        Performed roamApi (h_backend h) pre b1 None ->
        perform roamApi c b1 = (b2, Some e) ->
        r = inl e /\ post = [] /\ h_backend h' = b2) /\
     forall e, r = inl e ->
       aborted roamApi (h_backend h) evs (h_backend h') e /\
       forall done rest h1 ev1 st1,
         newChildren = done ++ rest ->
         forOf (syncChild roamApi this parentUid)
           (mkChildLoop
              (partitionExisting (cr_config this) existingChildren).1
              (partitionExisting (cr_config this) existingChildren).2 0)
           done (mkHeap (h_backend h) (h_stats h) newChildStats)
           = (h1, ev1, inr st1) ->
         childKeeps (h_childStats h1) (h_childStats h') /\
         exists ev0 ev2,
           evs = ev0 ++ ev1 ++ ev2 /\
           aborted roamApi (h_backend h1) ev2 (h_backend h') e).
Proof.
  split.
  - intros T this parentUid items h h' evs r Hrun.
    pose proof (reconcile_sound _ _ _ _ _ _ _ _ Hrun) as [_ Hperf].
    split.
    { intros pre c post b1 b2 e -> Hpre Hc.
      by eapply Performed_rejects. }
    intros e ->. split; [by apply Performed_aborted|].
    intros done rest h1 ev1 st1 -> Hloop.
    refine (wp_run _ _ (fun h' evs r => forall e, r = inl e ->
             statsKept (h_stats h1) (h_stats h') /\
             exists ev0 ev2,
               evs = ev0 ++ ev1 ++ ev2 /\
               aborted roamApi (h_backend h1) ev2 (h_backend h') e)
              _ _ _ _ Hrun e eq_refl).
    apply wp_reconcile. intros ev0 Hq0. apply wp_of_run.
    clear Hrun Hperf e. intros h2 evs2 r2 Hrun2 e ->.
    destruct (bind_forOf_app_run _ _ _ _ _ _ _ _ _ _ _ _ Hloop Hrun2)
      as (ev3 & -> & Hrest).
    pose proof (sound_reconcile_loops roamApi this parentUid
                  (getChildren roamApi parentUid (h_backend h))
                  (existingMapOf (br_config this)
                     (getChildren roamApi parentUid (h_backend h)))
                  (existingMapOf_In _ _) st1 rest h1) as Hsound.
    apply (fun H => wp_run _ _ _ _ _ _ H Hrest) in Hsound
      as (_ & Hkept & Hperf & _).
    split; [done|]. exists ev0, ev3. split; [done|].
    by apply Performed_aborted.
  - intros this parentUid existingChildren newChildren h h' evs r Hrun.
    assert (Hinv := partitionExisting_childInv this existingChildren).
    assert (Hperf : Performed roamApi (h_backend h) evs (h_backend h')
                      (rejection r)).
    { pose proof (sound_syncChildren roamApi this parentUid existingChildren
                    newChildren h) as Hsound.
      unfold wp in Hsound. rewrite Hrun in Hsound. simpl in Hsound.
      by destruct Hsound as (_ & _ & Hperf & _). }
    split.
    { intros pre c post b1 b2 e -> Hpre Hc.
      by eapply Performed_rejects. }
    intros e ->. split; [by apply Performed_aborted|].
    intros done rest h1 ev1 st1 -> Hloop.
    refine (wp_run _ _ (fun h' evs r => forall e, r = inl e ->
             childKeeps (h_childStats h1) (h_childStats h') /\
             exists ev0 ev2,
               evs = ev0 ++ ev1 ++ ev2 /\
               aborted roamApi (h_backend h1) ev2 (h_backend h') e)
              _ _ _ _ Hrun e eq_refl).
    apply wp_syncChildren. intros ev0 Hq0. apply wp_of_run.
    clear Hrun Hperf e. intros h2 evs2 r2 Hrun2 e ->.
    assert (Hst1 : childInv this existingChildren st1).
    { pose proof (sound_forOf roamApi
                    (childCall this parentUid existingChildren) childFrame
                    childFrame_Frame (childInv this existingChildren)
                    (syncChild roamApi this parentUid) done
                    (fun s x Hs _ =>
                       sound_syncChild roamApi this parentUid
                         existingChildren s x Hs)
                    _ Hinv
                    (mkHeap (h_backend h) (h_stats h) newChildStats))
        as Hsound.
      unfold wp in Hsound. rewrite Hloop in Hsound.
      destruct Hsound as (_ & _ & _ & Hpost). by apply Hpost. }
    destruct (bind_forOf_app_run _ _ _ _ _ _ _ _ _ _ _ _ Hloop Hrun2)
      as (ev3 & -> & Hrest).
    pose proof (sound_syncChildren_loops roamApi this parentUid
                  existingChildren st1 rest Hst1 h1) as Hsound.
    apply (fun H => wp_run _ _ _ _ _ _ H Hrest) in Hsound
      as (_ & [_ Hkept] & Hperf & _).
    split; [done|]. exists ev0, ev3. split; [done|].
    by apply Performed_aborted.
Qed.

End Failure.

Module FailureWitness.
Import Examples TopExamples FailureExamples.

Lemma rejection_propagates_progress_kept_witness :
  ((forall pre c post b1 b2 e,
      [Api (UpdateBlock "u1" "1:: new"); Delay 0;
       OnProgress (incUpdated (newStats 1)); Api (DeleteBlock "u3")]
        = pre ++ Api c :: post ->
      Performed flakyApi [leaf "u1" "1:: old"; leaf "u3" "3:: x"] pre b1
        None ->
      perform flakyApi c b1 = (b2, Some e) ->
      @inl string SyncStats "locked" = inl e /\ post = [] /\
      [leaf "u1" "1:: old"; leaf "u3" "3:: x"] = b2) /\
   forall e, @inl string SyncStats "locked" = inl e ->
     aborted flakyApi [leaf "u1" "1:: old"; leaf "u3" "3:: x"]
       [Api (UpdateBlock "u1" "1:: new"); Delay 0;
        OnProgress (incUpdated (newStats 1)); Api (DeleteBlock "u3")]
       [leaf "u1" "1:: old"; leaf "u3" "3:: x"] e /\
     forall done rest h1 ev1 st1,
       [("1", "new")] = done ++ rest ->
       forOf
         (reconcileItem flakyApi reconciler "page"
            (existingMapOf itemConfig
               [leaf "u1" "1:: old"; leaf "u3" "3:: x"]))
         (mkItemLoop ∅ 0) done
         (mkHeap [leaf "u1" "1:: old"; leaf "u3" "3:: x"] (newStats 1)
            newChildStats)
         = (h1, ev1, inr st1) ->
       statsKept (h_stats h1) (incUpdated (newStats 1)) /\
       exists ev0 ev2,
         [Api (UpdateBlock "u1" "1:: new"); Delay 0;
          OnProgress (incUpdated (newStats 1)); Api (DeleteBlock "u3")]
           = ev0 ++ ev1 ++ ev2 /\
         aborted flakyApi (h_backend h1) ev2
           [leaf "u1" "1:: old"; leaf "u3" "3:: x"] e) /\
  ((forall pre c post b1 b2 e,
      [Api (UpdateBlock "c1" "a:: 9"); Delay 0; Delay 0;
       Api (DeleteBlock "u3")] = pre ++ Api c :: post ->
      Performed flakyApi [] pre b1 None ->
      perform flakyApi c b1 = (b2, Some e) ->
      @inl string ChildSyncStats "locked" = inl e /\ post = [] /\ [] = b2) /\
   forall e, @inl string ChildSyncStats "locked" = inl e ->
     aborted flakyApi []
       [Api (UpdateBlock "c1" "a:: 9"); Delay 0; Delay 0;
        Api (DeleteBlock "u3")] [] e /\
     forall done rest h1 ev1 st1,
       [line "a:: 9"] = done ++ rest ->
       forOf (syncChild flakyApi children "u1")
         (mkChildLoop
            (partitionExisting childConfig
               [leaf "c1" "a:: 1"; leaf "u3" "b:: 2"]).1
            (partitionExisting childConfig
               [leaf "c1" "a:: 1"; leaf "u3" "b:: 2"]).2 0)
         done (mkHeap [] (newStats 0) newChildStats)
         = (h1, ev1, inr st1) ->
       childKeeps (h_childStats h1) (incChildUpdated newChildStats) /\
       exists ev0 ev2,
         [Api (UpdateBlock "c1" "a:: 9"); Delay 0; Delay 0;
          Api (DeleteBlock "u3")] = ev0 ++ ev1 ++ ev2 /\
         aborted flakyApi (h_backend h1) ev2 [] e).
Proof.
  split.
  - apply (proj1 (rejection_propagates_progress_kept flakyApi) _ reconciler
             "page" [("1", "new")]
             (heapOf [leaf "u1" "1:: old"; leaf "u3" "3:: x"])
             (mkHeap [leaf "u1" "1:: old"; leaf "u3" "3:: x"]
                (incUpdated (newStats 1)) newChildStats)).
    reflexivity.
  - apply (proj2 (rejection_propagates_progress_kept flakyApi) children
             "u1" [leaf "c1" "a:: 1"; leaf "u3" "b:: 2"] [line "a:: 9"]
             (heapOf [])
             (mkHeap [] (newStats 0) (incChildUpdated newChildStats))).
    reflexivity.
Defined.

End FailureWitness.

(** ** The empty string as an identifier or a key *)

Lemma truthy_idem v : truthy (truthy v) = truthy v.
Proof.
  destruct v as [s|]; [|done]. simpl.
  by destruct (String.eqb s "") eqn:Hs; simpl; rewrite ?Hs.
Qed.

Section Extensionality.

Context {B E : Type}.

Lemma bind_ext {A C : Type} (m m' : M B E A) (k k' : A -> M B E C) h :
  m h = m' h -> (forall a h1, k a h1 = k' a h1) ->
  bind m k h = bind m' k' h.
Proof.
  intros Hm Hk. unfold bind. rewrite Hm.
  destruct (m' h) as [[h1 ev1] [e|a]]; [done|]. by rewrite Hk.
Qed.

Lemma forOf_ext {A S : Type} (body body' : S -> A -> M B E S) xs :
  (forall s x h, body s x h = body' s x h) ->
  forall s h, forOf body s xs h = forOf body' s xs h.
Proof.
  intros Hbody. induction xs as [|x xs IH]; intros s h; [done|].
  cbn [forOf]. by apply bind_ext.
Qed.

End Extensionality.

Section EmptyString.

Context {B E : Type}.
Variable roamApi : RoamApiAdapter B E.

Lemma partitionExisting_absentIfEmpty this existingChildren :
  partitionExisting (cr_config (absentIfEmptyKey this)) existingChildren
  = partitionExisting (cr_config this) existingChildren.
Proof.
  unfold partitionExisting. generalize (@JsMap.empty RoamNode, @nil RoamNode).
  induction existingChildren as [|child l IH]; intros acc; [done|].
  cbn [fold_left]. rewrite <- IH. f_equal.
  unfold partitionStep. destruct acc as [m sp]. simpl.
  unfold absentIfEmpty. by rewrite truthy_idem.
Qed.

Lemma syncChild_absentIfEmpty this parentUid st newChild (h : Heap B) :
  syncChild roamApi (absentIfEmptyKey this) parentUid st newChild h
  = syncChild roamApi this parentUid st newChild h.
Proof.
  unfold syncChild. simpl. unfold absentIfEmpty. by rewrite truthy_idem.
Qed.

(** [syncChildren] does not tell an empty key from an absent one. *)
Lemma syncChildren_absentIfEmpty this parentUid existingChildren newChildren
    (h : Heap B) :
  syncChildren roamApi (absentIfEmptyKey this) parentUid existingChildren
    newChildren h
  = syncChildren roamApi this parentUid existingChildren newChildren h.
Proof.
  unfold syncChildren. rewrite partitionExisting_absentIfEmpty.
  destruct (partitionExisting (cr_config this) existingChildren)
    as [propsMap specialBlocks].
  apply bind_ext; [done|]. intros _ h1.
  apply bind_ext; [done|]. intros _ h2.
  apply bind_ext; [|done].
  apply forOf_ext. intros s x h3. apply syncChild_absentIfEmpty.
Qed.

Context {T : Type}.

Lemma updateExistingBlock_absentIfEmpty (this : BlockReconciler T) existing
    newBlock (h : Heap B) :
  updateExistingBlock roamApi (absentIfEmptyId this) existing newBlock h
  = updateExistingBlock roamApi this existing newBlock h.
Proof.
  unfold updateExistingBlock. apply bind_ext; [done|]. intros _ h1. simpl.
  destruct (childrenReconciler this) as [reconciler|]; [|done]. simpl.
  destruct (bp_children newBlock) as [newChildren|]; [|done].
  apply bind_ext; [|done]. apply syncChildren_absentIfEmpty.
Qed.

Lemma reconcileItem_absentIfEmpty (this : BlockReconciler T) parentUid
    existingMap st item (h : Heap B) :
  reconcileItem roamApi (absentIfEmptyId this) parentUid existingMap st item h
  = reconcileItem roamApi this parentUid existingMap st item h.
Proof.
  unfold reconcileItem. simpl. apply bind_ext; [|done].
  destruct (JsMap.get _ existingMap) as [existingNode|]; [|done].
  destruct (isUnchanged _ _); [done|].
  apply bind_ext; [|done]. apply updateExistingBlock_absentIfEmpty.
Qed.

Lemma mapEntry_absentIfEmpty (this : BlockReconciler T) map node
    (h : Heap B) :
  mapEntry (E:=E) (absentIfEmptyId this) map node h = mapEntry this map node h.
Proof.
  unfold mapEntry. simpl. unfold absentIfEmpty. by rewrite truthy_idem.
Qed.

(** [reconcile] does not tell an empty identifier or key from an absent
    one. *)
Lemma reconcile_absentIfEmpty (this : BlockReconciler T) parentUid items
    (h : Heap B) :
  reconcile roamApi (absentIfEmptyId this) parentUid items h
  = reconcile roamApi this parentUid items h.
Proof.
  unfold reconcile.
  apply bind_ext; [done|]. intros _ h1.
  apply bind_ext; [done|]. intros existingNodes h2.
  apply bind_ext.
  { unfold buildExistingMap. apply forOf_ext. intros s x h3.
    apply mapEntry_absentIfEmpty. }
  intros existingMap h3.
  apply bind_ext; [done|]. intros _ h4.
  apply bind_ext; [|done].
  apply forOf_ext. intros s x h5. apply reconcileItem_absentIfEmpty.
Qed.

(** C10, as amended.  An existing top-level node whose identifier is the
    empty string, and an existing child whose key is the empty string, are
    treated like those whose extraction is absent: a run is the same when
    the empty string is replaced by absent, and both are left out of the
    identifier map or key map.  Uids being distinct, no call of
    [reconcile] targets the top-level node, and no call of [syncChildren]
    updates the child; the child is deleted only if [isSpecialBlock] holds
    for its text. *)
Theorem empty_string_as_absent :
  (forall (this : BlockReconciler T) parentUid items (h : Heap B),
     reconcile roamApi (absentIfEmptyId this) parentUid items h
     = reconcile roamApi this parentUid items h) /\
  (forall this parentUid existingChildren newChildren (h : Heap B),
     syncChildren roamApi (absentIfEmptyKey this) parentUid existingChildren
       newChildren h
     = syncChildren roamApi this parentUid existingChildren newChildren h) /\
  (forall (this : BlockReconciler T) parentUid items (h : Heap B) h' evs r n,
     n ∈ getChildren roamApi parentUid (h_backend h) ->
     extractIdFromBlock (br_config this) n = Some "" ->
     NoDup (parentUid
              :: fetchedUids (getChildren roamApi parentUid (h_backend h))) ->
     reconcile roamApi this parentUid items h = (h', evs, r) ->
     (forall id,
        JsMap.get id
          (existingMapOf (br_config this)
             (getChildren roamApi parentUid (h_backend h)))
        <> Some n) /\
     (forall c, c ∈ apiCalls evs -> target c <> node_uid n)) /\
  (forall this parentUid existingChildren newChildren (h : Heap B) h' evs r
          n,
     n ∈ existingChildren ->
     extractKey (cr_config this) (node_text n) = Some "" ->
     NoDup (node_uid <$> existingChildren) ->
     syncChildren roamApi this parentUid existingChildren newChildren h
       = (h', evs, r) ->
     (forall key,
        JsMap.get key (partitionExisting (cr_config this) existingChildren).1
        <> Some n) /\
     (forall text, UpdateBlock (node_uid n) text ∉ apiCalls evs) /\
     (DeleteBlock (node_uid n) ∈ apiCalls evs ->
      optCall (isSpecialBlock (cr_config this)) (node_text n) = true)).
Proof.
  split_and!.
  - apply reconcile_absentIfEmpty.
  - apply syncChildren_absentIfEmpty.
  - intros this parentUid items h h' evs r n Hn Hid.
    apply invisible; [done|]. by rewrite Hid.
  - intros this parentUid existingChildren newChildren h h' evs r n Hn Hkey
      Hnd Hrun.
    assert (HkeyOf : keyOf this (node_text n) = None).
    { unfold keyOf. by rewrite Hkey. }
    pose proof (sound_syncChildren roamApi this parentUid existingChildren
                  newChildren h) as Hsound.
    apply (fun H => wp_run _ _ _ _ _ _ H Hrun) in Hsound as (Hcalls & _).
    rewrite Forall_forall in Hcalls.
    split_and!.
    + intros key Hget.
      apply JsMapFacts.get_Some_In, list_elem_of_In in Hget.
      destruct (partitionExisting_childInv this existingChildren) as [Hm _].
      apply Hm in Hget as [_ Hk]. congruence.
    + intros text Hc. apply Hcalls in Hc as (m & Hm & Huid & Hkeyed).
      assert (m = n) as -> by (by eapply (NoDup_fmap_eq node_uid)).
      unfold keyed in Hkeyed. rewrite HkeyOf in Hkeyed. by destruct Hkeyed.
    + intros Hc. apply Hcalls in Hc as (m & Hm & Huid & Hcase).
      assert (m = n) as -> by (by eapply (NoDup_fmap_eq node_uid)).
      destruct Hcase as [Hkeyed|[_ Hsp]]; [|done].
      unfold keyed in Hkeyed. rewrite HkeyOf in Hkeyed. by destruct Hkeyed.
Qed.

End EmptyString.

Module EmptyStringExamples.
Import Examples TopExamples EmptyKeyExamples.

(** The claim as first stated fails: an existing child whose key is the
    empty string is deleted by the pass when it is a special block. *)
Lemma empty_key_special_child_deleted :
  extractKey (cr_config notes) (node_text (leaf "c1" "::notes")) = Some "" /\
  DeleteBlock (node_uid (leaf "c1" "::notes"))
    ∈ apiCalls
        (syncChildren mockApi notes "u1" [leaf "c1" "::notes"]
           [line "::notes, again"] (heapOf [])).1.2.
Proof. split; [reflexivity|]. vm_compute. by left. Qed.

Lemma empty_string_as_absent_witness :
  ((forall id,
      JsMap.get id
        (existingMapOf itemConfig
           [leaf "u1" "1:: old"; leaf "u2" ":: no id"; leaf "u3" "3:: x"])
      <> Some (leaf "u2" ":: no id")) /\
   (forall c,
      c ∈ apiCalls
            [Api (UpdateBlock "u1" "1:: new"); Delay 0;
             OnProgress (incUpdated (newStats 1));
             Api (DeleteBlock "u3"); Delay 0] ->
      target c <> "u2")) /\
  ((forall key,
      JsMap.get key
        (partitionExisting childConfig
           [leaf "c1" "a:: 1"; leaf "c2" ":: no key"]).1
      <> Some (leaf "c2" ":: no key")) /\
   (forall text,
      UpdateBlock "c2" text
        ∉ apiCalls [Api (UpdateBlock "c1" "a:: 2"); Delay 0]) /\
   (DeleteBlock "c2" ∈ apiCalls [Api (UpdateBlock "c1" "a:: 2"); Delay 0] ->
    optCall (isSpecialBlock childConfig) ":: no key" = true)).
Proof.
  split.
  - apply (proj1 (proj2 (proj2 (@empty_string_as_absent _ _ mockApi Item)))
             reconciler "page" [("1", "new")]
             (heapOf [leaf "u1" "1:: old"; leaf "u2" ":: no id";
                      leaf "u3" "3:: x"])
             (mkHeap [leaf "u1" "1:: old"; leaf "u2" ":: no id";
                      leaf "u3" "3:: x"]
                (setDeleted 1 (incUpdated (newStats 1))) newChildStats)
             _ (inr (setDeleted 1 (incUpdated (newStats 1))))
             (leaf "u2" ":: no id")).
    + simpl. repeat constructor.
    + reflexivity.
    + apply (bool_decide_unpack _). by vm_compute.
    + reflexivity.
  - apply (proj2 (proj2 (proj2 (@empty_string_as_absent _ _ mockApi Item)))
             children "u1" [leaf "c1" "a:: 1"; leaf "c2" ":: no key"]
             [line "a:: 2"] (heapOf [])
             (mkHeap [] (newStats 0) (incChildUpdated newChildStats))
             _ (inr (incChildUpdated newChildStats))
             (leaf "c2" ":: no key")).
    + repeat constructor.
    + reflexivity.
    + apply (bool_decide_unpack _). by vm_compute.
    + reflexivity.
Defined.

End EmptyStringExamples.

(** ** Pacing *)

Module Pacing.
Import Examples PacingExamples.

(** C9 does not hold of the code.  [createNewBlock] awaits [createBlock]
    and nothing else: two new items give two creations with no delay after
    either.  The orphan loop of [syncChildren] delays before its
    [deleteBlock], not after it.  The update and delete paths of
    [reconcile] do delay after the call. *)
Theorem create_and_orphan_delete_not_paced :
  (reconcile mockApi (newBlockReconciler plainConfig) "page"
     [("1", "a"); ("2", "b")] (heapOf [])).1.2
    = [Api (CreateBlock "page" (line "1:: a") OrderLast);
       Api (CreateBlock "page" (line "2:: b") OrderLast)] /\
  ~ paced DEFAULT_MUTATION_DELAY_MS
      (reconcile mockApi (newBlockReconciler plainConfig) "page"
         [("1", "a"); ("2", "b")] (heapOf [])).1.2 /\
  (syncChildren mockApi (newChildrenReconciler plainChildConfig) "u1"
     [leaf "c1" "a:: 1"] [] (heapOf [])).1.2
    = [Delay 100; Api (DeleteBlock "c1")] /\
  ~ paced DEFAULT_MUTATION_DELAY_MS
      (syncChildren mockApi (newChildrenReconciler plainChildConfig) "u1"
         [leaf "c1" "a:: 1"] [] (heapOf [])).1.2 /\
  (reconcile mockApi (newBlockReconciler plainConfig) "page" [("1", "a")]
     (heapOf [leaf "u1" "1:: old"; leaf "u2" "2:: b"])).1.2
    = [Api (UpdateBlock "u1" "1:: a"); Delay 100;
       Api (DeleteBlock "u2"); Delay 100] /\
  paced DEFAULT_MUTATION_DELAY_MS
    (reconcile mockApi (newBlockReconciler plainConfig) "page" [("1", "a")]
       (heapOf [leaf "u1" "1:: old"; leaf "u2" "2:: b"])).1.2.
Proof.
  split_and!; try reflexivity; vm_compute; tauto.
Qed.

End Pacing.

(** ** A pass over a converged tree *)

Section Converged.

Context {B E T : Type}.
Variable roamApi : RoamApiAdapter B E.
Variable this : BlockReconciler T.

Local Abbreviation config := (br_config this).

Lemma wp_reconcileItem_skip parentUid existingMap st item n (h : Heap B)
    (Q : Heap B -> list Event -> E + ItemLoop -> Prop) :
  JsMap.get (extractId config item) existingMap = Some n ->
  structurallyEqual n (buildBlock config item) ->
  (forall evs, quiet evs ->
     Q (mkHeap (h_backend h) (incSkipped (h_stats h)) (h_childStats h)) evs
       (inr (mkItemLoop ({[ extractId config item ]} ∪ seenIds st)
               (S (il_operationCount st))))) ->
  wp (reconcileItem roamApi this parentUid existingMap st item) h Q.
Proof.
  intros Hget Heq%isUnchanged_structurallyEqual HQ.
  unfold reconcileItem. rewrite Hget, Heq. wp_steps.
  apply wp_maybeYieldToMain. intros ev1 Hq1. wp_steps.
  apply wp_reportProgress. intros ev2 Hq2. wp_steps.
  apply HQ. auto with quiet.
Qed.

Lemma wp_reconcileItem_skip_loop parentUid existingMap items :
  forall st (h : Heap B) (Q : Heap B -> list Event -> E + ItemLoop -> Prop),
  (forall item, item ∈ items ->
     exists n, JsMap.get (extractId config item) existingMap = Some n /\
               structurallyEqual n (buildBlock config item)) ->
  (forall h' evs st',
     quiet evs ->
     h_backend h' = h_backend h ->
     h_childStats h' = h_childStats h ->
     total (h_stats h') = total (h_stats h) ->
     skipped (h_stats h') = length items + skipped (h_stats h) ->
     created (h_stats h') = created (h_stats h) ->
     updated (h_stats h') = updated (h_stats h) ->
     deleted (h_stats h') = deleted (h_stats h) ->
     (forall id, id ∈ seenIds st' <->
                 id ∈ extractId config <$> items \/ id ∈ seenIds st) ->
     Q h' evs (inr st')) ->
  wp (forOf (reconcileItem roamApi this parentUid existingMap) st items) h Q.
Proof.
  induction items as [|item items IH]; intros st h Q Hitems HQ.
  - apply wp_ret. apply HQ; try done. intros id. rewrite fmap_nil.
    split; [by right|]. by intros [?%elem_of_nil|?].
  - destruct (Hitems item) as (n & Hget & Heq); [by left|].
    cbn [forOf]. apply wp_bind.
    apply (wp_reconcileItem_skip _ _ _ _ n); [done..|]. intros ev1 Hq1.
    apply IH; [intros i Hi; apply Hitems; by right|].
    intros h' ev2 st' Hq2 Hb Hc Ht Hs Hcr Hu Hd Hseen. simpl in *.
    apply HQ; try done; [auto with quiet|lia|].
    intros id. rewrite Hseen, elem_of_cons, elem_of_union, elem_of_singleton.
    tauto.
Qed.

Lemma wp_removeEntry_none seen entries :
  forall st (h : Heap B) (Q : Heap B -> list Event -> E + ObsoleteLoop -> Prop),
  (forall id n, (id, n) ∈ entries -> id ∈ seen \/ preserved this n = true) ->
  (forall evs, quiet evs -> Q h evs (inr st)) ->
  wp (forOf (removeEntry roamApi this seen) st entries) h Q.
Proof.
  induction entries as [|[id n] entries IH]; intros st h Q Hentries HQ.
  - apply wp_ret. by apply HQ.
  - cbn [forOf]. unfold removeEntry at 1.
    assert (Hrest : forall id n, (id, n) ∈ entries ->
                      id ∈ seen \/ preserved this n = true)
      by (intros ? ? ?; apply Hentries; by right).
    destruct (bool_decide (id ∈ seen)) eqn:Hseen.
    + wp_steps. apply IH; [done|]. intros evs Hq. by apply HQ.
    + apply bool_decide_eq_false in Hseen.
      destruct (Hentries id n) as [?|Hpres]; [by left|done|].
      unfold preserved in Hpres. rewrite Hpres. wp_steps.
      apply IH; [done|]. intros evs' Hq'. apply HQ. auto with quiet.
Qed.

(** A pass over a converged tree skips every item and issues no backend
    call, whatever the backend would answer. *)
Lemma converged_pass parentUid items (h : Heap B) :
  converged this (getChildren roamApi parentUid (h_backend h)) items ->
  exists h' evs,
    reconcile roamApi this parentUid items h
      = (h', evs, inr (allSkipped (length items))) /\
    apiCalls evs = [] /\ h_backend h' = h_backend h.
Proof.
  intros [Hitems Hentries].
  cut (wp (reconcile roamApi this parentUid items) h
         (fun h' evs r =>
            r = inr (allSkipped (length items)) /\
            apiCalls evs = [] /\ h_backend h' = h_backend h)).
  { intros (h' & evs & r & Hrun & -> & ? & ?)%wp_exists. by exists h', evs. }
  apply wp_reconcile. intros ev0 Hq0. apply wp_bind.
  apply wp_reconcileItem_skip_loop; [done|].
  intros h1 ev1 st1 Hq1 Hb1 _ Ht Hs Hc Hu Hd Hseen. simpl in *.
  unfold removeObsolete. wp_steps. apply wp_removeEntry_none.
  { intros id n Hin. destruct (Hentries id n Hin) as [?|?]; [left|by right].
    apply Hseen. by left. }
  intros ev2 Hq2. wp_steps. split_and!; [|by calls|done].
  f_equal. destruct (h_stats h1). simpl in *. unfold allSkipped, setDeleted.
  simpl. f_equal; lia.
Qed.

End Converged.

(** * Two passes in a row *)

(** ** The in-memory backend honours the contract *)

Module PageBackendFacts.
Import PageBackend.

Lemma length_append (s1 s2 : string) :
  String.length (s1 ++ s2) = String.length s1 + String.length s2.
Proof. induction s1 as [|c s1 IH]; simpl; [done|]. by rewrite IH. Qed.

Lemma freshUid_longer nodes n :
  n ∈ nodes -> String.length (node_uid n) < String.length (freshUid nodes).
Proof.
  induction nodes as [|m nodes IH]; [by intros ?%elem_of_nil|].
  simpl. rewrite length_append. intros [->|Hn]%elem_of_cons.
  - assert (0 < String.length (freshUid nodes)); [|lia].
    clear. induction nodes as [|m nodes IH]; simpl; [lia|].
    rewrite length_append. lia.
  - specialize (IH Hn). lia.
Qed.

Lemma freshUid_fresh nodes : freshUid nodes ∉ node_uid <$> nodes.
Proof.
  intros (n & Heq & Hn)%list_elem_of_fmap.
  apply freshUid_longer in Hn. rewrite Heq in Hn. lia.
Qed.

Lemma node_uid_nodeOfPayload uid payload :
  node_uid (nodeOfPayload uid payload) = uid.
Proof. by destruct payload. Qed.

Lemma nodeOfPayload_children uid i children e c k :
  (fix go (i : nat) (children : list BlockPayload) : list RoamNode :=
     match children with
     | [] => []
     | child :: rest =>
         nodeOfPayload (uid ++ "." ++ pretty i)%string child :: go (S i) rest
     end) i children !! k = Some e ->
  children !! k = Some c ->
  e = nodeOfPayload (uid ++ "." ++ pretty (i + k))%string c.
Proof.
  revert i k. induction children as [|child rest IH]; intros i [|k]; try done.
  - intros [= <-] [= <-]. by rewrite Nat.add_0_r.
  - simpl. intros He Hc. rewrite (IH (S i) k He Hc).
    by replace (i + S k) with (S i + k) by lia.
Qed.

Lemma nodeOfPayload_children_length uid i children :
  length
    ((fix go (i : nat) (children : list BlockPayload) : list RoamNode :=
        match children with
        | [] => []
        | child :: rest =>
            nodeOfPayload (uid ++ "." ++ pretty i)%string child
              :: go (S i) rest
        end) i children)
  = length children.
Proof.
  revert i. induction children as [|child rest IH]; intros i; simpl; [done|].
  by rewrite IH.
Qed.

(** The created node mirrors the payload. *)
Lemma nodeOfPayload_structurallyEqual payload :
  forall uid, structurallyEqual (nodeOfPayload uid payload) payload.
Proof.
  induction payload as [t cs IH] using BlockPayload_ind. intros uid.
  destruct cs as [children|]; simpl.
  - constructor; simpl; [done|apply nodeOfPayload_children_length|].
    intros k e c He Hc.
    rewrite (nodeOfPayload_children _ _ _ _ _ _ He Hc).
    simpl in IH. rewrite Forall_lookup in IH. by eapply IH.
  - constructor; simpl; [done..|]. by intros [|?] ? ? ?.
Qed.

Lemma wf_update uid text (nodes : list RoamNode) :
  node_uid <$>
    ((fun n => if String.eqb (node_uid n) uid then setText text n else n)
       <$> nodes)
  = node_uid <$> nodes.
Proof.
  rewrite <- list_fmap_compose. apply list_fmap_ext. intros _ n _. simpl.
  by destruct (String.eqb _ _).
Qed.

Lemma wf_insertAt order n nodes :
  wf nodes -> node_uid n ∉ node_uid <$> nodes -> wf (insertAt order n nodes).
Proof.
  unfold wf. intros Hnd Hn. destruct order as [|i]; simpl.
  - rewrite fmap_app. apply NoDup_app. split_and!; [done| |apply NoDup_singleton].
    intros x Hx Hx'%list_elem_of_singleton. by subst x.
  - rewrite <- (take_drop i nodes) in Hnd, Hn.
    rewrite fmap_app in *. rewrite fmap_cons.
    apply NoDup_app in Hnd as (H1 & H2 & H3).
    apply NoDup_app. split_and!; [done| |].
    + intros x Hx [->|Hx']%elem_of_cons; [|by eapply H2].
      apply Hn, elem_of_app. by left.
    + apply NoDup_cons. split; [|done]. intros Hx. apply Hn, elem_of_app.
      by right.
Qed.

Lemma contract page : PageContract (api page) page wf.
Proof.
  split.
  - intros [p block order|uid text|uid] b; simpl; [|done..].
    by destruct (String.eqb p page).
  - intros [p block order|uid text|uid] b Hwf; simpl.
    + destruct (String.eqb p page); simpl; [|done].
      apply wf_insertAt; [done|].
      rewrite node_uid_nodeOfPayload. apply freshUid_fresh.
    + unfold wf. by rewrite wf_update.
    + unfold wf. eapply sublist_NoDup; [exact Hwf|].
      apply fmap_sublist, sublist_filter.
  - intros b Hwf. simpl. by rewrite String.eqb_refl.
  - intros b block Hwf. simpl. rewrite !String.eqb_refl. simpl.
    rewrite ?String.eqb_refl. eexists. split; [done|].
    apply nodeOfPayload_structurallyEqual.
  - intros b uid text Hwf Huid. simpl. rewrite String.eqb_refl.
    apply list_fmap_ext. intros _ n _.
    destruct (String.eqb (node_uid n) uid) eqn:Heq.
    + apply String.eqb_eq in Heq. by rewrite decide_True.
    + apply String.eqb_neq in Heq. by rewrite decide_False.
  - intros b uid Hwf Huid. simpl. by rewrite String.eqb_refl.
Qed.

End PageBackendFacts.

Module TwoPassExamples.
Import Examples PacingExamples.


End TwoPassExamples.

(** ** Lookups in the identifier map *)

Section Lookup.

Context {T : Type}.
Variable config : ReconcilerConfig T.

Local Abbreviation step :=
  (fun (map : JsMap.t RoamNode) node =>
     match truthy (extractIdFromBlock config node) with
     | Some id => JsMap.set id node map
     | None => map
     end).

Lemma get_fold_notin k nodes : forall acc : JsMap.t RoamNode,
  k ∉ omap (idOf config) nodes ->
  JsMap.get k (fold_left step nodes acc) = JsMap.get k acc.
Proof.
  induction nodes as [|n nodes IH]; intros acc Hk; [done|].
  cbn [fold_left]. cbn [omap list_omap] in Hk. unfold idOf in Hk at 1.
  destruct (truthy (extractIdFromBlock config n)) as [id|] eqn:Hid.
  - apply not_elem_of_cons in Hk as [Hne Hk].
    rewrite IH by done. by apply JsMapFacts.get_set_ne.
  - by apply IH.
Qed.

Lemma get_fold_in k m nodes : forall acc : JsMap.t RoamNode,
  NoDup (omap (idOf config) nodes) -> m ∈ nodes -> idOf config m = Some k ->
  JsMap.get k (fold_left step nodes acc) = Some m.
Proof.
  induction nodes as [|n nodes IH]; intros acc Hnd Hm Hk;
    [by apply elem_of_nil in Hm|].
  cbn [fold_left]. cbn [omap list_omap] in Hnd.
  apply elem_of_cons in Hm as [->|Hm].
  - rewrite Hk in Hnd. apply NoDup_cons in Hnd as [Hfresh _].
    unfold idOf in Hk. rewrite Hk.
    rewrite get_fold_notin by done. apply JsMapFacts.get_set_eq.
  - apply IH; [|done..]. destruct (idOf config n); [|done].
    by apply NoDup_cons in Hnd as [_ ?].
Qed.

(** Identifiers being distinct, a node is found under its identifier. *)
Lemma existingMapOf_lookup nodes k m :
  NoDup (omap (idOf config) nodes) -> m ∈ nodes -> idOf config m = Some k ->
  JsMap.get k (existingMapOf config nodes) = Some m.
Proof. apply get_fold_in. Qed.

Lemma existingMapOf_lookup_None nodes k :
  JsMap.get k (existingMapOf config nodes) = None ->
  forall m, m ∈ nodes -> idOf config m <> Some k.
Proof.
  unfold existingMapOf. intros Hget m Hm Hk.
  assert (Hin : k ∈ omap (idOf config) nodes).
  { apply list_elem_of_omap. by exists m. }
  clear m Hm Hk. revert Hget. generalize (@JsMap.empty RoamNode).
  induction nodes as [|n nodes IH]; intros acc Hget;
    [by apply elem_of_nil in Hin|].
  cbn [fold_left omap list_omap] in *. unfold idOf in Hin at 1.
  destruct (truthy (extractIdFromBlock config n)) as [id|] eqn:Hid.
  - destruct (decide (k ∈ omap (idOf config) nodes)) as [Hk|Hk];
      [by eapply IH|].
    apply elem_of_cons in Hin as [->|?]; [|done].
    rewrite get_fold_notin in Hget by done.
    by rewrite JsMapFacts.get_set_eq in Hget.
  - by eapply IH.
Qed.

End Lookup.

Lemma structurallyEqual_text n p :
  structurallyEqual n p -> node_text n = bp_text p.
Proof. by inversion 1. Qed.

Lemma setText_same n : setText (node_text n) n = n.
Proof. by destruct n. Qed.

(** ** The first pass *)

Lemma omap_fmap_ext {A C : Type} (f : A -> option C) (g : A -> A)
    (l : list A) :
  (forall x, x ∈ l -> f (g x) = f x) -> omap f (g <$> l) = omap f l.
Proof.
  induction l as [|x l IH]; intros Hfg; [done|].
  rewrite fmap_cons. cbn [omap list_omap].
  rewrite Hfg by (by left). rewrite IH; [done|].
  intros y Hy. apply Hfg. by right.
Qed.

Lemma omap_filter_sublist {A C : Type} (f : A -> option C) (P : A -> Prop)
    `{forall x, Decision (P x)} (l : list A) :
  omap f (filter P l) `sublist_of` omap f l.
Proof.
  induction l as [|x l IH]; [done|].
  destruct (decide (P x)).
  - rewrite filter_cons_True by done. cbn [omap list_omap].
    destruct (f x); [by apply sublist_skip|done].
  - rewrite filter_cons_False by done. cbn [omap list_omap].
    destruct (f x); [by apply sublist_cons|done].
Qed.

Section FirstPass.

Context {B E T : Type}.
Variable roamApi : RoamApiAdapter B E.
Variable page : string.
Variable wf : B -> Prop.
Hypothesis Hcontract : PageContract roamApi page wf.
Variable this : BlockReconciler T.
Variable items : list T.
Variable nodes0 : list RoamNode.

Local Abbreviation config := (br_config this).
Local Abbreviation fetch := (getChildren roamApi page).
Local Abbreviation map0 := (existingMapOf config nodes0).
Local Abbreviation Inv := (passInv roamApi page wf this nodes0).
Local Abbreviation ids := (fmap (M:=list) (extractId config)).

Hypothesis Hnosync : forall item, item ∈ items ->
  childrenReconciler this = None \/
  bp_children (buildBlock config item) = None.
Hypothesis Hconsistent : forall item n, item ∈ items ->
  node_text n = bp_text (buildBlock config item) ->
  extractIdFromBlock config n = Some (extractId config item).
Hypothesis Hnonempty : forall item, item ∈ items -> extractId config item <> "".
Hypothesis Hnodes : NoDup (omap (idOf config) nodes0).
Hypothesis Hchildren : forall item n, item ∈ items ->
  JsMap.get (extractId config item) map0 = Some n ->
  structurallyEqual (setText (bp_text (buildBlock config item)) n)
    (buildBlock config item).

(** A node structurally equal to the payload of an item carries the
    identifier of the item. *)
Lemma idOf_settled item m :
  item ∈ items -> structurallyEqual m (buildBlock config item) ->
  idOf config m = Some (extractId config item).
Proof.
  intros Hitem Heq%structurallyEqual_text. unfold idOf.
  rewrite (Hconsistent item m Hitem Heq). simpl.
  apply Hnonempty, String.eqb_neq in Hitem. by rewrite Hitem.
Qed.

Lemma map0_entry k n :
  JsMap.get k map0 = Some n -> n ∈ nodes0 /\ idOf config n = Some k.
Proof.
  intros Hget%JsMapFacts.get_Some_In%list_elem_of_In.
  exact (existingMapOf_In _ _ _ _ Hget).
Qed.

Lemma Inv_init b0 : wf b0 -> nodes0 = fetch b0 -> Inv [] b0.
Proof.
  intros Hwf Hfetch. unfold passInv. rewrite <- Hfetch. split_and!; try done.
  - by intros i ?%elem_of_nil.
  - intros k n Hin _. by destruct (existingMapOf_In _ _ _ _ Hin) as [? _].
  - intros m Hm. by left.
Qed.

Lemma Inv_skip done item n b :
  Inv done b -> JsMap.get (extractId config item) map0 = Some n ->
  extractId config item ∉ ids done ->
  structurallyEqual n (buildBlock config item) ->
  Inv (done ++ [item]) b.
Proof.
  intros (Hwf & H2 & H3 & H4 & H5) Hget Hnew Heq.
  assert (Hn : n ∈ fetch b).
  { apply (H3 (extractId config item)); [|done].
    by apply list_elem_of_In, JsMapFacts.get_Some_In. }
  split_and!; try done.
  - intros i [Hi|Hi%list_elem_of_singleton]%elem_of_app; [auto|].
    subst i. by exists n.
  - intros k n' Hin Hk. apply (H3 k); [done|]. intros Hk'. apply Hk.
    rewrite fmap_app. apply elem_of_app. by left.
  - intros m Hm. destruct (H5 m Hm) as [?|(i & Hi & ?)]; [by left|right].
    exists i. split; [|done]. apply elem_of_app. by left.
Qed.

Lemma Inv_update done item n b :
  Inv done b -> (forall i, i ∈ done -> i ∈ items) -> item ∈ items ->
  JsMap.get (extractId config item) map0 = Some n ->
  extractId config item ∉ ids done ->
  Inv (done ++ [item])
    (perform roamApi
       (UpdateBlock (node_uid n) (bp_text (buildBlock config item))) b).1.
Proof.
  intros (Hwf & H2 & H3 & H4 & H5) Hdone Hitem Hget Hnew.
  destruct (map0_entry _ _ Hget) as [Hn0 Hidn].
  assert (Hn : n ∈ fetch b).
  { apply (H3 (extractId config item)); [|done].
    by apply list_elem_of_In, JsMapFacts.get_Some_In. }
  pose proof (contract_uids _ _ _ Hcontract b Hwf) as Huids.
  pose proof (Hchildren item n Hitem Hget) as Hnew_eq.
  set (text := bp_text (buildBlock config item)) in *.
  set (upd := fun m : RoamNode =>
                if decide (node_uid m = node_uid n) then setText text m
                else m).
  assert (Hfetch : fetch (perform roamApi (UpdateBlock (node_uid n) text) b).1
                   = upd <$> fetch b).
  { apply (contract_update _ _ _ Hcontract); [done|].
    by apply list_elem_of_fmap_2. }
  assert (Hupd_n : upd n = setText text n).
  { unfold upd. by rewrite decide_True. }
  assert (Hupd_other : forall m, m ∈ fetch b -> idOf config m <> Some (extractId config item) ->
                         upd m = m).
  { intros m Hm Hid. unfold upd. destruct (decide _) as [Huid|]; [|done].
    assert (m = n) as -> by (by eapply (NoDup_fmap_eq node_uid)).
    done. }
  unfold passInv. rewrite Hfetch. split_and!.
  - by apply (contract_wf _ _ _ Hcontract).
  - intros i [Hi|Hi%list_elem_of_singleton]%elem_of_app.
    + destruct (H2 i Hi) as (m & Hm & Heq). exists m. split; [|done].
      rewrite <- (Hupd_other m); [by apply list_elem_of_fmap_2|done|].
      rewrite (idOf_settled i m); [|by apply Hdone|done].
      intros [= Hid]. apply Hnew. rewrite <- Hid. by apply list_elem_of_fmap_2.
    + subst i. exists (setText text n). split; [|done].
      rewrite <- Hupd_n. by apply list_elem_of_fmap_2.
  - intros k n' Hin Hk.
    rewrite fmap_app in Hk. apply not_elem_of_app in Hk as [Hk Hne].
    destruct (existingMapOf_In _ _ _ _ Hin) as [_ Hidn'].
    rewrite <- (Hupd_other n'); [apply list_elem_of_fmap_2; by apply (H3 k)|
                                  by apply (H3 k)|].
    unfold idOf. rewrite Hidn'. intros [= ->]. apply Hne. by left.
  - rewrite omap_fmap_ext; [done|]. intros m Hm. unfold upd.
    destruct (decide _) as [Huid|]; [|done].
    assert (m = n) as -> by (by eapply (NoDup_fmap_eq node_uid)).
    by rewrite Hidn, (idOf_settled item).
  - intros m' (m & -> & Hm)%list_elem_of_fmap. unfold upd.
    destruct (decide _) as [Huid|].
    + assert (m = n) as -> by (by eapply (NoDup_fmap_eq node_uid)).
      right. exists item. split; [|done]. apply elem_of_app. right. by left.
    + destruct (H5 m Hm) as [?|(i & Hi & ?)]; [by left|right].
      exists i. split; [|done]. apply elem_of_app. by left.
Qed.

Lemma Inv_create done item b :
  Inv done b -> (forall i, i ∈ done -> i ∈ items) -> item ∈ items ->
  JsMap.get (extractId config item) map0 = None ->
  extractId config item ∉ ids done ->
  Inv (done ++ [item])
    (perform roamApi (CreateBlock page (buildBlock config item) OrderLast)
       b).1.
Proof.
  intros (Hwf & H2 & H3 & H4 & H5) Hdone Hitem Hget Hnew.
  destruct (contract_create _ _ _ Hcontract b (buildBlock config item) Hwf)
    as (m & Hfetch & Heq).
  unfold passInv. rewrite Hfetch. split_and!.
  - by apply (contract_wf _ _ _ Hcontract).
  - intros i [Hi|Hi%list_elem_of_singleton]%elem_of_app.
    + destruct (H2 i Hi) as (m' & Hm' & Heq'). exists m'.
      split; [|done]. apply elem_of_app. by left.
    + subst i. exists m. split; [|done]. apply elem_of_app. right. by left.
  - intros k n Hin Hk. apply elem_of_app. left. apply (H3 k); [done|].
    intros Hk'. apply Hk. rewrite fmap_app. apply elem_of_app. by left.
  - rewrite omap_app. cbn [omap list_omap].
    rewrite (idOf_settled item m) by done.
    apply NoDup_app. split_and!; [done| |apply NoDup_singleton].
    intros k Hk Hk'%list_elem_of_singleton. subst k.
    apply list_elem_of_omap in Hk as (m' & Hm' & Hid').
    destruct (H5 m' Hm') as [Hm0|(i & Hi & Heq')].
    + by eapply existingMapOf_lookup_None.
    + rewrite (idOf_settled i m') in Hid'; [|by apply Hdone|done].
      injection Hid' as Hid'. apply Hnew. rewrite <- Hid'.
      by apply list_elem_of_fmap_2.
  - intros m' [Hm'|Hm'%list_elem_of_singleton]%elem_of_app.
    + destruct (H5 m' Hm') as [?|(i & Hi & ?)]; [by left|right].
      exists i. split; [|done]. apply elem_of_app. by left.
    + subst m'. right. exists item. split; [|done].
      apply elem_of_app. right. by left.
Qed.

Hypothesis Hitems : NoDup (ids items).

Lemma wp_reconcileItem_pass done item st (h : Heap B)
    (Q : Heap B -> list Event -> E + ItemLoop -> Prop) :
  Inv done (h_backend h) -> (forall i, i ∈ done -> i ∈ items) ->
  item ∈ items -> extractId config item ∉ ids done ->
  (forall h' evs,
     Inv (done ++ [item]) (h_backend h') ->
     Q h' evs
       (inr (mkItemLoop ({[ extractId config item ]} ∪ seenIds st)
               (S (il_operationCount st))))) ->
  wp (reconcileItem roamApi this page map0 st item) h Q.
Proof.
  intros HInv Hdone Hitem Hnew HQ.
  pose proof (contract_resolves _ _ _ Hcontract) as Hres.
  unfold reconcileItem.
  destruct (JsMap.get (extractId config item) map0) as [n|] eqn:Hget.
  - destruct (isUnchanged n (buildBlock config item)) eqn:Hun.
    + wp_steps. apply wp_maybeYieldToMain. intros ev1 Hq1. wp_steps.
      apply wp_reportProgress. intros ev2 Hq2. wp_steps.
      apply HQ. simpl. eapply Inv_skip; [done..|].
      by apply isUnchanged_structurallyEqual.
    + assert (Htext : String.eqb (node_text n)
                        (bp_text (buildBlock config item)) = false).
      { apply not_true_is_false. intros Htext%String.eqb_eq.
        pose proof (Hchildren item n Hitem Hget) as Heq.
        rewrite <- Htext, setText_same in Heq.
        apply isUnchanged_structurallyEqual in Heq. congruence. }
      unfold updateExistingBlock. rewrite Htext. cbn [negb].
      destruct (Hnosync item Hitem) as [Hnone|Hnone]; rewrite Hnone;
        [|destruct (childrenReconciler this)];
        wp_steps; (apply wp_await_resolves; [done|]); cbv beta iota;
        wp_steps; apply wp_maybeYieldToMain; intros ev1 Hq1; wp_steps;
        apply wp_reportProgress; intros ev2 Hq2; wp_steps;
        apply HQ; simpl; by apply Inv_update.
  - unfold createNewBlock. wp_steps.
    apply wp_await_resolves; [done|]. cbv beta iota. wp_steps.
    apply wp_maybeYieldToMain. intros ev1 Hq1. wp_steps.
    apply wp_reportProgress. intros ev2 Hq2. wp_steps.
    apply HQ. simpl. by apply Inv_create.
Qed.

Lemma wp_items_pass rest : forall done st (h : Heap B)
    (Q : Heap B -> list Event -> E + ItemLoop -> Prop),
  Inv done (h_backend h) ->
  (forall i, i ∈ done ++ rest -> i ∈ items) ->
  NoDup (ids (done ++ rest)) ->
  (forall h' evs st',
     Inv (done ++ rest) (h_backend h') ->
     (forall id, id ∈ seenIds st' <-> id ∈ ids rest \/ id ∈ seenIds st) ->
     Q h' evs (inr st')) ->
  wp (forOf (reconcileItem roamApi this page map0) st rest) h Q.
Proof.
  induction rest as [|item rest IH]; intros done st h Q HInv Hsub Hnd HQ.
  - apply wp_ret. apply HQ; [by rewrite app_nil_r|].
    intros id. split; [by right|]. by intros [?%elem_of_nil|?].
  - cbn [forOf]. apply wp_bind.
    assert (Hnew : extractId config item ∉ ids done).
    { rewrite fmap_app, fmap_cons in Hnd.
      apply NoDup_app in Hnd as (_ & Hdisj & _). intros Hin.
      apply (Hdisj _ Hin). by left. }
    apply (wp_reconcileItem_pass done); [done| | |done|].
    { intros i Hi. apply Hsub, elem_of_app. by left. }
    { apply Hsub, elem_of_app. right. by left. }
    intros h1 ev1 HInv1.
    apply (IH (done ++ [item])); [done|by rewrite <- app_assoc..|].
    intros h2 ev2 st2 HInv2 Hseen. rewrite <- app_assoc in HInv2.
    apply HQ; [done|].
    intros id. rewrite Hseen. simpl.
    rewrite elem_of_cons, elem_of_union, elem_of_singleton. tauto.
Qed.

Lemma wp_removeEntry_pass seen entries : forall st (h : Heap B)
    (Q : Heap B -> list Event -> E + ObsoleteLoop -> Prop),
  wf (h_backend h) ->
  (forall k n, (k, n) ∈ entries -> k ∉ seen -> preserved this n = false ->
     n ∈ fetch (h_backend h)) ->
  NoDup ((fun kv => node_uid kv.2) <$> obsolete this entries seen) ->
  (forall h' evs st',
     fetch (h_backend h')
       = filter (fun m => node_uid m
                            ∉ (fun kv => node_uid kv.2)
                                <$> obsolete this entries seen)
           (fetch (h_backend h)) ->
     Q h' evs (inr st')) ->
  wp (forOf (removeEntry roamApi this seen) st entries) h Q.
Proof.
  pose proof (contract_resolves _ _ _ Hcontract) as Hres.
  induction entries as [|[k n] entries IH]; intros st h Q Hwf Hin Hnd HQ.
  - apply wp_ret. apply HQ. symmetry. apply JsMapFacts.filter_all.
    apply Forall_forall. intros m _. apply not_elem_of_nil.
  - assert (Hrest : forall k' n', (k', n') ∈ entries -> k' ∉ seen ->
                      preserved this n' = false -> n' ∈ fetch (h_backend h))
      by (intros ? ? ?; apply Hin; by right).
    cbn [forOf]. unfold removeEntry at 1. unfold obsolete in *.
    destruct (bool_decide (k ∈ seen)) eqn:Hseen.
    + apply bool_decide_eq_true in Hseen.
      rewrite filter_cons_False in HQ, Hnd by (simpl; tauto).
      wp_steps. by apply IH.
    + apply bool_decide_eq_false in Hseen.
      fold (preserved this n).
      destruct (preserved this n) eqn:Hpres.
      * rewrite filter_cons_False in HQ, Hnd
          by (simpl; rewrite Hpres; intros [_ ?]; done).
        wp_steps. apply IH; [done..|].
        intros h' evs' st' Hfetch. by apply HQ.
      * rewrite filter_cons_True in HQ, Hnd by done.
        rewrite fmap_cons in HQ, Hnd. simpl in HQ, Hnd.
        apply NoDup_cons in Hnd as [Hfresh Hnd].
        assert (Hn : n ∈ fetch (h_backend h)) by (apply (Hin k); [by left|done..]).
        wp_steps. apply wp_await_resolves; [done|]. cbv beta iota. wp_steps.
        apply wp_maybeYieldToMain. intros ev2 Hq2. wp_steps.
        pose proof (contract_delete _ _ _ Hcontract (h_backend h) (node_uid n)
                      Hwf (list_elem_of_fmap_2 node_uid _ _ Hn)) as Hdel.
        apply IH; cbn [h_backend].
        -- by apply (contract_wf _ _ _ Hcontract).
        -- intros k' n' Hin' Hk' Hp'. rewrite Hdel.
           apply list_elem_of_filter. split; [|by apply (Hrest k')].
           intros Huid. apply Hfresh. rewrite <- Huid.
           apply (list_elem_of_fmap_2 (fun kv : string * RoamNode => node_uid kv.2)
                    _ (k', n')).
           by apply list_elem_of_filter.
        -- done.
        -- intros h' evs' st' Hfetch. apply HQ. rewrite Hfetch, Hdel.
           rewrite list_filter_filter. apply list_filter_iff.
           intros m. rewrite not_elem_of_cons. tauto.
Qed.

Lemma obsolete_entry seen b k n :
  Inv items b -> (forall id, id ∈ seen <-> id ∈ ids items) ->
  (k, n) ∈ obsolete this map0 seen ->
  (k ∉ ids items) /\ preserved this n = false /\ n ∈ fetch b /\
  idOf config n = Some k.
Proof.
  intros (_ & _ & H3 & _) Hseen [[Hk Hpres] Hin]%list_elem_of_filter.
  simpl in *. rewrite Hseen in Hk.
  destruct (existingMapOf_In _ _ _ _ Hin) as [_ Hid].
  split_and!; try done. by apply (H3 k).
Qed.

Lemma obsolete_uids_NoDup seen b :
  Inv items b -> (forall id, id ∈ seen <-> id ∈ ids items) ->
  NoDup ((fun kv => node_uid kv.2) <$> obsolete this map0 seen).
Proof.
  intros HInv Hseen.
  pose proof HInv as (Hwf & _).
  pose proof (contract_uids _ _ _ Hcontract b Hwf) as Huids.
  apply NoDup_fmap_2_strong.
  - intros [k n] [k' n'] Hx Hy Huid. simpl in Huid.
    destruct (obsolete_entry _ _ _ _ HInv Hseen Hx) as (_ & _ & Hn & Hid).
    destruct (obsolete_entry _ _ _ _ HInv Hseen Hy) as (_ & _ & Hn' & Hid').
    assert (n = n') as <- by (by eapply (NoDup_fmap_eq node_uid)).
    congruence.
  - apply NoDup_filter. eapply (NoDup_fmap_1 fst).
    apply (existingMapOf_NoDup config nodes0).
Qed.

(** The tree the first pass leaves is converged. *)
Lemma converged_after seen b (nodes1 : list RoamNode) :
  Inv items b -> (forall id, id ∈ seen <-> id ∈ ids items) ->
  nodes1
    = filter (fun m => node_uid m
                         ∉ (fun kv => node_uid kv.2)
                             <$> obsolete this map0 seen)
        (fetch b) ->
  converged this nodes1 items.
Proof.
  intros HInv Hseen ->.
  pose proof HInv as (Hwf & H2 & H3 & H4 & H5).
  pose proof (contract_uids _ _ _ Hcontract b Hwf) as Huids.
  assert (Hkept : forall m k, m ∈ fetch b -> idOf config m = Some k ->
            k ∈ ids items \/ preserved this m = true ->
            node_uid m ∉ (fun kv => node_uid kv.2)
                           <$> obsolete this map0 seen).
  { intros m k Hm Hid Hcase ([k' n] & Huid & Hin)%list_elem_of_fmap.
    simpl in Huid.
    destruct (obsolete_entry _ _ _ _ HInv Hseen Hin)
      as (Hk' & Hpres & Hn & Hid').
    assert (m = n) as -> by (by eapply (NoDup_fmap_eq node_uid)).
    destruct Hcase as [?|?]; congruence. }
  split.
  - intros item Hitem. destruct (H2 item Hitem) as (m & Hm & Heq).
    exists m. split; [|done].
    pose proof (idOf_settled item m Hitem Heq) as Hid.
    apply existingMapOf_lookup; [|apply list_elem_of_filter|done].
    + eapply sublist_NoDup; [exact H4|]. apply omap_filter_sublist.
    + split; [|done]. apply (Hkept m _ Hm Hid). left.
      by apply list_elem_of_fmap_2.
  - intros k m Hin.
    destruct (existingMapOf_In _ _ _ _ Hin) as [[Hnot Hm]%list_elem_of_filter
                                                  Hid].
    destruct (H5 m Hm) as [Hm0|(i & Hi & Heq)].
    + destruct (decide (k ∈ seen)) as [Hk|Hk]; [left; by apply Hseen|].
      destruct (preserved this m) eqn:Hpres; [by right|].
      destruct Hnot.
      apply (list_elem_of_fmap_2 (fun kv : string * RoamNode => node_uid kv.2)
               _ (k, m)).
      apply list_elem_of_filter. split; [done|].
      apply list_elem_of_In, JsMapFacts.get_Some_In.
      by apply existingMapOf_lookup.
    + left. fold (idOf config m) in Hid.
      rewrite (idOf_settled i m Hi Heq) in Hid. injection Hid as <-.
      by apply list_elem_of_fmap_2.
Qed.

(** The first pass completes and leaves a converged tree. *)
Lemma first_pass_converges (h : Heap B) :
  wf (h_backend h) -> nodes0 = fetch (h_backend h) ->
  exists h1 ev1 stats1,
    reconcile roamApi this page items h = (h1, ev1, inr stats1) /\
    converged this (fetch (h_backend h1)) items.
Proof.
  intros Hwf Hnodes0.
  cut (wp (reconcile roamApi this page items) h
         (fun h1 ev1 r => exists stats1, r = inr stats1 /\
            converged this (fetch (h_backend h1)) items)).
  { intros (h1 & ev1 & r & Hrun & stats1 & -> & ?)%wp_exists.
    by exists h1, ev1, stats1. }
  apply wp_reconcile. intros ev0 Hq0. rewrite <- Hnodes0.
  apply wp_bind. apply (wp_items_pass items []); try done.
  { by apply Inv_init. }
  intros h1 ev1 st1 HInv Hseen. simpl in HInv.
  assert (Hseen' : forall id, id ∈ seenIds st1 <-> id ∈ ids items).
  { intros id. rewrite Hseen. split; [|by left].
    by intros [?|?%elem_of_empty]. }
  unfold removeObsolete. apply wp_bind. apply wp_bind.
  apply wp_removeEntry_pass.
  - by destruct HInv.
  - intros k n Hin Hk _. destruct HInv as (_ & _ & H3 & _).
    apply (H3 k); [done|]. by rewrite <- Hseen'.
  - by eapply obsolete_uids_NoDup.
  - intros h2 ev2 st2 Hfetch. wp_steps. eexists. split; [done|].
    simpl. by eapply converged_after.
Qed.


End FirstPass.

Module TwoPassWitness.
Import Examples TopExamples.


End TwoPassWitness.

(** ** Skip or update *)

Section ItemFacts.

Context {B E T : Type}.
Variable roamApi : RoamApiAdapter B E.
Variable this : BlockReconciler T.

Local Abbreviation config := (br_config this).

(** The identifier map leads from the identifier of an item to the node
    the item is matched with. *)
Lemma matchOf_get nodes item n :
  matchOf config nodes item n ->
  JsMap.get (extractId config item) (existingMapOf config nodes) = Some n.
Proof.
  intros (pre & post & -> & Hid & Hpost). unfold existingMapOf.
  rewrite fold_left_app. cbn [fold_left]. rewrite get_fold_notin.
  - unfold idOf in Hid. rewrite Hid. apply JsMapFacts.get_set_eq.
  - intros (m & Hm & Hin)%list_elem_of_omap. by eapply Hpost.
Qed.

Lemma get_matchOf nodes item n :
  JsMap.get (extractId config item) (existingMapOf config nodes) = Some n ->
  matchOf config nodes item n.
Proof.
  unfold existingMapOf, matchOf.
  induction nodes as [|x l IH] using rev_ind; [done|].
  rewrite fold_left_app. cbn [fold_left].
  destruct (truthy (extractIdFromBlock config x)) as [id|] eqn:Hid.
  - destruct (decide (id = extractId config item)) as [->|Hne].
    + rewrite JsMapFacts.get_set_eq. intros [= ->]. exists l, [].
      split_and!; [done..|]. by intros m ?%elem_of_nil.
    + rewrite JsMapFacts.get_set_ne by done.
      intros (pre & post & -> & Hn & Hpost)%IH.
      exists pre, (post ++ [x]). split_and!; [by rewrite <- app_assoc|done|].
      intros m [?|Hx%list_elem_of_singleton]%elem_of_app; [by apply Hpost|].
      subst m. unfold idOf. rewrite Hid. congruence.
  - intros (pre & post & -> & Hn & Hpost)%IH.
    exists pre, (post ++ [x]). split_and!; [by rewrite <- app_assoc|done|].
    intros m [?|Hx%list_elem_of_singleton]%elem_of_app; [by apply Hpost|].
    subst m. unfold idOf. by rewrite Hid.
Qed.

Lemma unmatched_get nodes item :
  unmatched config nodes item <->
  JsMap.get (extractId config item) (existingMapOf config nodes) = None.
Proof.
  split; [|unfold unmatched; apply existingMapOf_lookup_None].
  intros Hnone. unfold existingMapOf. rewrite get_fold_notin; [done|].
  intros (m & Hm & Hin)%list_elem_of_omap. by eapply Hnone.
Qed.

(** An item is of one kind only. *)
Lemma skippable_not_changed nodes item :
  skippable config nodes item -> ~ changed config nodes item.
Proof.
  intros (n & Hn%matchOf_get & Heq) (n' & Hn'%matchOf_get & Hne).
  congruence.
Qed.

Lemma matched_not_unmatched nodes item n :
  matchOf config nodes item n -> ~ unmatched config nodes item.
Proof. intros Hn%matchOf_get Hnone%unmatched_get. congruence. Qed.

(** What one iteration of the item loop counts. *)
Lemma wp_reconcileItem_kind parentUid nodes st item (h : Heap B) :
  wp (reconcileItem roamApi this parentUid (existingMapOf config nodes) st
        item) h
    (fun h' _ r => forall st', r = inr st' ->
       (skippable config nodes item /\
        h_stats h' = incSkipped (h_stats h)) \/
       (changed config nodes item /\ h_stats h' = incUpdated (h_stats h)) \/
       (unmatched config nodes item /\
        h_stats h' = incCreated (h_stats h))).
Proof.
  assert (Htail : forall (h1 : Heap B) (P : Prop),
    P ->
    wp (maybeYieldToMain this (S (il_operationCount st)) ;;
        reportProgress this ;;
        ret (mkItemLoop ({[ extractId config item ]} ∪ seenIds st)
               (S (il_operationCount st)))) h1
      (fun h' _ (r : E + ItemLoop) =>
         forall st', r = inr st' -> P /\ h_stats h' = h_stats h1)).
  { intros h1 P HP. apply wp_bind, wp_maybeYieldToMain. intros ev1 _.
    apply wp_bind, wp_reportProgress. intros ev2 _. by apply wp_ret. }
  unfold reconcileItem. apply wp_bind.
  destruct (JsMap.get _ _) as [existingNode|] eqn:Hget.
  - pose proof (get_matchOf _ _ _ Hget) as Hmatch.
    destruct (isUnchanged _ _) eqn:Hun.
    + apply wp_bind, wp_modifyStats. cbv beta iota.
      apply wp_debug. intros ev1 _. cbv beta iota.
      eapply wp_mono; [apply (Htail _ (skippable config nodes item))|].
      * exists existingNode. split; [done|].
        by apply isUnchanged_structurallyEqual.
      * intros h2 ev2 r2 H2 st' ->. left. by apply (H2 st').
    + apply JsMapFacts.get_Some_In, list_elem_of_In, existingMapOf_In in Hget
        as [Hin Hid].
      apply wp_bind. eapply wp_mono.
      { apply (sound_updateExistingBlock roamApi this parentUid nodes
                 existingNode (buildBlock config item)); [done|].
        unfold mapped. by rewrite Hid. }
      intros h1 ev1 [e|[]] (_ & Hsame & _); [done|].
      unfold sameStats in Hsame.
      apply wp_bind, wp_modifyStats. cbv beta iota.
      apply wp_debug. intros ev2 _. cbv beta iota.
      eapply wp_mono; [apply (Htail _ (changed config nodes item))|].
      * exists existingNode. split; [done|].
        rewrite <- isUnchanged_structurallyEqual. by rewrite Hun.
      * intros h2 ev3 r3 H3 st' ->. right. left.
        destruct (H3 st' eq_refl) as [? ->]. simpl. by rewrite Hsame.
  - unfold createNewBlock. apply wp_bind, wp_await.
    intros b' [e|] _; [done|].
    apply wp_bind, wp_modifyStats. cbv beta iota.
    apply wp_debug. intros ev2 _. cbv beta iota.
    eapply wp_mono; [apply (Htail _ (unmatched config nodes item))|].
    * by apply unmatched_get.
    * intros h2 ev3 r3 H3 st' ->. right. right. by apply (H3 st').
Qed.

Lemma wp_items_kind parentUid nodes items : forall st (h : Heap B),
  wp (forOf (reconcileItem roamApi this parentUid
               (existingMapOf config nodes)) st items) h
    (fun h' _ r => forall st', r = inr st' ->
       exists a b c,
         counts (skippable config nodes) items a /\
         counts (changed config nodes) items b /\
         counts (unmatched config nodes) items c /\
         h_stats h'
           = {| total := total (h_stats h);
                skipped := skipped (h_stats h) + a;
                created := created (h_stats h) + c;
                updated := updated (h_stats h) + b;
                deleted := deleted (h_stats h) |}).
Proof.
  induction items as [|item items IH]; intros st h.
  - apply wp_ret. intros _ _. exists 0, 0, 0.
    split_and!; [constructor..|]. destruct (h_stats h). simpl.
    f_equal; lia.
  - cbn [forOf]. apply wp_bind.
    eapply wp_mono; [apply wp_reconcileItem_kind|].
    intros h1 ev1 [e|st1] H1; [done|].
    eapply wp_mono; [apply IH|].
    intros h2 ev2 r2 H2 st2 ->.
    destruct (H2 st2 eq_refl) as (a & b & c & Ha & Hb & Hc & ->).
    destruct (H1 st1 eq_refl) as [[Hk ->]|[[Hk ->]|[Hk ->]]]; simpl.
    + exists (S a), b, c. split_and!.
      * by constructor.
      * apply counts_no; [by apply skippable_not_changed|done].
      * apply counts_no; [|done]. destruct Hk as (n & Hn & _).
        by eapply matched_not_unmatched.
      * f_equal; lia.
    + exists a, (S b), c. split_and!.
      * apply counts_no; [|done]. intros Hs.
        by apply (skippable_not_changed nodes item).
      * by constructor.
      * apply counts_no; [|done]. destruct Hk as (n & Hn & _).
        by eapply matched_not_unmatched.
      * f_equal; lia.
    + exists a, b, (S c). split_and!.
      * apply counts_no; [|done]. intros (n & Hn & _).
        by eapply matched_not_unmatched.
      * apply counts_no; [|done]. intros (n & Hn & _).
        by eapply matched_not_unmatched.
      * by constructor.
      * f_equal; lia.
Qed.

(** The node of a skipped item and its children are out of reach of the
    calls made for any other node. *)
Section Untouched.

Variable parentUid : string.
Variable nodes : list RoamNode.
Variable n : RoamNode.
Hypothesis Hn : n ∈ nodes.
Hypothesis Hnd : NoDup (parentUid :: fetchedUids nodes).

Local Abbreviation away :=
  (fun c : Call =>
     target c ∉ node_uid n :: (node_uid <$> orEmpty (node_children n))).

Lemma away_parent block order : away (CreateBlock parentUid block order).
Proof.
  simpl. intros Hin. apply NoDup_cons in Hnd as [Hparent _]. apply Hparent.
  apply list_elem_of_In, in_flat_map. exists n.
  split; by apply list_elem_of_In.
Qed.

Lemma away_other m a :
  m ∈ nodes -> m <> n ->
  a ∈ node_uid m :: (node_uid <$> orEmpty (node_children m)) ->
  a ∉ node_uid n :: (node_uid <$> orEmpty (node_children n)).
Proof.
  intros Hm Hne Ha Ha'. apply Hne. apply NoDup_cons in Hnd as [_ Hnd'].
  by eapply (NoDup_flat_map_eq _ nodes _ _ a).
Qed.

Lemma away_itemCall m c :
  m ∈ nodes -> m <> n -> itemCall this parentUid [m] c -> away c.
Proof.
  intros Hm Hne [[block ->]|(m' & ->%list_elem_of_singleton & _ & Hcase)].
  { apply away_parent. }
  destruct Hcase as [[text ->]|(reconciler & _ & Hch)]; simpl.
  - apply (away_other m); [done..|by left].
  - destruct c as [p block order|uid text|uid]; simpl in *.
    + destruct Hch as [-> _]. apply (away_other m); [done..|by left].
    + destruct Hch as (ch & Hch & <- & _). apply (away_other m); [done..|].
      right. by apply list_elem_of_fmap_2.
    + destruct Hch as (ch & Hch & <- & _). apply (away_other m); [done..|].
      right. by apply list_elem_of_fmap_2.
Qed.

Variable id : string.
Hypothesis Hget : JsMap.get id (existingMapOf config nodes) = Some n.

Lemma entry_of_node k : (k, n) ∈ existingMapOf config nodes -> k = id.
Proof.
  intros [_ Hk]%existingMapOf_In.
  apply JsMapFacts.get_Some_In, list_elem_of_In, existingMapOf_In in Hget
    as [_ Hid].
  congruence.
Qed.

Lemma wp_reconcileItem_away st item (h : Heap B) :
  (extractId config item = id ->
   structurallyEqual n (buildBlock config item)) ->
  wp (reconcileItem roamApi this parentUid (existingMapOf config nodes) st
        item) h
    (fun _ evs _ => Forall away (apiCalls evs)).
Proof.
  intros Hitem.
  assert (Htail : forall h1 : Heap B,
    wp (maybeYieldToMain this (S (il_operationCount st)) ;;
        reportProgress this ;;
        ret (mkItemLoop ({[ extractId config item ]} ∪ seenIds st)
               (S (il_operationCount st)))) h1
      (fun _ ev2 (_ : E + ItemLoop) => quiet ev2)).
  { intros h1. apply wp_bind, wp_maybeYieldToMain. intros ev2 Hq2.
    apply wp_bind, wp_reportProgress. intros ev3 Hq3. apply wp_ret.
    unfold quiet. by calls. }
  unfold reconcileItem. apply wp_bind.
  destruct (JsMap.get (extractId config item) _) as [m|] eqn:Hm.
  - destruct (isUnchanged m (buildBlock config item)) eqn:Hun.
    + apply wp_bind, wp_modifyStats. cbv beta iota.
      apply wp_debug. intros ev1 Hq1. cbv beta iota.
      eapply wp_mono; [apply Htail|]. intros h2 ev2 r2 Hq2. cbv beta in Hq2.
      calls.
      constructor.
    + assert (Hne : m <> n).
      { intros ->.
        assert (extractId config item = id) as Hid.
        { apply entry_of_node.
          by apply list_elem_of_In, JsMapFacts.get_Some_In. }
        apply Hitem, isUnchanged_structurallyEqual in Hid. congruence. }
      apply JsMapFacts.get_Some_In, list_elem_of_In, existingMapOf_In in Hm
        as [Hin Hid].
      apply wp_bind. eapply wp_mono.
      { apply (sound_updateExistingBlock roamApi this parentUid [m] m
                 (buildBlock config item)); [by left|].
        unfold mapped. by rewrite Hid. }
      intros h1 ev1 [e|[]] (Hcalls & _).
      { eapply Forall_impl; [done|]. intros c. by apply away_itemCall. }
      apply wp_bind, wp_modifyStats. cbv beta iota.
      apply wp_debug. intros ev2 Hq2. cbv beta iota.
      eapply wp_mono; [apply Htail|]. intros h2 ev3 r3 Hq3. cbv beta in Hq3.
      calls.
      rewrite ?app_nil_r.
      eapply Forall_impl; [done|]. intros c. by apply away_itemCall.
  - unfold createNewBlock. apply wp_bind, wp_await.
    intros b' [e|] _.
    { calls. constructor; [apply away_parent|constructor]. }
    apply wp_bind, wp_modifyStats. cbv beta iota.
    apply wp_debug. intros ev2 Hq2. cbv beta iota.
    eapply wp_mono; [apply Htail|]. intros h2 ev3 r3 Hq3. cbv beta in Hq3.
      calls.
    constructor; [apply away_parent|constructor].
Qed.

Lemma wp_items_away items : forall st (h : Heap B),
  (forall item, item ∈ items -> extractId config item = id ->
     structurallyEqual n (buildBlock config item)) ->
  wp (forOf (reconcileItem roamApi this parentUid
               (existingMapOf config nodes)) st items) h
    (fun _ evs _ => Forall away (apiCalls evs)).
Proof.
  induction items as [|item items IH]; intros st h Hitems.
  - apply wp_ret. constructor.
  - cbn [forOf]. apply wp_bind. eapply wp_mono.
    { apply wp_reconcileItem_away. intros Hid. apply Hitems; [by left|done]. }
    intros h1 ev1 [e|st1] H1; [done|].
    eapply wp_mono; [apply IH; intros i Hi; apply Hitems; by right|].
    intros h2 ev2 r2 H2. calls. by apply Forall_app.
Qed.

Lemma wp_removeEntries_away seen entries : forall st (h : Heap B),
  id ∈ seen ->
  (forall entry, entry ∈ entries -> entry ∈ existingMapOf config nodes) ->
  wp (forOf (removeEntry roamApi this seen) st entries) h
    (fun _ evs _ => Forall away (apiCalls evs)).
Proof.
  intros st h Hseen. revert st h.
  induction entries as [|[k m] entries IH]; intros st h Hentries.
  - apply wp_ret. constructor.
  - assert (Hrest : forall st1 (h1 : Heap B),
      wp (forOf (removeEntry roamApi this seen) st1 entries) h1
        (fun _ ev2 _ => Forall away (apiCalls ev2))).
    { intros st1 h1. apply IH. intros entry Hin. apply Hentries. by right. }
    cbn [forOf]. apply wp_bind. unfold removeEntry at 1.
    destruct (bool_decide (k ∈ seen)) eqn:Hk.
    { apply wp_ret. eapply wp_mono; [apply Hrest|]. by intros h2 ev2 r2 H2. }
    destruct (optCall _ _).
    { apply wp_bind, wp_debug. intros ev1 Hq1. cbv beta iota. apply wp_ret.
      eapply wp_mono; [apply Hrest|]. intros h2 ev2 r2 H2. cbv beta in H2.
      calls. by rewrite ?app_nil_r. }
    assert (Haway : away (DeleteBlock (node_uid m))).
    { assert (Hin : (k, m) ∈ existingMapOf config nodes)
        by (apply Hentries; by left).
      destruct (existingMapOf_In _ _ _ _ Hin) as [Hm _].
      apply (away_other m); [done| |by left].
      intros ->. apply entry_of_node in Hin as ->.
      apply bool_decide_eq_false in Hk. done. }
    apply wp_bind, wp_await. intros b' [e|] _.
    { calls. by constructor. }
    apply wp_bind, wp_delay. apply wp_bind, wp_debug. intros ev1 Hq1.
    cbv beta iota.
    apply wp_bind, wp_maybeYieldToMain. intros ev2 Hq2. apply wp_ret.
    eapply wp_mono; [apply Hrest|]. intros h2 ev3 r3 H3. cbv beta in H3.
    calls. rewrite ?app_nil_r. by constructor.
Qed.

End Untouched.


End ItemFacts.

Module ItemExamples.
Import Examples TopExamples.


End ItemExamples.

(** ** Keys and key map *)

Section KeyedChildren.

Context {B E : Type}.
Variable roamApi : RoamApiAdapter B E.
Variable this : ChildrenReconciler.

Local Abbreviation cfg := (cr_config this).
Local Abbreviation keyf := (fun n : RoamNode => keyOf this (node_text n)).

Lemma get_delete_ne {V : Type} k k' (m : JsMap.t V) :
  k' <> k -> JsMap.get k (JsMap.delete k' m) = JsMap.get k m.
Proof.
  intros Hne. induction m as [|[k0 v0] m IH]; simpl; [done|].
  destruct (String.eqb k0 k') eqn:Hk0; simpl.
  - apply String.eqb_eq in Hk0 as ->.
    apply String.eqb_neq in Hne. by rewrite Hne.
  - by rewrite IH.
Qed.

(** The key map holds under a key what the children that carry it put
    there, the last one winning. *)
Lemma partition_fold_get_notin l key : forall acc,
  (forall m, m ∈ l -> keyf m <> Some key) ->
  JsMap.get key (fold_left (partitionStep cfg) l acc).1 = JsMap.get key acc.1.
Proof.
  induction l as [|x l IH]; intros acc Hl; [done|].
  cbn [fold_left]. rewrite IH by (intros m Hm; apply Hl; by right).
  assert (Hx : keyf x <> Some key) by (apply Hl; by left).
  unfold partitionStep. destruct acc as [map sp]. unfold keyOf in Hx.
  destruct (truthy (extractKey cfg (node_text x))) as [kx|]; simpl.
  - apply JsMapFacts.get_set_ne. congruence.
  - by destruct (optCall _ _).
Qed.

Lemma partitionExisting_get_last pre n post key :
  keyf n = Some key ->
  (forall m, m ∈ post -> keyf m <> Some key) ->
  JsMap.get key (partitionExisting cfg (pre ++ n :: post)).1 = Some n.
Proof.
  intros Hn Hpost. unfold partitionExisting.
  rewrite fold_left_app. cbn [fold_left].
  rewrite partition_fold_get_notin by done.
  unfold partitionStep.
  destruct (fold_left _ pre _) as [map sp]. unfold keyOf in Hn. rewrite Hn.
  apply JsMapFacts.get_set_eq.
Qed.

Lemma partitionExisting_get_None existingChildren key :
  (forall m, m ∈ existingChildren -> keyf m <> Some key) ->
  JsMap.get key (partitionExisting cfg existingChildren).1 = None.
Proof. intros Hl. unfold partitionExisting. by rewrite partition_fold_get_notin. Qed.

Lemma elem_of_keys_set {V : Type} k k' (v : V) (m : JsMap.t V) :
  k ∈ JsMap.keys (JsMap.set k' v m) <-> k ∈ JsMap.keys m \/ k = k'.
Proof.
  rewrite JsMapFacts.keys_set.
  destruct (JsMap.get k' m) eqn:Hget.
  - split; [by left|]. intros [?| ->]; [done|].
    destruct (decide (k' ∈ JsMap.keys m)) as [?|Hn]; [done|]. exfalso.
    rewrite list_elem_of_In in Hn. apply JsMapFacts.get_None_keys in Hn.
    congruence.
  - rewrite elem_of_app, list_elem_of_singleton. tauto.
Qed.

Lemma partition_fold_keys l : forall acc k,
  k ∈ JsMap.keys (fold_left (partitionStep cfg) l acc).1 <->
  k ∈ JsMap.keys acc.1 \/ k ∈ omap keyf l.
Proof.
  induction l as [|x l IH]; intros acc k.
  - simpl. split; [by left|]. by intros [?|?%elem_of_nil].
  - cbn [fold_left]. rewrite IH. cbn [omap list_omap].
    unfold partitionStep. destruct acc as [map sp]. unfold keyOf at 2.
    destruct (truthy (extractKey cfg (node_text x))) as [kx|]; simpl.
    + rewrite elem_of_keys_set, elem_of_cons. tauto.
    + destruct (optCall _ _); simpl; tauto.
Qed.

Lemma length_filter_keys {V : Type} (keys : list string) (m : JsMap.t V) :
  length (filter (fun k => k ∉ keys) (JsMap.keys m))
  = length (filter (fun kv => kv.1 ∉ keys) m).
Proof.
  induction m as [|[k v] m IH]; [done|]. cbn [JsMap.keys map fst].
  destruct (decide (k ∉ keys)) as [Hk|Hk].
  - rewrite !filter_cons_True by done. simpl. by f_equal.
  - by rewrite !filter_cons_False.
Qed.

(** The keys of the key map are the distinct keys of the existing
    children. *)
Lemma partitionExisting_keys existingChildren :
  JsMap.keys (partitionExisting cfg existingChildren).1
  ≡ₚ existingKeys this existingChildren.
Proof.
  apply NoDup_Permutation.
  - apply partitionExisting_NoDup.
  - apply NoDup_remove_dups.
  - intros k. unfold existingKeys, partitionExisting.
    rewrite partition_fold_keys, elem_of_remove_dups. simpl.
    split; [by intros [?%elem_of_nil|?]|by right].
Qed.

Lemma filter_deletes {A : Type} key (f : A -> string) (l : list A) :
  filter (fun c => carriesKey this key c = true)
    (map (fun x => DeleteBlock (f x)) l) = [].
Proof. induction l as [|x l IH]; [done|]. simpl. by rewrite filter_cons_False. Qed.

Lemma creates_deletes {A : Type} (f : A -> string) (l : list A) :
  creates (map (fun x => DeleteBlock (f x)) l) = 0.
Proof. induction l as [|x l IH]; [done|]. unfold creates in *. by simpl. Qed.

(** A desired child with a key, whatever the backend answers: when its
    step returns, the child has been counted once, nothing has been
    counted as deleted, and its key has left the map. *)
Lemma wp_syncChild_keyed_any parentUid st c key (h : Heap B) :
  keyOf this (bp_text c) = Some key ->
  wp (syncChild roamApi this parentUid st c) h
    (fun h' _ r => forall st', r = inr st' ->
       existingPropsMap st' = JsMap.delete key (existingPropsMap st) /\
       c_deleted (h_childStats h') = c_deleted (h_childStats h) /\
       childCounted (h_childStats h') = S (childCounted (h_childStats h))).
Proof.
  intros Hkey. unfold syncChild. unfold keyOf in Hkey. rewrite Hkey.
  destruct (JsMap.get key (existingPropsMap st)) as [existing|] eqn:Hget.
  - destruct (String.eqb _ _); wp_any; try done; intros ? [= <-];
      unfold childCounted; simpl; split_and!; try done; lia.
  - wp_any; [done|]. intros ? [= <-]. unfold childCounted. simpl.
    split_and!; [by rewrite JsMapFacts.get_delete_None|done|lia].
Qed.

Lemma wp_syncChild_loop_keyed_any parentUid newChildren :
  forall st (h : Heap B),
    Forall (fun c => is_Some (keyOf this (bp_text c))) newChildren ->
    NoDup (JsMap.keys (existingPropsMap st)) ->
    wp (forOf (syncChild roamApi this parentUid) st newChildren) h
      (fun h' _ r => forall st', r = inr st' ->
         existingPropsMap st'
           = filter (fun kv => kv.1 ∉ desiredKeys this newChildren)
               (existingPropsMap st) /\
         c_deleted (h_childStats h') = c_deleted (h_childStats h) /\
         childCounted (h_childStats h')
           = length newChildren + childCounted (h_childStats h)).
Proof.
  induction newChildren as [|c cs IH]; intros st h Hkeys Hnd.
  - apply wp_ret. intros ? [= <-]. split_and!; [|done..].
    symmetry. apply JsMapFacts.filter_all, Forall_forall.
    intros kv _. unfold desiredKeys. simpl. apply not_elem_of_nil.
  - apply Forall_cons in Hkeys as [[key Hkey] Hkeys].
    cbn [forOf]. apply wp_bind.
    eapply wp_mono; [by apply (wp_syncChild_keyed_any _ _ _ key)|].
    intros h1 ev1 [e|st1] H1; [done|].
    destruct (H1 st1 eq_refl) as (Hmap1 & Hdel1 & Hcount1).
    eapply wp_mono.
    { apply IH; [done|]. rewrite Hmap1.
      by apply JsMapFacts.NoDup_keys_delete. }
    intros h2 ev2 r2 H2 st2 ->.
    destruct (H2 st2 eq_refl) as (Hmap2 & Hdel2 & Hcount2).
    split_and!; [|congruence|simpl; lia].
    rewrite Hmap2, Hmap1, JsMapFacts.delete_filter by done.
    rewrite list_filter_filter. apply list_filter_iff.
    intros [k v]. unfold desiredKeys. cbn [omap list_omap].
    rewrite Hkey. simpl. rewrite not_elem_of_cons. tauto.
Qed.

(** The third loop, whatever the backend answers: when it returns, every
    entry has been counted as deleted. *)
Lemma wp_deleteOrphans_any entries : forall n (h : Heap B),
  wp (forOf (deleteOrphan roamApi this) n entries) h
    (fun h' _ r => forall n', r = inr n' ->
       c_deleted (h_childStats h')
         = c_deleted (h_childStats h) + length entries /\
       childCounted (h_childStats h') = childCounted (h_childStats h)).
Proof.
  induction entries as [|[key orphanBlock] entries IH]; intros n h.
  - apply wp_ret. intros _ _. simpl. split; [lia|done].
  - cbn [forOf]. unfold deleteOrphan at 1. wp_any; [done|].
    eapply wp_mono; [apply IH|]. intros h2 ev2 r2 H2 n' ->.
    destruct (H2 n' eq_refl) as [Hdel Hcount]. revert Hdel Hcount.
    unfold childCounted. simpl. lia.
Qed.

(** C4, as amended.  When every desired child has a non-empty key, a
    pass of [syncChildren] that returns, whatever the backend answered,
    returns statistics in which created + updated + skipped is the number
    of desired children and deleted is the number of distinct non-empty
    keys of the existing children that no desired child has; and the pass
    does return when the backend resolves its calls. *)
Theorem syncChildren_key_convergence parentUid existingChildren
    newChildren (h : Heap B) :
  Forall (fun c => is_Some (keyOf this (bp_text c))) newChildren ->
  (forall h' evs stats,
     syncChildren roamApi this parentUid existingChildren newChildren h
       = (h', evs, inr stats) ->
     c_created stats + c_updated stats + c_skipped stats
       = length newChildren /\
     c_deleted stats
       = length (filter (fun k => k ∉ desiredKeys this newChildren)
                   (existingKeys this existingChildren))) /\
  (resolves roamApi ->
   exists h' evs stats,
     syncChildren roamApi this parentUid existingChildren newChildren h
       = (h', evs, inr stats)).
Proof.
  intros Hkeys. split.
  - intros h' evs stats Hrun.
    assert (Hlen :
      length (filter (fun k => k ∉ desiredKeys this newChildren)
                (existingKeys this existingChildren))
      = length (filter (fun kv => kv.1 ∉ desiredKeys this newChildren)
                  (partitionExisting cfg existingChildren).1)).
    { rewrite <- (partitionExisting_keys existingChildren).
      apply length_filter_keys. }
    rewrite Hlen. clear Hlen.
    refine (wp_run _ _ (fun _ _ r => forall stats, r = inr stats ->
      c_created stats + c_updated stats + c_skipped stats
        = length newChildren /\
      c_deleted stats
        = length (filter (fun kv => kv.1 ∉ desiredKeys this newChildren)
                    (partitionExisting cfg existingChildren).1))
      _ _ _ _ Hrun stats eq_refl).
    clear Hrun. apply wp_syncChildren. intros ev0 _. apply wp_bind.
    eapply wp_mono.
    { apply wp_syncChild_loop_keyed_any; [done|]. simpl.
      apply partitionExisting_NoDup. }
    intros h1 ev1 [e|st1] H1; [done|].
    destruct (H1 st1 eq_refl) as (Hmap & Hdel & Hcount).
    simpl in Hmap, Hdel, Hcount.
    apply wp_bind. eapply wp_mono; [apply wp_deleteOrphans_any|].
    intros h2 ev2 [e|n2] H2; [done|].
    destruct (H2 n2 eq_refl) as [Hdel2 Hcount2].
    wp_steps. intros ? [= <-]. simpl. unfold childCounted in *.
    simpl in Hcount. rewrite Hdel2, Hdel, Hmap. unfold JsMap.entries.
    simpl. split; lia.
  - intros Hres.
    cut (wp (syncChildren roamApi this parentUid existingChildren
               newChildren) h
           (fun _ _ r => exists stats, r = inr stats)).
    { intros (h' & evs & r & Hrun & stats & ->)%wp_exists.
      by exists h', evs, stats. }
    apply wp_syncChildren. intros ev0 _. wp_steps.
    apply wp_syncChild_loop; [done..| |].
    { simpl. apply partitionExisting_NoDup. }
    intros h1 ev1 st1 _ _ _ _. wp_steps. apply wp_deleteOrphan_loop; [done|].
    intros h2 ev2 n2 _ _ _ _ _ _. wp_steps. by eexists.
Qed.

Hypothesis Hres : resolves roamApi.

(** One desired child, seen from a key: when the child has the key it is
    matched against the entry of the key, which leaves the map; otherwise
    no call of its step carries the key and the entry stays. *)
Lemma wp_syncChild_carried parentUid key st c (h : Heap B) :
  NoDup (JsMap.keys (existingPropsMap st)) ->
  wp (syncChild roamApi this parentUid st c) h
    (fun h' evs r => exists st', r = inr st' /\
       NoDup (JsMap.keys (existingPropsMap st')) /\
       c_created (h_childStats h')
         = c_created (h_childStats h) + creates (apiCalls evs) /\
       if decide (keyOf this (bp_text c) = Some key)
       then JsMap.get key (existingPropsMap st') = None /\
            filter (fun x => carriesKey this key x = true) (apiCalls evs)
              = keyCalls parentUid (JsMap.get key (existingPropsMap st)) [c]
       else JsMap.get key (existingPropsMap st')
              = JsMap.get key (existingPropsMap st) /\
            filter (fun x => carriesKey this key x = true) (apiCalls evs)
              = []).
Proof.
  intros Hnd. unfold syncChild.
  destruct (keyOf this (bp_text c)) as [k|] eqn:Hk; unfold keyOf in Hk;
    rewrite Hk.
  - assert (Hcarry : forall uid,
              carriesKey this key (UpdateBlock uid (bp_text c))
              = bool_decide (k = key) /\
              carriesKey this key (CreateBlock parentUid c OrderLast)
              = bool_decide (k = key)).
    { intros uid. simpl. unfold keyOf. rewrite Hk.
      split; apply bool_decide_ext; split; congruence. }
    destruct (JsMap.get k (existingPropsMap st)) as [existing|] eqn:Hget.
    + destruct (String.eqb (node_text existing) (bp_text c)) eqn:Htext.
      * wp_steps. eexists. split; [done|]. simpl.
        split_and!; [by apply JsMapFacts.NoDup_keys_delete|calls; simpl; lia|].
        destruct (decide (Some k = Some key)) as [[= ->]|Hne].
        -- rewrite Hget. cbn [keyCalls]. rewrite Htext.
           split; [by apply JsMapFacts.get_delete_eq|by calls].
        -- split; [apply get_delete_ne; congruence|by calls].
      * wp_steps. apply wp_await_resolves; [done|]. cbv beta iota. wp_steps.
        eexists. split; [done|]. simpl.
        split_and!; [by apply JsMapFacts.NoDup_keys_delete
                    |calls; unfold creates; simpl; lia|].
        destruct (Hcarry (node_uid existing)) as [Hup _].
        destruct (decide (Some k = Some key)) as [[= ->]|Hne].
        -- rewrite Hget. cbn [keyCalls]. rewrite Htext.
           split; [by apply JsMapFacts.get_delete_eq|].
           calls. rewrite filter_cons_True; [done|].
           rewrite Hup. by apply bool_decide_eq_true.
        -- split; [apply get_delete_ne; congruence|].
           calls. rewrite filter_cons_False; [done|].
           rewrite Hup, bool_decide_eq_true. congruence.
    + wp_steps. apply wp_await_resolves; [done|]. cbv beta iota. wp_steps.
      eexists. split; [done|]. simpl.
      split_and!; [done|calls; unfold creates; simpl; lia|].
      destruct (Hcarry "") as [_ Hcr].
      destruct (decide (Some k = Some key)) as [[= ->]|Hne].
      * rewrite Hget. cbn [keyCalls]. split; [done|].
        calls. rewrite filter_cons_True; [done|].
        rewrite Hcr. by apply bool_decide_eq_true.
      * split; [done|]. calls. rewrite filter_cons_False; [done|].
        rewrite Hcr, bool_decide_eq_true. congruence.
  - destruct (decide (None = Some key)) as [[=]|_].
    destruct (optCall _ _).
    + wp_steps. apply wp_deleteSpecials; [done|].
      intros h1 ev1 Hc1 _ _ _ Hcr1 _.
      wp_steps. apply wp_await_resolves; [done|]. cbv beta iota. wp_steps.
      eexists. split; [done|]. simpl. split_and!; [done| |done|].
      * calls. rewrite Hc1, app_nil_r, creates_app, creates_deletes.
        unfold creates. simpl. lia.
      * calls. rewrite Hc1, app_nil_r, filter_app, filter_deletes.
        rewrite filter_cons_False; [done|]. simpl.
        rewrite bool_decide_eq_true. unfold keyOf. rewrite Hk. congruence.
    + wp_steps. eexists. split; [done|]. simpl.
      split_and!; [done|calls; simpl; lia|done|by calls].
Qed.

Lemma keyCalls_cons parentUid entry c dups :
  keyCalls parentUid entry (c :: dups)
  = keyCalls parentUid entry [c] ++ keyCalls parentUid None dups.
Proof.
  destruct dups as [|d dups]; [by rewrite app_nil_r|].
  cbn [keyCalls fmap list_fmap]. by rewrite app_nil_r.
Qed.

Lemma wp_syncChild_loop_carried parentUid key newChildren :
  forall st (h : Heap B),
    NoDup (JsMap.keys (existingPropsMap st)) ->
    wp (forOf (syncChild roamApi this parentUid) st newChildren) h
      (fun h' evs r => exists st', r = inr st' /\
         c_created (h_childStats h')
           = c_created (h_childStats h) + creates (apiCalls evs) /\
         filter (fun x => carriesKey this key x = true) (apiCalls evs)
           = keyCalls parentUid (JsMap.get key (existingPropsMap st))
               (filter (fun c => keyOf this (bp_text c) = Some key)
                  newChildren)).
Proof.
  induction newChildren as [|c cs IH]; intros st h Hnd.
  - apply wp_ret. exists st. split_and!; [done|simpl; lia|done].
  - cbn [forOf]. apply wp_bind. eapply wp_mono.
    { by apply (wp_syncChild_carried parentUid key). }
    intros h1 ev1 r1 (st1 & -> & Hnd1 & Hcr1 & Hcase).
    eapply wp_mono; [by apply IH|].
    intros h2 ev2 r2 (st2 & -> & Hcr2 & Hcalls2). exists st2.
    split_and!; [done| |].
    + calls. rewrite creates_app. lia.
    + calls. rewrite filter_app, Hcalls2.
      destruct (decide (keyOf this (bp_text c) = Some key)) as [Hc|Hc].
      * simpl in Hcase.
        destruct Hcase as [-> ->]. rewrite filter_cons_True by done.
        by rewrite (keyCalls_cons _ _ c).
      * simpl in Hcase.
        destruct Hcase as [-> ->]. by rewrite filter_cons_False.
Qed.

(** C6.  With a backend that resolves, desired children that share a key
    are neither deduplicated nor rejected by [syncChildren]: the pass
    returns, and of its calls those that carry the key are, in order, the
    match of the first such child against the key map and one
    [createBlock] for every later one.  The first child is matched against
    the last existing child with the key: nothing is issued for it when the
    texts agree, and one [updateBlock] otherwise; when no existing child
    has the key, the first child is created like the others.  Every
    creation is counted in [created]. *)
Theorem duplicate_desired_key_creates parentUid existingChildren
    newChildren key first rest h :
  filter (fun c => keyOf this (bp_text c) = Some key) newChildren
    = first :: rest ->
  exists h' evs stats,
    syncChildren roamApi this parentUid existingChildren newChildren h
      = (h', evs, inr stats) /\
    c_created stats = creates (apiCalls evs) /\
    (forall pre n post,
       existingChildren = pre ++ n :: post ->
       keyOf this (node_text n) = Some key ->
       (forall m, m ∈ post -> keyOf this (node_text m) <> Some key) ->
       filter (fun c => carriesKey this key c = true) (apiCalls evs)
       = (if String.eqb (node_text n) (bp_text first) then []
          else [UpdateBlock (node_uid n) (bp_text first)])
         ++ ((fun c => CreateBlock parentUid c OrderLast) <$> rest)) /\
    ((forall m, m ∈ existingChildren ->
        keyOf this (node_text m) <> Some key) ->
     filter (fun c => carriesKey this key c = true) (apiCalls evs)
     = (fun c => CreateBlock parentUid c OrderLast) <$> first :: rest).
Proof.
  intros Hdups.
  cut (wp (syncChildren roamApi this parentUid existingChildren newChildren) h
         (fun h' evs r => exists stats, r = inr stats /\
            c_created stats = creates (apiCalls evs) /\
            filter (fun c => carriesKey this key c = true) (apiCalls evs)
            = keyCalls parentUid
                (JsMap.get key (partitionExisting cfg existingChildren).1)
                (first :: rest))).
  { intros (h' & evs & r & Hrun & stats & -> & Hcr & Hcalls)%wp_exists.
    exists h', evs, stats. split_and!; [done..| |].
    - intros pre n post -> Hn Hpost. rewrite Hcalls.
      by rewrite partitionExisting_get_last.
    - intros Hnone. rewrite Hcalls.
      by rewrite partitionExisting_get_None. }
  apply wp_syncChildren. intros ev0 Hq0. apply wp_bind. eapply wp_mono.
  { apply (wp_syncChild_loop_carried parentUid key). simpl.
    apply partitionExisting_NoDup. }
  intros h1 ev1 r1 (st1 & -> & Hcr1 & Hcalls1). simpl in Hcr1, Hcalls1.
  rewrite Hdups in Hcalls1.
  wp_steps. apply wp_deleteOrphan_loop; [done|].
  intros h2 ev2 n2 Hc2 _ _ _ Hcr2 _. wp_steps.
  eexists. split; [done|]. split.
  - calls. rewrite Hc2, !creates_app, creates_deletes.
    unfold creates at 2. simpl. lia.
  - calls. rewrite Hc2, !filter_app, filter_deletes, Hcalls1.
    by rewrite !app_nil_r.
Qed.

End KeyedChildren.

Module KeyedExamples.
Import Examples.

(** C4 fails as first stated: a desired child whose text yields the empty
    string as its key is taken to have no key, and, being no special block
    either, is not counted at all. *)
Lemma empty_key_child_not_counted :
  extractKey childConfig (bp_text (line ":: x")) = Some "" /\
  exists h' evs stats,
    syncChildren mockApi children "p" [] [line ":: x"] (heapOf [])
      = (h', evs, inr stats) /\
    apiCalls evs = [] /\
    c_created stats + c_updated stats + c_skipped stats = 0 /\
    length [line ":: x"] = 1.
Proof. split; [reflexivity|]. do 3 eexists. split_and!; reflexivity. Qed.

Lemma syncChildren_key_convergence_witness :
  exists h' evs stats,
    syncChildren mockApi children "p"
      [leaf "u1" "due:: today"; leaf "u2" "priority:: low"; leaf "u3" "note";
       leaf "u4" "due:: tomorrow"; leaf "u5" "tag:: x"]
      [line "priority:: high"; line "owner:: me"] (heapOf [])
      = (h', evs, inr stats) /\
    c_created stats + c_updated stats + c_skipped stats = 2 /\
    c_deleted stats = 2.
Proof.
  destruct (syncChildren_key_convergence mockApi children "p"
              [leaf "u1" "due:: today"; leaf "u2" "priority:: low";
               leaf "u3" "note"; leaf "u4" "due:: tomorrow";
               leaf "u5" "tag:: x"]
              [line "priority:: high"; line "owner:: me"] (heapOf []))
    as [Hstats Hreturns].
  { repeat constructor; by eexists. }
  destruct Hreturns as (h' & evs & stats & Hrun).
  { intros c b. by destruct c. }
  exists h', evs, stats. split; [done|]. by apply (Hstats h' evs stats).
Defined.

Lemma duplicate_desired_key_creates_witness :
  exists h' evs stats,
    syncChildren mockApi children "p"
      [leaf "u0" "priority:: old"; leaf "u1" "priority:: low";
       leaf "u2" "due:: x"]
      [line "priority:: high"; line "owner:: me"; line "priority:: urgent"]
      (heapOf [])
      = (h', evs, inr stats) /\
    c_created stats = creates (apiCalls evs) /\
    filter (fun c => carriesKey children "priority" c = true) (apiCalls evs)
    = [UpdateBlock "u1" "priority:: high";
       CreateBlock "p" (line "priority:: urgent") OrderLast].
Proof.
  destruct (duplicate_desired_key_creates mockApi children
              (fun c b => match c with
                          | CreateBlock _ _ _ => eq_refl
                          | UpdateBlock _ _ => eq_refl
                          | DeleteBlock _ => eq_refl
                          end)
              "p"
              [leaf "u0" "priority:: old"; leaf "u1" "priority:: low";
               leaf "u2" "due:: x"]
              [line "priority:: high"; line "owner:: me";
               line "priority:: urgent"]
              "priority" (line "priority:: high") [line "priority:: urgent"]
              (heapOf []) eq_refl)
    as (h' & evs & stats & Hrun & Hcreated & Hlast & _).
  exists h', evs, stats. split_and!; [done..|].
  apply (Hlast [leaf "u0" "priority:: old"] (leaf "u1" "priority:: low")
           [leaf "u2" "due:: x"]); [reflexivity..|].
  intros m Hm. apply list_elem_of_singleton in Hm as ->. discriminate.
Defined.

End KeyedExamples.

(** * Further properties of the code *)

(** ** Computations that an observer does not see *)

Section Unseen.

Context {B E X : Type}.
Variable roamApi : RoamApiAdapter B E.
Variable obs : Event -> option X.

Lemma unseen_ret {A : Type} (a : A) : unseen obs (ret (B:=B) (E:=E) a).
Proof. done. Qed.

Lemma unseen_bind {A C : Type} (m : M B E A) (k : A -> M B E C) :
  unseen obs m -> (forall a, unseen obs (k a)) -> unseen obs (bind m k).
Proof.
  intros Hm Hk h. unfold bind. specialize (Hm h).
  destruct (m h) as [[h1 ev1] [e|a]]; [done|].
  specialize (Hk a h1). destruct (k a h1) as [[h2 ev2] r2]. simpl in *.
  by rewrite omap_app, Hm, Hk.
Qed.

Lemma unseen_forOf {A S : Type} (body : S -> A -> M B E S) xs :
  (forall s x, unseen obs (body s x)) -> forall s, unseen obs (forOf body s xs).
Proof.
  intros Hbody. induction xs as [|x xs IH]; intros s; [done|].
  cbn [forOf]. by apply unseen_bind.
Qed.

Lemma unseen_emit ev : obs ev = None -> unseen obs (emit (B:=B) (E:=E) ev).
Proof. intros Hev h. simpl. by rewrite Hev. Qed.

Lemma unseen_await c : obs (Api c) = None -> unseen obs (await roamApi c).
Proof.
  intros Hc h. unfold await.
  destruct (perform roamApi c (h_backend h)) as [b' r]. simpl. by rewrite Hc.
Qed.

Lemma unseen_debug present event :
  obs (Debug event) = None -> unseen obs (debug (B:=B) (E:=E) present event).
Proof. destruct present; [apply unseen_emit|done]. Qed.

Lemma unseen_maybeYield n batch :
  obs YieldToMain = None -> unseen obs (maybeYield (B:=B) (E:=E) n batch).
Proof.
  intros Hy. unfold maybeYield. destruct (Nat.eqb _ _); [|done].
  by apply unseen_emit.
Qed.

Lemma unseen_modifyStats f : unseen obs (modifyStats (B:=B) (E:=E) f).
Proof. done. Qed.

Lemma unseen_modifyChildStats f :
  unseen obs (modifyChildStats (B:=B) (E:=E) f).
Proof. done. Qed.

Lemma unseen_getChildStats : unseen obs (getChildStats (B:=B) (E:=E)).
Proof. done. Qed.

Hypothesis Hcall : forall c, obs (Api c) = None.
Hypothesis Hdebug : forall event, obs (Debug event) = None.
Hypothesis Hdelay : forall ms, obs (Delay ms) = None.
Hypothesis Hyield : obs YieldToMain = None.

(** Chains of steps none of which is observed. *)
Ltac unseen_seq :=
  repeat first
    [ apply unseen_bind; [|intros ?]
    | apply unseen_ret
    | apply unseen_debug; apply Hdebug
    | apply unseen_emit; apply Hdelay
    | apply unseen_maybeYield; apply Hyield
    | apply unseen_await; apply Hcall
    | apply unseen_modifyChildStats
    | apply unseen_modifyStats
    | apply unseen_getChildStats ].

(** An observer of neither calls, log entries, delays nor yields sees
    nothing of [syncChildren]. *)
Lemma unseen_syncChildren this parentUid existingChildren newChildren :
  unseen obs
    (syncChildren roamApi this parentUid existingChildren newChildren).
Proof.
  unfold syncChildren.
  destruct (partitionExisting (cr_config this) existingChildren)
    as [propsMap specialBlocks].
  unseen_seq.
  - apply unseen_forOf. intros st newChild. unfold syncChild. unseen_seq.
    destruct (truthy _) as [key|].
    + destruct (JsMap.get key _) as [existing|]; unseen_seq.
      destruct (String.eqb _ _); unseen_seq.
    + destruct (optCall _ _); unseen_seq.
      apply unseen_forOf. intros [] sb. unfold deleteSpecial. unseen_seq.
  - apply unseen_forOf. intros n [key orphanBlock]. unfold deleteOrphan.
    unseen_seq.
Qed.

Context {T : Type}.

Lemma unseen_updateExistingBlock (this : BlockReconciler T) existing
    newBlock :
  unseen obs (updateExistingBlock roamApi this existing newBlock).
Proof.
  unfold updateExistingBlock. apply unseen_bind.
  - destruct (negb _); unseen_seq.
  - intros _. destruct (childrenReconciler this) as [reconciler|]; [|done].
    destruct (bp_children newBlock) as [newChildren|]; [|done].
    apply unseen_bind; [apply unseen_syncChildren|done].
Qed.

Lemma unseen_maybeYieldToMain (this : BlockReconciler T) n :
  unseen obs (maybeYieldToMain (B:=B) (E:=E) this n).
Proof.
  unfold maybeYieldToMain. destruct (Nat.eqb _ _); [|done].
  by apply unseen_emit.
Qed.

Lemma unseen_removeObsolete (this : BlockReconciler T) existingMap seen :
  unseen obs (removeObsolete roamApi this existingMap seen).
Proof.
  unfold removeObsolete. apply unseen_bind; [|done].
  apply unseen_forOf. intros st [id node]. unfold removeEntry.
  destruct (bool_decide _); [done|]. destruct (optCall _ _); unseen_seq.
Qed.

Lemma unseen_buildExistingMap (this : BlockReconciler T) nodes :
  unseen obs (buildExistingMap (B:=B) (E:=E) this nodes).
Proof.
  unfold buildExistingMap. apply unseen_forOf. intros map node.
  unfold mapEntry. destruct (truthy _); unseen_seq.
Qed.

End Unseen.

(** ** Every item is counted once *)

Section Counting.

Context {B E T : Type}.
Variable roamApi : RoamApiAdapter B E.
Variable this : BlockReconciler T.

Local Abbreviation config := (br_config this).

(** [updateExistingBlock] leaves the statistics of the pass alone,
    whatever the backend answers. *)
Lemma wp_updateExistingBlock_stats existing newBlock (h : Heap B) :
  wp (updateExistingBlock roamApi this existing newBlock) h
    (fun h' _ _ => h_stats h' = h_stats h).
Proof.
  unfold updateExistingBlock. apply wp_bind.
  assert (Hrest : forall h1 : Heap B, h_stats h1 = h_stats h ->
    wp (match childrenReconciler this, bp_children newBlock with
        | Some reconciler, Some newChildren =>
            syncChildren roamApi reconciler (node_uid existing)
              (orEmpty (node_children existing)) newChildren ;;
            ret tt
        | _, _ => ret tt
        end) h1 (fun h2 _ _ => h_stats h2 = h_stats h)).
  { intros h1 Hh1. destruct (childrenReconciler this) as [reconciler|];
      [|done].
    destruct (bp_children newBlock) as [newChildren|]; [|done].
    apply wp_bind. eapply wp_mono; [apply sound_syncChildren|].
    intros h2 ev2 [e|stats] (_ & Hsame & _); unfold sameStats in Hsame;
      [congruence|]. apply wp_ret. congruence. }
  destruct (negb _); [|by apply wp_ret, Hrest].
  apply wp_bind, wp_await. intros b' [e|] _; [done|].
  apply wp_delay. by apply Hrest.
Qed.

(** One iteration of the item loop counts its item, unless a call of it
    is rejected. *)
Lemma wp_reconcileItem_counted parentUid existingMap st item (h : Heap B) :
  wp (reconcileItem roamApi this parentUid existingMap st item) h
    (fun h' _ r =>
       total (h_stats h') = total (h_stats h) /\
       deleted (h_stats h') = deleted (h_stats h) /\
       counted (h_stats h')
         = match r with
           | inr _ => S (counted (h_stats h))
           | inl _ => counted (h_stats h)
           end).
Proof.
  assert (Htail : forall (h1 : Heap B) (f : SyncStats -> SyncStats),
    h_stats h1 = f (h_stats h) ->
    total (f (h_stats h)) = total (h_stats h) ->
    deleted (f (h_stats h)) = deleted (h_stats h) ->
    counted (f (h_stats h)) = S (counted (h_stats h)) ->
    wp (maybeYieldToMain this (S (il_operationCount st)) ;;
        reportProgress this ;;
        ret (mkItemLoop ({[ extractId config item ]} ∪ seenIds st)
               (S (il_operationCount st)))) h1
      (fun h' _ (r : E + ItemLoop) =>
         total (h_stats h') = total (h_stats h) /\
         deleted (h_stats h') = deleted (h_stats h) /\
         counted (h_stats h')
           = match r with
             | inr _ => S (counted (h_stats h))
             | inl _ => counted (h_stats h)
             end)).
  { intros h1 f Hh1 Ht Hd Hc. apply wp_bind, wp_maybeYieldToMain.
    intros ev1 _. apply wp_bind, wp_reportProgress. intros ev2 _.
    apply wp_ret. by rewrite Hh1. }
  unfold reconcileItem. apply wp_bind.
  destruct (JsMap.get _ existingMap) as [existingNode|].
  - destruct (isUnchanged _ _).
    + apply wp_bind, wp_modifyStats. cbv beta iota.
      apply wp_debug. intros ev1 _. cbv beta iota.
      eapply wp_mono; [by apply (Htail _ incSkipped)|done].
    + apply wp_bind. eapply wp_mono; [apply wp_updateExistingBlock_stats|].
      intros h1 ev1 [e|[]] Hh1; [by rewrite Hh1|].
      apply wp_bind, wp_modifyStats. cbv beta iota.
      apply wp_debug. intros ev2 _. cbv beta iota.
      eapply wp_mono; [apply (Htail _ incUpdated)|done]; simpl;
        try done; [by rewrite Hh1|].
      unfold counted. simpl. lia.
  - unfold createNewBlock. apply wp_bind, wp_await.
    intros b' [e|] _; [done|].
    apply wp_bind, wp_modifyStats. cbv beta iota.
    apply wp_debug. intros ev2 _. cbv beta iota.
    eapply wp_mono; [apply (Htail _ incCreated)|done]; simpl; try done.
    unfold counted. simpl. lia.
Qed.

Lemma wp_items_counted parentUid existingMap items : forall st (h : Heap B),
  wp (forOf (reconcileItem roamApi this parentUid existingMap) st items) h
    (fun h' _ r =>
       total (h_stats h') = total (h_stats h) /\
       deleted (h_stats h') = deleted (h_stats h) /\
       match r with
       | inr _ => counted (h_stats h') = length items + counted (h_stats h)
       | inl _ => counted (h_stats h') < length items + counted (h_stats h)
       end).
Proof.
  induction items as [|item items IH]; intros st h.
  - apply wp_ret. by split_and!.
  - cbn [forOf]. apply wp_bind.
    eapply wp_mono; [apply wp_reconcileItem_counted|].
    intros h1 ev1 [e|st1] (Ht & Hd & Hc); [split_and!; simpl; try done; lia|].
    eapply wp_mono; [apply IH|].
    intros h2 ev2 r2 (Ht2 & Hd2 & Hc2). split_and!; [congruence..|].
    destruct r2; simpl; lia.
Qed.

(** X1. In every run of [reconcile], whatever the backend answers,
    [total] is the number of items; a pass that returns has counted every
    item exactly once as skipped, created or updated, and returns the
    statistics object it has been filling; a pass that fails has counted
    no more items than there are, and has not set [deleted]. *)
Theorem every_item_counted_once parentUid items (h : Heap B) h' evs r :
  reconcile roamApi this parentUid items h = (h', evs, r) ->
  total (h_stats h') = length items /\
  counted (h_stats h') <= length items /\
  match r with
  | inr stats => stats = h_stats h' /\ counted stats = length items
  | inl _ => deleted (h_stats h') = 0
  end.
Proof.
  apply (wp_run _ _ (fun h' evs r =>
    total (h_stats h') = length items /\
    counted (h_stats h') <= length items /\
    match r with
    | inr stats => stats = h_stats h' /\ counted stats = length items
    | inl _ => deleted (h_stats h') = 0
    end)).
  apply wp_reconcile. intros ev0 _. apply wp_bind.
  eapply wp_mono; [apply wp_items_counted|].
  intros h1 ev1 r1 (Ht & Hd & Hc). unfold counted in *. simpl in Ht, Hd, Hc.
  destruct r1 as [e|st1]; [split_and!; [done|lia|done]|].
  apply wp_bind. eapply wp_mono.
  { apply (sound_removeObsolete roamApi this parentUid
             (getChildren roamApi parentUid (h_backend h))
             (existingMapOf config
                (getChildren roamApi parentUid (h_backend h)))
             (existingMapOf_In _ _)). }
  intros h2 ev2 [e|n] (_ & Hsame & _); unfold sameStats in Hsame.
  - rewrite Hsame. split_and!; [done|lia|done].
  - wp_steps. simpl. rewrite Hsame. split_and!; [done|lia|done|lia].
Qed.

End Counting.

(** ** Progress reports *)

Lemma wp_also {B E A : Type} (m : M B E A) (h : Heap B)
    (Q Q' : Heap B -> list Event -> E + A -> Prop) :
  wp m h Q -> wp m h Q' -> wp m h (fun h' evs r => Q h' evs r /\ Q' h' evs r).
Proof. unfold wp. by split. Qed.

Lemma wp_unseen {B E A X : Type} (obs : Event -> option X) (m : M B E A)
    (h : Heap B) :
  unseen obs m -> wp m h (fun _ evs _ => omap obs evs = []).
Proof. intros Hm. apply Hm. Qed.

Section Progress.

Context {B E T : Type}.
Variable roamApi : RoamApiAdapter B E.
Variable this : BlockReconciler T.

Local Abbreviation config := (br_config this).
Local Abbreviation progress :=
  (fun ev => match ev with OnProgress s => Some s | _ => None end).

(** An iteration of the item loop that completes ends with the one call of
    [onProgress], if there is such an observer, on the statistics as they
    then are. *)
Lemma wp_reconcileItem_reports parentUid existingMap st item (h : Heap B) :
  wp (reconcileItem roamApi this parentUid existingMap st item) h
    (fun h' evs r =>
       progressReports evs
         = match r with
           | inr _ => if reportsProgress this then [h_stats h'] else []
           | inl _ => []
           end).
Proof.
  unfold reconcileItem. apply wp_bind. eapply wp_mono.
  { apply (wp_unseen progress).
    destruct (JsMap.get _ existingMap) as [existingNode|].
    - destruct (isUnchanged _ _).
      + apply unseen_bind; [done|]. intros _. by apply unseen_debug.
      + apply unseen_bind; [by apply unseen_updateExistingBlock|]. intros _.
        apply unseen_bind; [done|]. intros _. by apply unseen_debug.
    - apply unseen_bind; [by apply unseen_await|]. intros _.
      apply unseen_bind; [done|]. intros _. by apply unseen_debug. }
  intros h1 ev1 [e|[]] Hev1; [done|].
  apply wp_bind. eapply wp_mono.
  { apply (wp_also _ _ (fun h' _ r => h' = h1 /\ r = inr tt)).
    - by apply wp_maybeYieldToMain.
    - by apply (wp_unseen progress), unseen_maybeYieldToMain. }
  intros h2 ev2 r2 [[-> ->] Hev2]. apply wp_bind.
  unfold progressReports. unfold reportProgress, reportsProgress.
  destruct (options config) as [o|]; [destruct (onProgress o)|]; wp_steps;
    by rewrite !omap_app, Hev1, Hev2.
Qed.

Lemma wp_items_reports parentUid existingMap items : forall st (h : Heap B),
  wp (forOf (reconcileItem roamApi this parentUid existingMap) st items) h
    (fun h' evs r =>
       (forall k s, progressReports evs !! k = Some s ->
          total s = total (h_stats h) /\
          deleted s = deleted (h_stats h) /\
          counted s = S (counted (h_stats h) + k)) /\
       (reportsProgress this = false -> progressReports evs = []) /\
       (reportsProgress this = true ->
        counted (h_stats h')
          = length (progressReports evs) + counted (h_stats h))).
Proof.
  induction items as [|item items IH]; intros st h.
  - apply wp_ret. split_and!; [by intros [|?] ?|done|done].
  - cbn [forOf]. apply wp_bind. eapply wp_mono.
    { apply wp_also;
        [apply wp_reconcileItem_counted|apply wp_reconcileItem_reports]. }
    intros h1 ev1 [e|st1] [(Ht & Hd & Hc) Hev1].
    { rewrite Hev1. split_and!; [by intros [|?] ?|done|done]. }
    eapply wp_mono; [apply IH|].
    intros h2 ev2 r2 (Hall & Hnone & Hlen).
    unfold progressReports in *. rewrite omap_app, Hev1.
    destruct (reportsProgress this) eqn:Hrp.
    + split_and!; [|done|].
      * intros [|k] s; simpl.
        -- intros [= <-]. split_and!; [done..|lia].
        -- intros Hk. destruct (Hall k s Hk) as (? & ? & ?).
           split_and!; [congruence..|lia].
      * intros _. simpl. rewrite Hlen by done. lia.
    + rewrite Hnone by done. split_and!; [by intros [|?] ?|done..].
Qed.

(** X2. [onProgress] is called once for every item the pass has got
    through, right after the item is processed and never afterwards: the
    report after the item at position [k] shows [total] items, [k + 1] of
    them counted, and no deletion yet, since obsolete blocks are removed
    (and [deleted] is set) only after the last report.  A pass that
    returns has reported as many times as there are items, a pass that
    fails as many times as it has counted items.  Without an [onProgress]
    nothing is reported. *)
Theorem progress_reported_per_item parentUid items (h : Heap B) h' evs r :
  reconcile roamApi this parentUid items h = (h', evs, r) ->
  (forall k s, progressReports evs !! k = Some s ->
     total s = length items /\ counted s = S k /\ deleted s = 0) /\
  length (progressReports evs)
    = (if reportsProgress this
       then match r with
            | inr _ => length items
            | inl _ => counted (h_stats h')
            end
       else 0).
Proof.
  apply (wp_run _ _ (fun h' evs r =>
    (forall k s, progressReports evs !! k = Some s ->
       total s = length items /\ counted s = S k /\ deleted s = 0) /\
    length (progressReports evs)
      = (if reportsProgress this
         then match r with
              | inr _ => length items
              | inl _ => counted (h_stats h')
              end
         else 0))).
  unfold reconcile.
  apply wp_bind, wp_modifyStats. apply wp_bind, wp_readBackend.
  set (nodes := getChildren roamApi parentUid (h_backend h)).
  apply wp_bind. eapply wp_mono.
  { apply (wp_also _ _
             (fun h1 _ r => h_stats h1 = newStats (length items) /\
                            r = inr (existingMapOf config nodes))).
    - by apply wp_buildExistingMap.
    - apply (wp_unseen progress). by apply unseen_buildExistingMap. }
  intros h1 ev1 r1 [[Hh1 ->] Hev1].
  apply wp_bind. eapply wp_mono.
  { apply (wp_also _ _ (fun h2 _ r => h2 = h1 /\ r = inr tt)).
    - by apply wp_debug.
    - by apply (wp_unseen progress), unseen_debug. }
  intros h2 ev2 r2 [[-> ->] Hev2].
  apply wp_bind. eapply wp_mono.
  { apply wp_also; [apply wp_items_counted|apply wp_items_reports]. }
  intros h3 ev3 r3 [(_ & _ & Hcount) (Hall & Hnone & Hlen)].
  rewrite Hh1 in Hall, Hlen, Hcount.
  unfold counted in Hall, Hlen, Hcount. simpl in Hall, Hlen, Hcount.
  assert (Hreports : forall k s, progressReports ev3 !! k = Some s ->
            total s = length items /\ counted s = S k /\ deleted s = 0).
  { intros k s Hk. destruct (Hall k s Hk) as (? & ? & ?). by split_and!. }
  unfold progressReports in *. cbn [app].
  destruct r3 as [e|st3].
  { rewrite !omap_app, Hev1, Hev2. cbn [app].
    split; [done|]. destruct (reportsProgress this); [|by rewrite Hnone].
    unfold counted. rewrite Hlen by done. lia. }
  apply wp_bind. eapply wp_mono.
  { apply wp_also.
    - apply (sound_removeObsolete roamApi this parentUid nodes
               (existingMapOf config nodes) (existingMapOf_In _ _)).
    - apply (wp_unseen progress). by apply unseen_removeObsolete. }
  intros h4 ev4 r4 [(_ & Hsame & _) Hev4]. unfold sameStats in Hsame.
  destruct r4 as [e|n].
  { rewrite !omap_app, Hev1, Hev2, Hev4, app_nil_r. cbn [app].
    split; [done|]. destruct (reportsProgress this); [|by rewrite Hnone].
    unfold counted. rewrite Hsame, Hlen by done. lia. }
  apply wp_bind, wp_modifyStats. apply wp_bind. eapply wp_mono.
  { apply (wp_also _ _ (fun _ _ r => r = inr tt)).
    - by apply wp_debug.
    - by apply (wp_unseen progress), unseen_debug. }
  intros h5 ev5 r5 [-> Hev5]. apply wp_getStats.
  rewrite !omap_app, Hev1, Hev2, Hev4, Hev5, !app_nil_r. cbn [app omap].
  split; [done|]. destruct (reportsProgress this); [|by rewrite Hnone].
  specialize (Hlen eq_refl). lia.
Qed.

End Progress.

Module CountingExamples.
Import Examples TopExamples FailureExamples.

Lemma every_item_counted_once_witness :
  total (incUpdated (newStats 1)) = 1 /\
  counted (incUpdated (newStats 1)) <= 1 /\
  deleted (incUpdated (newStats 1)) = 0.
Proof.
  apply (every_item_counted_once flakyApi reconciler "page" [("1", "new")]
           (heapOf [leaf "u1" "1:: old"; leaf "u3" "3:: x"])
           (mkHeap [leaf "u1" "1:: old"; leaf "u3" "3:: x"]
              (incUpdated (newStats 1)) newChildStats)
           [Api (UpdateBlock "u1" "1:: new"); Delay 0;
            OnProgress (incUpdated (newStats 1)); Api (DeleteBlock "u3")]
           (inl "locked")).
  reflexivity.
Defined.

Lemma progress_reported_per_item_witness :
  (forall k s,
     progressReports
       [Api (UpdateBlock "u1" "1:: new"); Delay 0;
        OnProgress (incUpdated (newStats 2));
        Api (CreateBlock "page" (line "2:: b") OrderLast);
        OnProgress (incCreated (incUpdated (newStats 2)));
        Api (DeleteBlock "u3"); Delay 0] !! k = Some s ->
     total s = 2 /\ counted s = S k /\ deleted s = 0) /\
  length
    (progressReports
       [Api (UpdateBlock "u1" "1:: new"); Delay 0;
        OnProgress (incUpdated (newStats 2));
        Api (CreateBlock "page" (line "2:: b") OrderLast);
        OnProgress (incCreated (incUpdated (newStats 2)));
        Api (DeleteBlock "u3"); Delay 0]) = 2.
Proof.
  apply (progress_reported_per_item mockApi reconciler "page"
           [("1", "new"); ("2", "b")]
           (heapOf [leaf "u1" "1:: old"; leaf "u3" "3:: x"])
           (mkHeap [leaf "u1" "1:: old"; leaf "u3" "3:: x"]
              (setDeleted 1 (incCreated (incUpdated (newStats 2))))
              newChildStats)
           _ (inr (setDeleted 1 (incCreated (incUpdated (newStats 2)))))).
  reflexivity.
Defined.

End CountingExamples.

(** ** Items without an existing block *)

Lemma filter_ext_elem {A : Type} (P Q : A -> Prop)
    `{forall x, Decision (P x)} `{forall x, Decision (Q x)} (l : list A) :
  (forall x, x ∈ l -> P x <-> Q x) -> filter P l = filter Q l.
Proof.
  induction l as [|x l IH]; intros HPQ; [done|].
  assert (Hx : P x <-> Q x) by (apply HPQ; by left).
  assert (Hl : filter P l = filter Q l)
    by (apply IH; intros y Hy; apply HPQ; by right).
  destruct (decide (P x)).
  - rewrite !filter_cons_True by tauto. by rewrite Hl.
  - rewrite !filter_cons_False by tauto. done.
Qed.

Section Unmatched.

Context {B E T : Type}.
Variable roamApi : RoamApiAdapter B E.
Variable this : BlockReconciler T.
Hypothesis Hres : resolves roamApi.

Local Abbreviation config := (br_config this).

Lemma wp_items_created parentUid existingMap items :
  forall st (h : Heap B) (Q : Heap B -> list Event -> E + ItemLoop -> Prop),
  (forall item, item ∈ items ->
     JsMap.get (extractId config item) existingMap = None) ->
  (forall h' evs st',
     apiCalls evs
       = (fun item => CreateBlock parentUid (buildBlock config item) OrderLast)
           <$> items ->
     total (h_stats h') = total (h_stats h) ->
     skipped (h_stats h') = skipped (h_stats h) ->
     created (h_stats h') = length items + created (h_stats h) ->
     updated (h_stats h') = updated (h_stats h) ->
     deleted (h_stats h') = deleted (h_stats h) ->
     (forall id, id ∈ seenIds st' <->
                 id ∈ extractId config <$> items \/ id ∈ seenIds st) ->
     Q h' evs (inr st')) ->
  wp (forOf (reconcileItem roamApi this parentUid existingMap) st items) h Q.
Proof.
  induction items as [|item items IH]; intros st h Q Hnone HQ.
  - apply wp_ret. apply HQ; try done. intros id. rewrite fmap_nil.
    split; [by right|]. by intros [?%elem_of_nil|?].
  - cbn [forOf]. apply wp_bind. unfold reconcileItem at 1.
    rewrite Hnone by (by left). unfold createNewBlock.
    apply wp_bind, wp_bind, wp_await_resolves; [done|]. cbv beta iota.
    wp_steps. apply wp_maybeYieldToMain. intros ev2 Hq2. wp_steps.
    apply wp_reportProgress. intros ev3 Hq3. wp_steps.
    apply IH; [intros i Hi; apply Hnone; by right|].
    intros h' ev4 st' Hc Ht Hs Hcr Hu Hd Hseen. simpl in *.
    apply HQ; try done.
    + calls. by rewrite Hc.
    + lia.
    + intros id. rewrite Hseen, elem_of_cons, elem_of_union,
        elem_of_singleton. tauto.
Qed.

(** X3. The items whose identifier is not in the identifier map are
    created one by one in the order of the list, each last under the
    parent, also when two of them share an identifier: the map is built
    once, before the first item.  When no item has an entry, the pass is
    these creations followed by the deletion of every mapped node that
    [preserveWhen] does not protect, in the order of the map; so a pass
    over an empty list deletes all of them. *)
Theorem unmatched_items_created_in_order parentUid items (h : Heap B) :
  (forall item, item ∈ items ->
     JsMap.get (extractId config item)
       (existingMapOf config (getChildren roamApi parentUid (h_backend h)))
     = None) ->
  exists h' evs,
    reconcile roamApi this parentUid items h
      = (h', evs,
         inr {| total := length items; skipped := 0;
                created := length items; updated := 0;
                deleted :=
                  length
                    (filter (fun kv => preserved this kv.2 = false)
                       (existingMapOf config
                          (getChildren roamApi parentUid (h_backend h)))) |})
    /\
    apiCalls evs
      = ((fun item => CreateBlock parentUid (buildBlock config item) OrderLast)
           <$> items)
        ++ ((fun kv => DeleteBlock (node_uid kv.2))
              <$> filter (fun kv => preserved this kv.2 = false)
                    (existingMapOf config
                       (getChildren roamApi parentUid (h_backend h)))).
Proof.
  intros Hnone.
  set (map := existingMapOf config
                (getChildren roamApi parentUid (h_backend h))) in *.
  cut (wp (reconcile roamApi this parentUid items) h
         (fun h' evs r =>
            r = inr {| total := length items; skipped := 0;
                       created := length items; updated := 0;
                       deleted :=
                         length
                           (filter (fun kv => preserved this kv.2 = false)
                              map) |} /\
            apiCalls evs
              = ((fun item =>
                    CreateBlock parentUid (buildBlock config item) OrderLast)
                   <$> items)
                ++ ((fun kv => DeleteBlock (node_uid kv.2))
                      <$> filter (fun kv => preserved this kv.2 = false)
                            map))).
  { intros (h' & evs & r & Hrun & -> & Hc)%wp_exists. by exists h', evs. }
  apply wp_reconcile. intros ev0 Hq0. fold map. apply wp_bind.
  apply wp_items_created; [done|].
  intros h1 ev1 st1 Hc1 Ht Hs Hcr Hu Hd Hseen. simpl in *.
  assert (Hobs : obsolete this map (seenIds st1)
                 = filter (fun kv => preserved this kv.2 = false) map).
  { unfold obsolete. apply filter_ext_elem. intros [id n] Hin. simpl.
    split; [tauto|]. intros Hp. split; [|done].
    intros [Hid|Hid%elem_of_empty]%Hseen; [|done].
    apply list_elem_of_fmap in Hid as (item & -> & Hitem).
    specialize (Hnone item Hitem). apply JsMapFacts.get_None_keys in Hnone.
    apply Hnone. apply list_elem_of_In.
    by apply (list_elem_of_fmap_2 fst _ (extractId config item, n)). }
  unfold removeObsolete. wp_steps. apply wp_removeEntry_loop; [done|].
  intros h2 ev2 st2 Hc2 Hn Hst _. wp_steps.
  unfold JsMap.entries in *. rewrite Hobs in Hc2, Hn. split.
  - f_equal. rewrite Hst. destruct (h_stats h1). simpl in *.
    unfold setDeleted. simpl. f_equal; lia.
  - calls. by rewrite Hc1, Hc2, !app_nil_r.
Qed.

End Unmatched.

(** ** The identifier map *)

Section LastWins.

Context {B E T : Type}.
Variable this : BlockReconciler T.

Local Abbreviation config := (br_config this).

(** X4. [buildExistingMap] only logs, and returns a map in which an
    identifier leads to the last of the nodes that carry it (an earlier
    node with the same identifier is shadowed), and to nothing exactly
    when no node carries it. *)
Theorem identifier_map_last_wins nodes (h : Heap B) :
  exists evs map,
    buildExistingMap (E:=E) this nodes h = (h, evs, inr map) /\
    apiCalls evs = [] /\
    (forall pre n post id,
       nodes = pre ++ n :: post ->
       idOf config n = Some id ->
       (forall m, m ∈ post -> idOf config m <> Some id) ->
       JsMap.get id map = Some n) /\
    (forall id,
       JsMap.get id map = None <->
       forall m, m ∈ nodes -> idOf config m <> Some id).
Proof.
  cut (wp (buildExistingMap (E:=E) this nodes) h
         (fun h' evs r => h' = h /\ apiCalls evs = [] /\
                          r = inr (existingMapOf config nodes))).
  { intros (h' & evs & r & Hrun & -> & Hq & ->)%wp_exists.
    exists evs, (existingMapOf config nodes). split_and!; [done..| |].
    - intros pre n post id -> Hid Hpost. unfold existingMapOf.
      rewrite fold_left_app. cbn [fold_left].
      rewrite get_fold_notin.
      + unfold idOf in Hid. rewrite Hid. apply JsMapFacts.get_set_eq.
      + intros (m & Hm & Hin)%list_elem_of_omap. by eapply Hpost.
    - intros id. split; [apply existingMapOf_lookup_None|].
      intros Hnone. unfold existingMapOf. rewrite get_fold_notin; [done|].
      intros (m & Hm & Hin)%list_elem_of_omap. by eapply Hnone. }
  apply wp_buildExistingMap. by intros evs Hq.
Qed.

End LastWins.

(** ** Nodes that are not values of the identifier map *)

Section MapValues.

Context {B E T : Type}.
Variable roamApi : RoamApiAdapter B E.
Variable this : BlockReconciler T.

Local Abbreviation config := (br_config this).

(** X5. A pass only ever touches the nodes its identifier map leads to:
    uids being distinct, a fetched node that is not a value of the map
    (it has no identifier, or a later node carries the same one) is the
    target of no call of the pass, whether the pass completes or fails. *)
Theorem only_map_values_touched parentUid items (h : Heap B) h' evs r n :
  n ∈ getChildren roamApi parentUid (h_backend h) ->
  (forall id,
     JsMap.get id
       (existingMapOf config (getChildren roamApi parentUid (h_backend h)))
     <> Some n) ->
  NoDup (parentUid
           :: fetchedUids (getChildren roamApi parentUid (h_backend h))) ->
  reconcile roamApi this parentUid items h = (h', evs, r) ->
  forall c, c ∈ apiCalls evs -> target c <> node_uid n.
Proof.
  set (nodes := getChildren roamApi parentUid (h_backend h)).
  set (map := existingMapOf config nodes).
  intros Hn Hvalue [Hparent Hnd]%NoDup_cons Hrun.
  assert (Hcalls : Forall (topCall this parentUid (snd <$> map))
                     (apiCalls evs)).
  { revert Hrun.
    apply (wp_run _ _ (fun _ evs _ =>
             Forall (topCall this parentUid (snd <$> map)) (apiCalls evs))).
    apply wp_reconcile. intros ev0 Hq0. eapply wp_mono.
    { apply (sound_reconcile_loops roamApi this parentUid (snd <$> map) map).
      intros k m Hin. split.
      - by apply (list_elem_of_fmap_2 snd _ (k, m)).
      - by destruct (existingMapOf_In _ _ _ _ Hin). }
    intros h1 ev1 r1 (Hcalls & _). by calls. }
  assert (Hne : forall m a, m ∈ snd <$> map ->
                  a ∈ node_uid m :: (node_uid <$> orEmpty (node_children m)) ->
                  a <> node_uid n).
  { intros m a ([k m'] & -> & Hin)%list_elem_of_fmap Ha ->. simpl in *.
    assert (m' = n) as ->.
    { eapply (NoDup_flat_map_eq _ nodes); [exact Hnd| |done|done|by left].
      by destruct (existingMapOf_In _ _ _ _ Hin). }
    apply (Hvalue k). apply JsMapFacts.In_get.
    - apply (existingMapOf_NoDup config nodes).
    - by apply list_elem_of_In. }
  intros c Hc Heq. rewrite Forall_forall in Hcalls.
  destruct (Hcalls c Hc) as [[block ->]|(m & Hm & _ & Hcase)]; simpl in Heq.
  - subst parentUid. by apply Hparent, fetchedUids_top.
  - destruct Hcase as [[text ->]|[->|(reconciler & _ & Hch)]]; simpl in Heq.
    + eapply Hne; [done|by left|done].
    + eapply Hne; [done|by left|done].
    + destruct c as [p block order|uid text|uid]; simpl in *.
      * destruct Hch as [-> _]. eapply Hne; [done|by left|done].
      * destruct Hch as (ch & Hch & <- & _).
        eapply Hne; [done| |done]. right. by apply list_elem_of_fmap_2.
      * destruct Hch as (ch & Hch & <- & _).
        eapply Hne; [done| |done]. right. by apply list_elem_of_fmap_2.
Qed.

(** X6. An item counted as updated may have changed nothing: when its
    node has the text of the payload and differs from it in the children
    only, and no children reconciler is attached or the payload has no
    child list, the item is processed without any backend call and
    [updated] is incremented all the same. *)
Theorem updated_without_any_call parentUid existingMap st item n
    (h : Heap B) :
  JsMap.get (extractId config item) existingMap = Some n ->
  node_text n = bp_text (buildBlock config item) ->
  isUnchanged n (buildBlock config item) = false ->
  childrenReconciler this = None \/
  bp_children (buildBlock config item) = None ->
  exists h' evs st',
    reconcileItem roamApi this parentUid existingMap st item h
      = (h', evs, inr st') /\
    apiCalls evs = [] /\
    h_backend h' = h_backend h /\
    h_stats h' = incUpdated (h_stats h).
Proof.
  intros Hget Htext Hun Hcase.
  cut (wp (reconcileItem roamApi this parentUid existingMap st item) h
         (fun h' evs r => (exists st', r = inr st') /\ apiCalls evs = [] /\
            h_backend h' = h_backend h /\
            h_stats h' = incUpdated (h_stats h))).
  { intros (h' & evs & r & Hrun & [st' ->] & ? & ? & ?)%wp_exists.
    by exists h', evs, st'. }
  unfold reconcileItem. rewrite Hget, Hun. unfold updateExistingBlock.
  rewrite Htext, String.eqb_refl. simpl negb. cbv iota.
  assert (Hsync : match childrenReconciler this,
                        bp_children (buildBlock config item) with
                  | Some reconciler, Some newChildren =>
                      syncChildren roamApi reconciler (node_uid n)
                        (orEmpty (node_children n)) newChildren ;;
                      ret tt
                  | _, _ => ret (B:=B) (E:=E) tt
                  end = ret tt).
  { destruct Hcase as [-> | ->]; [done|].
    by destruct (childrenReconciler this). }
  rewrite Hsync. wp_steps. apply wp_maybeYieldToMain. intros ev1 Hq1.
  wp_steps. apply wp_reportProgress. intros ev2 Hq2. wp_steps.
  split_and!; [by eexists|by calls|done|done].
Qed.

End MapValues.

Module MapExamples.
Import Examples TopExamples PacingExamples.

Lemma unmatched_items_created_in_order_witness :
  exists h' evs,
    reconcile mockApi reconciler "page" [("1", "a"); ("1", "b")]
      (heapOf [leaf "u3" "3:: x"; leaf "u9" "9:: done"])
      = (h', evs,
         inr {| total := 2; skipped := 0; created := 2; updated := 0;
                deleted := 1 |}) /\
    apiCalls evs
      = [CreateBlock "page" (line "1:: a") OrderLast;
         CreateBlock "page" (line "1:: b") OrderLast;
         DeleteBlock "u3"].
Proof.
  apply (unmatched_items_created_in_order mockApi reconciler
           (fun c b => match c with
                       | CreateBlock _ _ _ => eq_refl
                       | UpdateBlock _ _ => eq_refl
                       | DeleteBlock _ => eq_refl
                       end)
           "page" [("1", "a"); ("1", "b")]
           (heapOf [leaf "u3" "3:: x"; leaf "u9" "9:: done"])).
  intros item Hitem.
  apply elem_of_cons in Hitem as [->|Hitem]; [reflexivity|].
  apply elem_of_cons in Hitem as [->|Hitem]; [reflexivity|].
  by apply elem_of_nil in Hitem.
Defined.

Lemma only_map_values_touched_witness :
  Forall (fun c => target c <> "u1")
    (apiCalls
       [Api (UpdateBlock "u2" "1:: new"); Delay 0;
        OnProgress (incUpdated (newStats 1))]).
Proof.
  apply Forall_forall.
  apply (only_map_values_touched mockApi reconciler "page" [("1", "new")]
           (heapOf [leaf "u1" "1:: old"; leaf "u2" "1:: older"])
           (mkHeap [leaf "u1" "1:: old"; leaf "u2" "1:: older"]
              (setDeleted 0 (incUpdated (newStats 1))) newChildStats)
           _ (inr (setDeleted 0 (incUpdated (newStats 1))))
           (leaf "u1" "1:: old")).
  - simpl. repeat constructor.
  - intros id Hget%JsMapFacts.get_Some_In. vm_compute in Hget.
    by destruct Hget as [[=]|[]].
  - apply (bool_decide_unpack _). by vm_compute.
  - reflexivity.
Defined.

Lemma updated_without_any_call_witness :
  exists h' evs st',
    reconcileItem mockApi (newBlockReconciler outlineConfig) "page"
      [("1", leaf "u1" "1:: a")] (mkItemLoop ∅ 0) ("1", "a") (heapOf [])
      = (h', evs, inr st') /\
    apiCalls evs = [] /\
    h_backend h' = [] /\
    h_stats h' = incUpdated (newStats 0).
Proof.
  apply (updated_without_any_call mockApi (newBlockReconciler outlineConfig)
           "page" [("1", leaf "u1" "1:: a")] (mkItemLoop ∅ 0) ("1", "a")
           (leaf "u1" "1:: a") (heapOf [])); try reflexivity.
  by left.
Defined.

End MapExamples.

(** ** Every desired child is counted once *)

Section ChildCounting.

Context {B E : Type}.
Variable roamApi : RoamApiAdapter B E.
Variable this : ChildrenReconciler.

Local Abbreviation cfg := (cr_config this).

Lemma wp_deleteSpecials_counted specials : forall (h : Heap B),
  wp (forOf (deleteSpecial roamApi this) tt specials) h
    (fun h' _ _ =>
       childCounted (h_childStats h') = childCounted (h_childStats h)).
Proof.
  induction specials as [|s specials IH]; intros h; [done|].
  cbn [forOf]. unfold deleteSpecial at 1. wp_any; [done|].
  eapply wp_mono; [apply IH|]. by intros ? ? ? ->.
Qed.

Lemma wp_deleteOrphans_counted entries : forall n (h : Heap B),
  wp (forOf (deleteOrphan roamApi this) n entries) h
    (fun h' _ _ =>
       childCounted (h_childStats h') = childCounted (h_childStats h)).
Proof.
  induction entries as [|[key orphanBlock] entries IH]; intros n h; [done|].
  cbn [forOf]. unfold deleteOrphan at 1. wp_any; [done|].
  eapply wp_mono; [apply IH|]. by intros ? ? ? ->.
Qed.

Lemma wp_syncChild_counted parentUid st c (h : Heap B) :
  wp (syncChild roamApi this parentUid st c) h
    (fun h' _ r =>
       childCounted (h_childStats h')
         = childCounted (h_childStats h)
           + match r with
             | inr _ => if handled this c then 1 else 0
             | inl _ => 0
             end).
Proof.
  unfold syncChild, handled, keyOf.
  destruct (truthy (extractKey cfg (bp_text c))) as [key|].
  - destruct (JsMap.get key (existingPropsMap st)) as [existing|].
    + destruct (String.eqb _ _); wp_any; unfold childCounted; simpl; lia.
    + wp_any; unfold childCounted; simpl; lia.
  - destruct (optCall _ _); [|wp_any; lia].
    apply wp_bind, wp_bind. eapply wp_mono; [apply wp_deleteSpecials_counted|].
    intros h1 ev1 [e|[]] Hh1; [lia|].
    wp_any; unfold childCounted in *; simpl; lia.
Qed.

Lemma wp_syncChild_loop_counted parentUid newChildren :
  forall st (h : Heap B),
  wp (forOf (syncChild roamApi this parentUid) st newChildren) h
    (fun h' _ r =>
       match r with
       | inr _ =>
           childCounted (h_childStats h')
           = childCounted (h_childStats h)
             + length (filter (fun c => handled this c = true) newChildren)
       | inl _ =>
           childCounted (h_childStats h')
           <= childCounted (h_childStats h)
              + length (filter (fun c => handled this c = true) newChildren)
       end).
Proof.
  induction newChildren as [|c cs IH]; intros st h.
  - apply wp_ret. simpl. lia.
  - cbn [forOf]. apply wp_bind.
    eapply wp_mono; [apply wp_syncChild_counted|].
    assert (Hlen : length (filter (fun c => handled this c = true) (c :: cs))
                   = (if handled this c then 1 else 0)
                     + length (filter (fun c => handled this c = true) cs)).
    { destruct (handled this c) eqn:Hc.
      - by rewrite filter_cons_True.
      - rewrite filter_cons_False; [done|]. by rewrite Hc. }
    intros h1 ev1 [e|st1] Hh1; [lia|].
    eapply wp_mono; [apply IH|]. intros h2 ev2 [e|st2] Hh2; lia.
Qed.

(** X7. Whatever the backend answers, a pass of [syncChildren] that
    returns has counted, as created, updated or skipped, exactly the
    desired children that have a key or are special blocks, and returns
    the statistics object it has been filling.  A desired child that has
    no key and is no special block is dropped: its step issues no call,
    leaves backend and statistics as they are, and only advances the
    operation counter. *)
Theorem every_desired_child_counted parentUid existingChildren newChildren
    (h : Heap B) h' evs r :
  syncChildren roamApi this parentUid existingChildren newChildren h
    = (h', evs, r) ->
  childCounted (h_childStats h')
    <= length (filter (fun c => handled this c = true) newChildren) /\
  (forall stats, r = inr stats ->
     stats = h_childStats h' /\
     childCounted stats
       = length (filter (fun c => handled this c = true) newChildren)) /\
  (forall st c (h0 : Heap B),
     handled this c = false ->
     exists evs0,
       syncChild roamApi this parentUid st c h0
         = (h0, evs0,
            inr (mkChildLoop (existingPropsMap st) (existingSpecialBlocks st)
                   (S (cl_operationCount st)))) /\
       apiCalls evs0 = []).
Proof.
  intros Hrun. split_and!.
  3:{ intros st c h0 Hc. unfold handled, keyOf in Hc.
      cut (wp (syncChild roamApi this parentUid st c) h0
             (fun h1 evs0 r0 =>
                h1 = h0 /\ apiCalls evs0 = [] /\
                r0 = inr (mkChildLoop (existingPropsMap st)
                            (existingSpecialBlocks st)
                            (S (cl_operationCount st))))).
      { intros (h1 & evs0 & r0 & Hstep & -> & ? & ->)%wp_exists.
        by exists evs0. }
      unfold syncChild.
      destruct (truthy (extractKey cfg (bp_text c))); [done|].
      rewrite Hc. wp_steps. split_and!; [done|by calls|done]. }
  all: revert Hrun;
    apply (wp_run _ _ (fun h' evs r =>
      childCounted (h_childStats h')
        <= length (filter (fun c => handled this c = true) newChildren) /\
      forall stats, r = inr stats ->
        stats = h_childStats h' /\
        childCounted stats
          = length (filter (fun c => handled this c = true) newChildren)));
    apply wp_syncChildren; intros ev0 _; apply wp_bind;
    (eapply wp_mono; [apply wp_syncChild_loop_counted|]);
    intros h1 ev1 [e|st1] Hh1; unfold childCounted in Hh1 at 2;
    simpl in Hh1; [by split; [lia|]|];
    apply wp_bind; (eapply wp_mono; [apply wp_deleteOrphans_counted|]);
    intros h2 ev2 [e|n2] Hh2; [by split; [lia|]|];
    wp_steps; (split; [lia|]); intros stats [= <-]; split; [done|lia].
Qed.

End ChildCounting.

(** ** Existing children without a key *)

Section Unkeyed.

Context {B E : Type}.
Variable roamApi : RoamApiAdapter B E.
Variable this : ChildrenReconciler.
Variable parentUid : string.
Variable existingChildren : list RoamNode.

Local Abbreviation cfg := (cr_config this).
Local Abbreviation P := (keyedCall this parentUid existingChildren).
Local Abbreviation Inv := (childInv this existingChildren).

Ltac sound_seq :=
  repeat first
    [ apply (sound_bind roamApi _ _ childFrame_Frame (fun _ => True));
      [|intros ? _]
    | apply sound_debug; apply childFrame_Frame
    | apply sound_delay; apply childFrame_Frame
    | apply sound_maybeYield; apply childFrame_Frame
    | apply sound_modifyChildStats; apply childFrame_modify;
      first [ apply keeps_incChildSkipped | apply keeps_incChildUpdated
            | apply keeps_incChildCreated | apply keeps_incChildDeleted ]
    | apply sound_await; [apply childFrame_Frame|] ].

(** The step for a desired child that does not replace the special
    blocks leaves them alone. *)
Lemma sound_syncChild_keyed st newChild :
  Inv st -> ~ replacesSpecials this newChild ->
  sound roamApi P childFrame Inv
    (syncChild roamApi this parentUid st newChild).
Proof.
  intros [Hm Hsp] Hno. unfold syncChild.
  apply (sound_bind roamApi _ _ childFrame_Frame Inv).
  2:{ intros st' Hst'. sound_seq.
      apply sound_ret; [apply childFrame_Frame|]. by destruct Hst'. }
  destruct (truthy (extractKey cfg (bp_text newChild))) as [key|] eqn:Hkey.
  - destruct (JsMap.get key (existingPropsMap st)) as [existing|] eqn:Hget.
    + apply JsMapFacts.get_Some_In, list_elem_of_In, Hm in Hget
        as [Hin Hk].
      apply (sound_bind roamApi _ _ childFrame_Frame (fun _ => True)).
      * destruct (String.eqb _ _); sound_seq. unfold keyedCall.
        exists existing. split_and!; [done..|]. unfold keyed. by rewrite Hk.
      * intros _ _. apply sound_ret; [apply childFrame_Frame|].
        split; simpl; [|done]. intros k n Hkn%In_delete_inv. auto.
    + sound_seq; [done|]. by apply sound_ret; [apply childFrame_Frame|].
  - destruct (optCall _ _) eqn:Hspecial;
      [|by apply sound_ret; [apply childFrame_Frame|]].
    by destruct Hno.
Qed.

Lemma sound_deleteOrphan_keyed n key orphanBlock :
  orphanBlock ∈ existingChildren -> keyed this orphanBlock ->
  sound roamApi P childFrame (fun _ => True)
    (deleteOrphan roamApi this n (key, orphanBlock)).
Proof.
  intros Hin Hk. unfold deleteOrphan. sound_seq.
  - unfold keyedCall. by exists orphanBlock.
  - by apply sound_ret; [apply childFrame_Frame|].
Qed.

Lemma sound_syncChildren_keyed newChildren :
  Forall (fun c => ~ replacesSpecials this c) newChildren ->
  sound roamApi P sameStats (fun _ => True)
    (syncChildren roamApi this parentUid existingChildren newChildren).
Proof.
  intros Hno. unfold syncChildren.
  pose proof (partitionExisting_childInv this existingChildren) as Hinv.
  destruct (partitionExisting cfg existingChildren)
    as [propsMap specialBlocks].
  apply (sound_bind roamApi _ _ sameStats_Frame (fun _ => True)).
  { by apply sound_modifyChildStats. }
  intros _ _. apply (sound_bind roamApi _ _ sameStats_Frame (fun _ => True)).
  { apply sound_debug, sameStats_Frame. }
  intros _ _.
  apply (sound_mono roamApi P P childFrame sameStats);
    [|done|by intros ? ? [? _]].
  apply (sound_bind roamApi _ _ childFrame_Frame Inv).
  - apply (sound_forOf roamApi _ _ childFrame_Frame); [|done].
    intros s x Hs Hx. apply sound_syncChild_keyed; [done|].
    rewrite Forall_forall in Hno. by apply Hno.
  - intros st' [Hm _]. sound_seq.
    + eapply sound_post.
      * apply (sound_forOf roamApi _ _ childFrame_Frame (fun _ => True));
          [|done].
        intros n [k orphan] _ Hin. destruct (Hm k orphan Hin) as [? Hk].
        apply sound_deleteOrphan_keyed; [done|]. unfold keyed. by rewrite Hk.
      * done.
    + apply sound_getChildStats, childFrame_Frame.
Qed.

(** X8. An existing child without a key is never updated, and it is
    deleted only as a special block that a desired child replaces: uids
    being distinct, a call deleting it means that [isSpecialBlock] holds
    for its text and that some desired child has no key and is a special
    block too.  So existing children that are neither keyed nor special
    are left alone, and so are the special ones when no desired child is
    special. *)
Theorem unkeyed_children_kept newChildren (h : Heap B) h' evs r n :
  n ∈ existingChildren ->
  keyOf this (node_text n) = None ->
  NoDup (node_uid <$> existingChildren) ->
  syncChildren roamApi this parentUid existingChildren newChildren h
    = (h', evs, r) ->
  (forall text, UpdateBlock (node_uid n) text ∉ apiCalls evs) /\
  (DeleteBlock (node_uid n) ∈ apiCalls evs ->
   optCall (isSpecialBlock cfg) (node_text n) = true /\
   exists c, c ∈ newChildren /\ replacesSpecials this c).
Proof.
  intros Hn Hkey Hnd Hrun.
  pose proof (sound_syncChildren roamApi this parentUid existingChildren
                newChildren h) as Hsound.
  apply (fun H => wp_run _ _ _ _ _ _ H Hrun) in Hsound as (Hcalls & _).
  rewrite Forall_forall in Hcalls.
  assert (Hunkeyed : forall m, m ∈ existingChildren ->
                       node_uid m = node_uid n -> ~ keyed this m).
  { intros m Hm Huid Hkeyed.
    assert (m = n) as -> by (by eapply (NoDup_fmap_eq node_uid)).
    unfold keyed in Hkeyed. rewrite Hkey in Hkeyed. by destruct Hkeyed. }
  split_and!.
  - intros text Hc. apply Hcalls in Hc as (m & Hm & Huid & Hkeyed).
    by eapply Hunkeyed.
  - intros Hc. split.
    + apply Hcalls in Hc as (m & Hm & Huid & Hcase).
      destruct Hcase as [Hkeyed|[_ Hsp]]; [by destruct (Hunkeyed m)|].
      assert (m = n) as -> by (by eapply (NoDup_fmap_eq node_uid)). done.
    + destruct (decide (Exists (replacesSpecials this) newChildren))
        as [Hex|Hno].
      { apply Exists_exists in Hex as (c & Hin & Hc'). by exists c. }
      apply not_Exists_Forall in Hno; [|apply _].
      pose proof (sound_syncChildren_keyed newChildren Hno h) as Hkeyed.
      apply (fun H => wp_run _ _ _ _ _ _ H Hrun) in Hkeyed as (Hcalls' & _).
      rewrite Forall_forall in Hcalls'.
      apply Hcalls' in Hc as (m & Hm & Huid & Hk). by destruct (Hunkeyed m).
Qed.

End Unkeyed.

(** ** Delays between the calls of [syncChildren] *)

Lemma separated_app ms evs1 : forall p evs2,
  separated ms p (evs1 ++ evs2) <->
  separated ms p evs1 /\ separated ms (pendingAfter ms p evs1) evs2.
Proof.
  induction evs1 as [|ev evs1 IH]; intros p evs2; [simpl; tauto|].
  destruct ev; simpl; rewrite ?IH; tauto.
Qed.

Lemma pendingAfter_app ms evs1 : forall p evs2,
  pendingAfter ms p (evs1 ++ evs2)
  = pendingAfter ms (pendingAfter ms p evs1) evs2.
Proof.
  induction evs1 as [|ev evs1 IH]; intros p evs2; [done|].
  destruct ev; simpl; by rewrite ?IH.
Qed.

Section Paces.

Context {B E : Type}.
Variable roamApi : RoamApiAdapter B E.
Variable ms : nat.

Lemma paces_ret {A : Type} p (a : A) : paces ms p p (ret (B:=B) (E:=E) a).
Proof. intros h. by apply wp_ret. Qed.

Lemma paces_bind {A C : Type} p p1 p2 (m : M B E A) (k : A -> M B E C) :
  paces ms p p1 m -> (forall a, paces ms p1 p2 (k a)) ->
  paces ms p p2 (bind m k).
Proof.
  intros Hm Hk h. apply wp_bind. eapply wp_mono; [apply Hm|].
  intros h1 ev1 [e|a] [Hsep Hend]; [by split|].
  eapply wp_mono; [apply Hk|]. intros h2 ev2 r2 [Hsep2 Hend2].
  rewrite separated_app, pendingAfter_app, (Hend a eq_refl). by split.
Qed.

Lemma paces_forOf {A S : Type} p (body : S -> A -> M B E S) xs :
  (forall s x, paces ms p p (body s x)) ->
  forall s, paces ms p p (forOf body s xs).
Proof.
  intros Hbody. induction xs as [|x xs IH]; intros s; [apply paces_ret|].
  cbn [forOf]. by eapply paces_bind.
Qed.

Lemma paces_await c : paces ms false true (await roamApi c).
Proof. intros h. apply wp_await. intros b' r _. by simpl. Qed.

Lemma paces_delay p : paces ms p false (delay (B:=B) (E:=E) ms).
Proof. intros h. apply wp_delay. simpl. by rewrite Nat.eqb_refl. Qed.

Lemma paces_debug p present event :
  paces ms p p (debug (B:=B) (E:=E) present event).
Proof. intros h. by destruct present. Qed.

Lemma paces_maybeYield p n batch :
  paces ms p p (maybeYield (B:=B) (E:=E) n batch).
Proof. intros h. unfold maybeYield. by destruct (Nat.eqb _ _). Qed.

Lemma paces_modifyChildStats p f :
  paces ms p p (modifyChildStats (B:=B) (E:=E) f).
Proof. intros h. by apply wp_modifyChildStats. Qed.

Lemma paces_getChildStats p : paces ms p p (getChildStats (B:=B) (E:=E)).
Proof. intros h. by apply wp_getChildStats. Qed.

Lemma pacesAll_bind {A C : Type} (m : M B E A) (k : A -> M B E C) :
  pacesAll ms m -> (forall a, pacesAll ms (k a)) -> pacesAll ms (bind m k).
Proof.
  intros Hm Hk p h. apply wp_bind. eapply wp_mono; [apply (Hm p)|].
  intros h1 ev1 [e|a] Hsep; [done|].
  eapply wp_mono; [apply (Hk a (pendingAfter ms p ev1))|].
  intros h2 ev2 r2 Hsep2. by rewrite separated_app.
Qed.

Lemma paces_pacesAll {A : Type} (m : M B E A) :
  (forall p, exists p', paces ms p p' m) -> pacesAll ms m.
Proof.
  intros Hm p h. destruct (Hm p) as [p' Hp]. eapply wp_mono; [apply Hp|].
  by intros h' evs r [? _].
Qed.

Lemma pacesAll_forOf {A S : Type} (body : S -> A -> M B E S) xs :
  (forall s x, pacesAll ms (body s x)) ->
  forall s, pacesAll ms (forOf body s xs).
Proof.
  intros Hbody. induction xs as [|x xs IH]; intros s.
  - intros p h. by apply wp_ret.
  - cbn [forOf]. by apply pacesAll_bind.
Qed.

End Paces.

Section ChildPacing.

Context {B E : Type}.
Variable roamApi : RoamApiAdapter B E.
Variable this : ChildrenReconciler.

Local Abbreviation ms := (cr_mutationDelayMs this).

(** Chains of steps, each from the state the one before has left. *)
Ltac paces_seq :=
  repeat first
    [ eapply paces_bind; [|intros ?]
    | apply paces_ret
    | apply paces_await
    | apply paces_delay
    | apply paces_debug
    | apply paces_maybeYield
    | apply paces_modifyChildStats
    | apply paces_getChildStats ].

Lemma paces_deleteSpecial specialBlock :
  paces ms false false (deleteSpecial roamApi this tt specialBlock).
Proof. unfold deleteSpecial. paces_seq. Qed.

Lemma paces_syncChild parentUid st newChild :
  paces ms false false (syncChild roamApi this parentUid st newChild).
Proof.
  unfold syncChild. eapply (paces_bind _ _ false); [|intros ?; paces_seq].
  destruct (truthy _) as [key|].
  - destruct (JsMap.get key _) as [existing|]; [|paces_seq].
    eapply (paces_bind _ _ false); [|intros ?; paces_seq].
    destruct (String.eqb _ _); paces_seq.
  - destruct (optCall _ _); [|paces_seq].
    eapply (paces_bind _ _ false); [|intros ?; paces_seq].
    apply paces_forOf. intros [] sb. apply paces_deleteSpecial.
Qed.

Lemma paces_deleteOrphan p n entry :
  paces ms p true (deleteOrphan roamApi this n entry).
Proof.
  destruct entry as [key orphanBlock]. unfold deleteOrphan.
  eapply (paces_bind _ _ false); [apply paces_delay|intros ?].
  eapply (paces_bind _ _ true); [apply paces_await|intros ?]. paces_seq.
Qed.

(** X9. In every run of [syncChildren], completed or not, a delay of
    [mutationDelayMs] lies between any two consecutive backend calls:
    creations, updates and deletions of special blocks are each followed
    by the delay, and the deletion of an orphan is preceded by it. *)
Theorem calls_separated_by_delay parentUid existingChildren newChildren
    (h : Heap B) h' evs r :
  syncChildren roamApi this parentUid existingChildren newChildren h
    = (h', evs, r) ->
  separated (cr_mutationDelayMs this) false evs.
Proof.
  apply (wp_run _ _ (fun _ evs _ => separated ms false evs)).
  unfold syncChildren.
  destruct (partitionExisting (cr_config this) existingChildren)
    as [propsMap specialBlocks].
  apply wp_bind, wp_modifyChildStats. apply wp_bind. eapply wp_mono.
  { apply (paces_debug ms false). }
  intros h1 ev1 [e|[]] [Hsep1 Hend1]; [done|]. specialize (Hend1 tt eq_refl).
  apply wp_bind. eapply wp_mono.
  { apply (paces_forOf ms false (syncChild roamApi this parentUid)).
    intros s x. apply paces_syncChild. }
  intros h2 ev2 [e|st] [Hsep2 Hend2]; simpl;
    [by rewrite separated_app, Hend1|].
  specialize (Hend2 st eq_refl).
  assert (Hall : pacesAll ms
            (forOf (deleteOrphan roamApi this) (cl_operationCount st)
               (JsMap.entries (existingPropsMap st)) ;;
             debug (cr_logger this) "children_reconciler_complete" ;;
             getChildStats)).
  { apply pacesAll_bind.
    - apply pacesAll_forOf. intros n entry. apply paces_pacesAll.
      intros p. exists true. apply paces_deleteOrphan.
    - intros _. apply paces_pacesAll. intros p. exists p. paces_seq. }
  eapply wp_mono; [apply (Hall false)|].
  intros h3 ev3 r3 Hsep3. simpl.
  rewrite separated_app, Hend1, separated_app, Hend2. by split_and!.
Qed.

End ChildPacing.

(** ** Yields to the main thread *)

Lemma div_succ n b :
  S n / b = n / b + (if Nat.eqb (S n mod b) 0 then 1 else 0).
Proof.
  destruct b as [|b]; [done|].
  pose proof (Nat.div_mod_eq (S n) (S b)) as H1.
  pose proof (Nat.div_mod_eq n (S b)) as H2.
  pose proof (Nat.mod_upper_bound (S n) (S b)) as H3.
  pose proof (Nat.mod_upper_bound n (S b)) as H4.
  destruct (Nat.eqb (S n mod S b) 0) eqn:Hmod.
  - apply Nat.eqb_eq in Hmod. nia.
  - apply Nat.eqb_neq in Hmod. nia.
Qed.

Lemma yieldCount_app evs1 evs2 :
  yieldCount (evs1 ++ evs2) = yieldCount evs1 + yieldCount evs2.
Proof. unfold yieldCount. by rewrite omap_app, length_app. Qed.

Lemma yieldCount_nil : yieldCount [] = 0.
Proof. done. Qed.

Lemma yieldCount_debug (present : bool) event :
  yieldCount (if present then [Debug event] else []) = 0.
Proof. by destruct present. Qed.

Lemma yieldCount_unseen evs :
  omap (fun ev => match ev with YieldToMain => Some tt | _ => None end) evs
  = [] ->
  yieldCount evs = 0.
Proof. unfold yieldCount. by intros ->. Qed.

Section Exact.

Context {B E : Type}.

Lemma wp_debug_exact (present : bool) event (h : Heap B)
    (Q : Heap B -> list Event -> E + unit -> Prop) :
  Q h (if present then [Debug event] else []) (inr tt) ->
  wp (debug present event) h Q.
Proof. by destruct present. Qed.

Lemma wp_maybeYield_exact n batch (h : Heap B)
    (Q : Heap B -> list Event -> E + unit -> Prop) :
  Q h (if Nat.eqb (n mod batch) 0 then [YieldToMain] else []) (inr tt) ->
  wp (maybeYield n batch) h Q.
Proof. unfold maybeYield. by destruct (Nat.eqb _ _). Qed.

End Exact.

(** Steps of a run whatever the backend answers, with the events of the
    observers as they are. *)
Ltac wp_exact :=
  repeat first
    [ lazymatch goal with
      | |- wp (bind _ _) _ _ => apply wp_bind
      | |- wp (ret _) _ _ => apply wp_ret
      | |- wp (emit _) _ _ => apply wp_emit
      | |- wp (delay _) _ _ => apply wp_delay
      | |- wp (debug _ _) _ _ => apply wp_debug_exact
      | |- wp (maybeYield _ _) _ _ => apply wp_maybeYield_exact
      | |- wp (modifyStats _) _ _ => apply wp_modifyStats
      | |- wp (modifyChildStats _) _ _ => apply wp_modifyChildStats
      | |- wp getStats _ _ => apply wp_getStats
      | |- wp getChildStats _ _ => apply wp_getChildStats
      | |- wp (await _ _) _ _ => apply wp_await; intros ? [?|] _
      end; cbv beta iota ].

Section ChildYields.

Context {B E : Type}.
Variable roamApi : RoamApiAdapter B E.
Variable this : ChildrenReconciler.

Local Abbreviation cfg := (cr_config this).
Local Abbreviation yields :=
  (fun ev => match ev with YieldToMain => Some tt | _ => None end).

Lemma unseen_deleteSpecials specials :
  unseen yields (forOf (deleteSpecial roamApi this) tt specials).
Proof.
  apply unseen_forOf. intros [] sb. unfold deleteSpecial.
  apply unseen_bind; [by apply unseen_await|intros _].
  apply unseen_bind; [by apply unseen_emit|intros _].
  apply unseen_bind; [apply unseen_modifyChildStats|intros _].
  by apply unseen_debug.
Qed.

(** What one step of the second loop does to the locals, and whether it
    yields. *)
Lemma wp_syncChild_step parentUid st c (h : Heap B) :
  wp (syncChild roamApi this parentUid st c) h
    (fun _ evs r => forall st', r = inr st' ->
       existingPropsMap st'
         = match keyOf this (bp_text c) with
           | Some key => JsMap.delete key (existingPropsMap st)
           | None => existingPropsMap st
           end /\
       cl_operationCount st' = S (cl_operationCount st) /\
       yieldCount evs
         = if Nat.eqb (S (cl_operationCount st) mod DEFAULT_YIELD_BATCH_SIZE) 0
           then 1 else 0).
Proof.
  unfold syncChild, keyOf. destruct (cr_logger this).
  all: destruct (truthy (extractKey cfg (bp_text c))) as [key|].
  all: try (destruct (JsMap.get key (existingPropsMap st)) as [existing|]
              eqn:Hget;
            [destruct (String.eqb _ _)|]).
  all: try (destruct (optCall _ _);
            [apply wp_bind, wp_bind; eapply wp_mono;
               [apply (wp_unseen yields), unseen_deleteSpecials|];
             intros ? ? [?|[]] Hev%yieldCount_unseen; [done|]|]).
  all: wp_exact; try done; intros ? [= <-]; cbn [existingPropsMap
         cl_operationCount]; (split_and!; [|done|]);
       rewrite ?JsMapFacts.get_delete_None by done; try done;
       rewrite ?yieldCount_app; try rewrite Hev;
       destruct (Nat.eqb _ _); reflexivity.
Qed.

Lemma forOf_syncChild_locals parentUid newChildren :
  forall st (h : Heap B) h' evs st',
    NoDup (JsMap.keys (existingPropsMap st)) ->
    forOf (syncChild roamApi this parentUid) st newChildren h
      = (h', evs, inr st') ->
    existingPropsMap st'
      = filter (fun kv => kv.1 ∉ desiredKeys this newChildren)
          (existingPropsMap st) /\
    cl_operationCount st' = cl_operationCount st + length newChildren /\
    yieldCount evs + cl_operationCount st / DEFAULT_YIELD_BATCH_SIZE
      = cl_operationCount st' / DEFAULT_YIELD_BATCH_SIZE.
Proof.
  induction newChildren as [|c cs IH]; intros st h h' evs st' Hnd Hrun.
  - injection Hrun as <- <- <-. split_and!; [|simpl; lia|done].
    symmetry. apply JsMapFacts.filter_all, Forall_forall.
    intros kv _. unfold desiredKeys. simpl. apply not_elem_of_nil.
  - cbn [forOf] in Hrun. unfold bind in Hrun.
    destruct (syncChild _ _ _ _ _ _) as [[h1 ev1] [e|st1]] eqn:Hstep;
      [done|].
    pose proof (wp_syncChild_step parentUid st c h) as Hwp.
    apply (fun H => wp_run _ _ _ _ _ _ H Hstep) in Hwp.
    destruct (Hwp st1 eq_refl) as (Hmap1 & Hcount1 & Hyield1).
    destruct (forOf _ _ _ _) as [[h2 ev2] r2] eqn:Hrest.
    injection Hrun as <- <- ->.
    apply IH in Hrest as (Hmap2 & Hcount2 & Hyield2).
    2:{ rewrite Hmap1. destruct (keyOf this (bp_text c)); [|done].
        by apply JsMapFacts.NoDup_keys_delete. }
    split_and!.
    + rewrite Hmap2, Hmap1. unfold desiredKeys. cbn [omap list_omap].
      destruct (keyOf this (bp_text c)) as [key|].
      * rewrite JsMapFacts.delete_filter by done.
        rewrite list_filter_filter. apply list_filter_iff.
        intros [k v]. simpl. rewrite not_elem_of_cons. tauto.
      * done.
    + rewrite Hcount2, Hcount1. simpl. lia.
    + rewrite yieldCount_app, Hyield1, <- Hyield2, Hcount1.
      rewrite (div_succ (cl_operationCount st)). lia.
Qed.

Lemma forOf_deleteOrphan_yields entries :
  forall n (h : Heap B) h' evs n',
    forOf (deleteOrphan roamApi this) n entries h = (h', evs, inr n') ->
    n' = n + length entries /\
    yieldCount evs + n / DEFAULT_YIELD_BATCH_SIZE
      = n' / DEFAULT_YIELD_BATCH_SIZE.
Proof.
  induction entries as [|[key orphanBlock] entries IH];
    intros n h h' evs n' Hrun.
  - injection Hrun as <- <- <-. split; [simpl; lia|done].
  - cbn [forOf] in Hrun. unfold bind at 1 in Hrun.
    destruct (deleteOrphan _ _ _ _ _) as [[h1 ev1] [e|n1]] eqn:Hstep;
      [done|].
    assert (Hwp : wp (deleteOrphan roamApi this n (key, orphanBlock)) h
              (fun _ ev1 r => forall n1, r = inr n1 ->
                 n1 = S n /\
                 yieldCount ev1
                 = if Nat.eqb (S n mod DEFAULT_YIELD_BATCH_SIZE) 0
                   then 1 else 0)).
    { unfold deleteOrphan. destruct (cr_logger this); wp_exact; try done;
        intros ? [= <-]; (split; [done|]); rewrite ?yieldCount_app;
        destruct (Nat.eqb _ _); reflexivity. }
    destruct (wp_run _ _ _ _ _ _ Hwp Hstep n1 eq_refl) as [-> Hyield1].
    destruct (forOf _ _ _ _) as [[h2 ev2] r2] eqn:Hrest.
    injection Hrun as <- <- ->.
    apply IH in Hrest as [-> Hyield2]. split; [simpl; lia|].
    rewrite yieldCount_app, Hyield1, <- Hyield2. rewrite (div_succ n). lia.
Qed.

(** X10. [syncChildren] yields to the main thread once every three
    operations, an operation being a desired child (also one that is
    dropped) or the deletion of an orphan; the deletion of a special
    block is none.  The orphans are the entries of the key map whose key
    no desired child has. *)
Theorem syncChildren_yields_every_third parentUid existingChildren
    newChildren (h : Heap B) h' evs stats :
  syncChildren roamApi this parentUid existingChildren newChildren h
    = (h', evs, inr stats) ->
  yieldCount evs
    = (length newChildren
       + length (filter (fun kv => kv.1 ∉ desiredKeys this newChildren)
                   (partitionExisting cfg existingChildren).1))
      / DEFAULT_YIELD_BATCH_SIZE.
Proof.
  intros Hrun.
  refine (wp_run _ _ (fun _ evs r => forall stats, r = inr stats ->
    yieldCount evs
      = (length newChildren
         + length (filter (fun kv => kv.1 ∉ desiredKeys this newChildren)
                     (partitionExisting cfg existingChildren).1))
        / DEFAULT_YIELD_BATCH_SIZE) _ _ _ _ Hrun stats eq_refl).
  clear Hrun.
  pose proof (partitionExisting_NoDup this existingChildren) as Hnd.
  unfold syncChildren.
  destruct (partitionExisting cfg existingChildren) as [propsMap specials].
  cbn [fst] in *.
  apply wp_bind, wp_modifyChildStats. apply wp_bind, wp_debug_exact.
  apply wp_bind, wp_of_run. intros h1 ev1 [e|st1] Hloop; [done|].
  apply forOf_syncChild_locals in Hloop as (Hmap & Hcount & Hyield1);
    [|done]. cbn [existingPropsMap cl_operationCount] in *.
  apply wp_bind, wp_of_run. intros h2 ev2 [e|n2] Horphans; [done|].
  apply forOf_deleteOrphan_yields in Horphans as [-> Hyield2].
  apply wp_bind, wp_debug_exact. apply wp_getChildStats. intros ? _.
  rewrite !yieldCount_app, !yieldCount_debug, !yieldCount_nil.
  unfold JsMap.entries in *. rewrite Hmap, Hcount in Hyield2.
  rewrite Hcount in Hyield1.
  change (0 / DEFAULT_YIELD_BATCH_SIZE) with 0 in Hyield1.
  rewrite Nat.add_0_l in Hyield1, Hyield2.
  rewrite <- Hyield2. lia.
Qed.

End ChildYields.

(** ** One-sided passes of [syncChildren] *)

Section OneSided.

Context {B E : Type}.
Variable roamApi : RoamApiAdapter B E.
Variable this : ChildrenReconciler.
Hypothesis Hres : resolves roamApi.

Local Abbreviation cfg := (cr_config this).

Lemma wp_syncChild_loop_fresh parentUid newChildren :
  forall st (h : Heap B) (Q : Heap B -> list Event -> E + ChildLoop -> Prop),
  existingPropsMap st = [] -> existingSpecialBlocks st = [] ->
  (forall h' evs st',
     existingPropsMap st' = [] ->
     apiCalls evs
       = (fun c => CreateBlock parentUid c OrderLast)
           <$> filter (fun c => handled this c = true) newChildren ->
     c_skipped (h_childStats h') = c_skipped (h_childStats h) ->
     c_updated (h_childStats h') = c_updated (h_childStats h) ->
     c_created (h_childStats h')
       = c_created (h_childStats h)
         + length (filter (fun c => handled this c = true) newChildren) ->
     c_deleted (h_childStats h') = c_deleted (h_childStats h) ->
     Q h' evs (inr st')) ->
  wp (forOf (syncChild roamApi this parentUid) st newChildren) h Q.
Proof.
  induction newChildren as [|c cs IH]; intros st h Q Hmap Hsp HQ.
  - apply wp_ret. apply HQ; simpl; try done; lia.
  - cbn [forOf]. apply wp_bind. unfold syncChild at 1.
    destruct (handled this c) eqn:Hc; unfold handled, keyOf in Hc.
    + rewrite filter_cons_True in HQ by (by unfold handled, keyOf).
      destruct (truthy (extractKey cfg (bp_text c))) as [key|].
      * rewrite Hmap. simpl JsMap.get. wp_steps.
        apply wp_await_resolves; [done|]. cbv beta iota. wp_steps.
        apply IH; [done..|]. intros h' evs' st' Hm Hcalls H1 H2 H3 H4.
        simpl in *. apply HQ; try done; [|lia]. calls. by rewrite Hcalls.
      * rewrite Hc, Hsp. cbn [forOf]. wp_steps.
        apply wp_await_resolves; [done|]. cbv beta iota. wp_steps.
        apply IH; [done..|]. intros h' evs' st' Hm Hcalls H1 H2 H3 H4.
        simpl in *. apply HQ; try done; [|lia]. calls. by rewrite Hcalls.
    + rewrite filter_cons_False in HQ
        by (unfold handled, keyOf; by rewrite Hc).
      destruct (truthy (extractKey cfg (bp_text c))) as [key|]; [done|].
      rewrite Hc. wp_steps.
      apply IH; [done..|]. intros h' evs' st' Hm Hcalls H1 H2 H3 H4.
      simpl in *. apply HQ; try done. calls. by rewrite Hcalls.
Qed.

(** X11. With a backend that resolves: a pass with no desired children
    deletes every entry of the key map, in the order of the map, and
    nothing else, so that the special blocks stay; a pass over existing
    children none of which has a key or is a special block (none at all,
    for one) creates, in their order, the desired children that have a key
    or are special blocks, and nothing else. *)
Theorem syncChildren_one_sided :
  (forall parentUid existingChildren (h : Heap B),
     exists h' evs,
       syncChildren roamApi this parentUid existingChildren [] h
         = (h', evs,
            inr {| c_skipped := 0; c_updated := 0; c_created := 0;
                   c_deleted :=
                     length (partitionExisting cfg existingChildren).1 |}) /\
       apiCalls evs
         = (fun kv => DeleteBlock (node_uid kv.2))
             <$> (partitionExisting cfg existingChildren).1) /\
  (forall parentUid existingChildren newChildren (h : Heap B),
     partitionExisting cfg existingChildren = ([], []) ->
     exists h' evs,
       syncChildren roamApi this parentUid existingChildren newChildren h
         = (h', evs,
            inr {| c_skipped := 0; c_updated := 0;
                   c_created :=
                     length (filter (fun c => handled this c = true)
                               newChildren);
                   c_deleted := 0 |}) /\
       apiCalls evs
         = (fun c => CreateBlock parentUid c OrderLast)
             <$> filter (fun c => handled this c = true) newChildren).
Proof.
  split.
  - intros parentUid existingChildren h.
    cut (wp (syncChildren roamApi this parentUid existingChildren []) h
           (fun h' evs r =>
              r = inr {| c_skipped := 0; c_updated := 0; c_created := 0;
                         c_deleted :=
                           length (partitionExisting cfg existingChildren).1
                      |} /\
              apiCalls evs
                = (fun kv => DeleteBlock (node_uid kv.2))
                    <$> (partitionExisting cfg existingChildren).1)).
    { intros (h' & evs & r & Hrun & -> & ?)%wp_exists. by exists h', evs. }
    apply wp_syncChildren. intros ev0 Hq0. cbn [forOf]. wp_steps.
    apply wp_deleteOrphan_loop; [done|].
    intros h1 ev1 n1 Hc _ H1 H2 H3 H4. simpl in *. wp_steps. split.
    + f_equal. destruct (h_childStats h1). simpl in *.
      unfold JsMap.entries in *. f_equal; lia.
    + calls. by rewrite Hc, app_nil_r.
  - intros parentUid existingChildren newChildren h Hempty.
    cut (wp (syncChildren roamApi this parentUid existingChildren newChildren)
           h
           (fun h' evs r =>
              r = inr {| c_skipped := 0; c_updated := 0;
                         c_created :=
                           length (filter (fun c => handled this c = true)
                                     newChildren);
                         c_deleted := 0 |} /\
              apiCalls evs
                = (fun c => CreateBlock parentUid c OrderLast)
                    <$> filter (fun c => handled this c = true) newChildren)).
    { intros (h' & evs & r & Hrun & -> & ?)%wp_exists. by exists h', evs. }
    apply wp_syncChildren. intros ev0 Hq0. rewrite Hempty. cbn [fst snd].
    apply wp_bind. apply wp_syncChild_loop_fresh; [done..|].
    intros h1 ev1 st1 Hm Hc H1 H2 H3 H4. simpl in *. rewrite Hm.
    cbn [JsMap.entries forOf]. wp_steps. split.
    + f_equal. destruct (h_childStats h1). simpl in *. f_equal; lia.
    + calls. by rewrite Hc, !app_nil_r.
Qed.

End OneSided.

Module ChildrenMoreExamples.
Import Examples FailureExamples.

Lemma every_desired_child_counted_witness :
  childCounted (incChildCreated (incChildUpdated newChildStats))
    <= length (filter (fun c => handled children c = true)
                 [line "a:: 9"; line "plain"; line "comments..."]) /\
  (forall stats,
     @inr string ChildSyncStats
       (incChildCreated (incChildUpdated newChildStats)) = inr stats ->
     stats = incChildCreated (incChildUpdated newChildStats) /\
     childCounted stats
       = length (filter (fun c => handled children c = true)
                   [line "a:: 9"; line "plain"; line "comments..."])) /\
  (forall st c (h0 : Heap (list RoamNode)),
     handled children c = false ->
     exists evs0,
       syncChild mockApi children "u1" st c h0
         = (h0, evs0,
            inr (mkChildLoop (existingPropsMap st) (existingSpecialBlocks st)
                   (S (cl_operationCount st)))) /\
       apiCalls evs0 = []).
Proof.
  apply (every_desired_child_counted mockApi children "u1"
           [leaf "c1" "a:: 1"]
           [line "a:: 9"; line "plain"; line "comments..."]
           (heapOf [])
           (mkHeap [] (newStats 0)
              (incChildCreated (incChildUpdated newChildStats)))
           [Api (UpdateBlock "c1" "a:: 9"); Delay 0;
            Api (CreateBlock "u1" (line "comments...") OrderLast); Delay 0;
            YieldToMain]
           (inr (incChildCreated (incChildUpdated newChildStats)))).
  reflexivity.
Defined.

Lemma unkeyed_children_kept_witness :
  (forall text,
     UpdateBlock "c2" text
       ∉ apiCalls [Api (UpdateBlock "c1" "a:: 2"); Delay 0]) /\
  (DeleteBlock "c2" ∈ apiCalls [Api (UpdateBlock "c1" "a:: 2"); Delay 0] ->
   optCall (isSpecialBlock childConfig) "comments..." = true /\
   exists c, c ∈ [line "a:: 2"] /\ replacesSpecials children c).
Proof.
  apply (unkeyed_children_kept mockApi children "u1"
           [leaf "c1" "a:: 1"; leaf "c2" "comments..."] [line "a:: 2"]
           (heapOf [])
           (mkHeap [] (newStats 0) (incChildUpdated newChildStats))
           _ (inr (incChildUpdated newChildStats))
           (leaf "c2" "comments...")).
  - repeat constructor.
  - reflexivity.
  - apply (bool_decide_unpack _). by vm_compute.
  - reflexivity.
Defined.

Lemma calls_separated_by_delay_witness :
  separated 0 false
    [Api (UpdateBlock "c1" "a:: 9"); Delay 0; Delay 0;
     Api (DeleteBlock "u3")].
Proof.
  apply (calls_separated_by_delay flakyApi children "u1"
           [leaf "c1" "a:: 1"; leaf "u3" "b:: 2"] [line "a:: 9"]
           (heapOf [])
           (mkHeap [] (newStats 0) (incChildUpdated newChildStats))
           _ (inl "locked")).
  reflexivity.
Defined.

Lemma syncChildren_yields_every_third_witness :
  yieldCount
    [Api (UpdateBlock "c1" "a:: 9"); Delay 0; Delay 0;
     Api (DeleteBlock "c2"); Delay 0; Api (DeleteBlock "c3"); YieldToMain]
  = (1 + 2) / 3.
Proof.
  apply (syncChildren_yields_every_third mockApi children "u1"
           [leaf "c1" "a:: 1"; leaf "c2" "b:: 2"; leaf "c3" "c:: 3"]
           [line "a:: 9"] (heapOf [])
           (mkHeap [] (newStats 0)
              (incChildDeleted (incChildDeleted
                 (incChildUpdated newChildStats))))
           _ (incChildDeleted (incChildDeleted
                (incChildUpdated newChildStats)))).
  reflexivity.
Defined.

Lemma syncChildren_one_sided_witness :
  (exists h' evs,
     syncChildren mockApi children "u1"
       [leaf "c1" "a:: 1"; leaf "c2" "comments..."; leaf "c3" "b:: 2"] []
       (heapOf [])
       = (h', evs,
          inr {| c_skipped := 0; c_updated := 0; c_created := 0;
                 c_deleted := 2 |}) /\
     apiCalls evs = [DeleteBlock "c1"; DeleteBlock "c3"]) /\
  (exists h' evs,
     syncChildren mockApi children "u1" [leaf "c0" "plain"]
       [line "a:: 1"; line "plain"; line "comments..."] (heapOf [])
       = (h', evs,
          inr {| c_skipped := 0; c_updated := 0; c_created := 2;
                 c_deleted := 0 |}) /\
     apiCalls evs
       = [CreateBlock "u1" (line "a:: 1") OrderLast;
          CreateBlock "u1" (line "comments...") OrderLast]).
Proof.
  pose proof (syncChildren_one_sided mockApi children
                (fun c b => match c with
                            | CreateBlock _ _ _ => eq_refl
                            | UpdateBlock _ _ => eq_refl
                            | DeleteBlock _ => eq_refl
                            end)) as [Hnone Hfresh].
  split.
  - apply (Hnone "u1"
             [leaf "c1" "a:: 1"; leaf "c2" "comments..."; leaf "c3" "b:: 2"]).
  - apply (Hfresh "u1" [leaf "c0" "plain"]
             [line "a:: 1"; line "plain"; line "comments..."] (heapOf [])).
    reflexivity.
Defined.

End ChildrenMoreExamples.

(** ** Yields of [reconcile] *)

Section Yields.

Context {B E T : Type}.
Variable roamApi : RoamApiAdapter B E.
Variable this : BlockReconciler T.
Hypothesis Hnone : childrenReconciler this = None.

Local Abbreviation config := (br_config this).
Local Abbreviation batch := (br_yieldBatchSize this).
Local Abbreviation yields :=
  (fun ev => match ev with YieldToMain => Some tt | _ => None end).

Lemma wp_reconcileItem_yields parentUid existingMap st item (h : Heap B) :
  wp (reconcileItem roamApi this parentUid existingMap st item) h
    (fun _ evs r => forall st', r = inr st' ->
       il_operationCount st' = S (il_operationCount st) /\
       yieldCount evs
         = if Nat.eqb (S (il_operationCount st) mod batch) 0 then 1 else 0).
Proof.
  unfold reconcileItem. apply wp_bind. eapply wp_mono.
  { apply (wp_unseen yields).
    destruct (JsMap.get _ existingMap) as [existingNode|].
    - destruct (isUnchanged _ _).
      + apply unseen_bind; [done|]. intros _. by apply unseen_debug.
      + apply unseen_bind.
        * unfold updateExistingBlock. rewrite Hnone.
          apply unseen_bind; [|done]. destruct (negb _); [|done].
          apply unseen_bind; [by apply unseen_await|intros _].
          by apply unseen_emit.
        * intros _. apply unseen_bind; [done|]. intros _.
          by apply unseen_debug.
    - apply unseen_bind; [by apply unseen_await|]. intros _.
      apply unseen_bind; [done|]. intros _. by apply unseen_debug. }
  intros h1 ev1 [e|[]] Hev1%yieldCount_unseen; [done|].
  apply wp_bind. unfold maybeYieldToMain. apply wp_maybeYield_exact.
  apply wp_bind. eapply wp_mono.
  { apply (wp_also _ _ (fun _ _ r => r = inr tt)).
    - by apply wp_reportProgress.
    - apply (wp_unseen yields). unfold reportProgress.
      destruct (options config) as [o|]; [|done].
      destruct (onProgress o); [|done].
      apply unseen_bind; [done|]. intros s. by apply unseen_emit. }
  intros h2 ev2 r2 [-> Hev2%yieldCount_unseen]. apply wp_ret.
  intros st' [= <-]. split; [done|].
  rewrite !yieldCount_app, Hev1, Hev2, yieldCount_nil.
  destruct (Nat.eqb _ _); reflexivity.
Qed.

Lemma forOf_reconcileItem_yields parentUid existingMap items :
  forall st (h : Heap B) h' evs st',
    forOf (reconcileItem roamApi this parentUid existingMap) st items h
      = (h', evs, inr st') ->
    il_operationCount st' = il_operationCount st + length items /\
    yieldCount evs + il_operationCount st / batch
      = il_operationCount st' / batch.
Proof.
  induction items as [|item items IH]; intros st h h' evs st' Hrun.
  - injection Hrun as <- <- <-. split; [simpl; lia|done].
  - cbn [forOf] in Hrun. unfold bind at 1 in Hrun.
    destruct (reconcileItem _ _ _ _ _ _ _) as [[h1 ev1] [e|st1]] eqn:Hstep;
      [done|].
    destruct (wp_run _ _ _ _ _ _
                (wp_reconcileItem_yields parentUid existingMap st item h)
                Hstep st1 eq_refl) as [Hcount1 Hyield1].
    destruct (forOf _ _ _ _) as [[h2 ev2] r2] eqn:Hrest.
    injection Hrun as <- <- ->.
    apply IH in Hrest as [Hcount2 Hyield2]. split; [simpl; lia|].
    rewrite yieldCount_app, Hyield1, <- Hyield2, Hcount1.
    rewrite (div_succ (il_operationCount st)). lia.
Qed.

Lemma wp_removeEntry_yields seen st entry (h : Heap B) :
  wp (removeEntry roamApi this seen st entry) h
    (fun _ evs r => forall st', r = inr st' ->
       (st' = st /\ yieldCount evs = 0) \/
       (deletedCount st' = S (deletedCount st) /\
        ol_operationCount st' = S (ol_operationCount st) /\
        yieldCount evs
          = if Nat.eqb (S (ol_operationCount st) mod batch) 0
            then 1 else 0)).
Proof.
  destruct entry as [id node]. unfold removeEntry.
  destruct (bool_decide _); [apply wp_ret; intros ? [= <-]; by left|].
  destruct (optCall _ _).
  - apply wp_bind, wp_debug_exact. apply wp_ret. intros ? [= <-]. left.
    split; [done|]. by rewrite yieldCount_app, yieldCount_debug.
  - apply wp_bind, wp_await. intros b' [e|] _; [done|].
    apply wp_bind, wp_delay. apply wp_bind, wp_debug_exact.
    apply wp_bind. unfold maybeYieldToMain. apply wp_maybeYield_exact.
    apply wp_ret. intros ? [= <-]. right.
    split_and!; [done..|]. rewrite !yieldCount_app, yieldCount_debug.
    destruct (Nat.eqb _ _); reflexivity.
Qed.

Lemma forOf_removeEntry_yields seen entries :
  forall st (h : Heap B) h' evs st',
    forOf (removeEntry roamApi this seen) st entries h = (h', evs, inr st') ->
    exists k,
      deletedCount st' = deletedCount st + k /\
      ol_operationCount st' = ol_operationCount st + k /\
      yieldCount evs + ol_operationCount st / batch
        = ol_operationCount st' / batch.
Proof.
  induction entries as [|entry entries IH]; intros st h h' evs st' Hrun.
  - injection Hrun as <- <- <-. exists 0. split_and!; [lia..|done].
  - cbn [forOf] in Hrun. unfold bind at 1 in Hrun.
    destruct (removeEntry _ _ _ _ _ _) as [[h1 ev1] [e|st1]] eqn:Hstep;
      [done|].
    pose proof (wp_run _ _ _ _ _ _ (wp_removeEntry_yields seen st entry h)
                  Hstep st1 eq_refl) as Hcase.
    destruct (forOf _ _ _ _) as [[h2 ev2] r2] eqn:Hrest.
    injection Hrun as <- <- ->.
    apply IH in Hrest as (k & Hd & Ho & Hy).
    destruct Hcase as [[-> Hy1]|(Hd1 & Ho1 & Hy1)].
    + exists k. split_and!; [done..|]. rewrite yieldCount_app, Hy1. lia.
    + exists (S k). split_and!; [lia..|].
      rewrite yieldCount_app, Hy1, <- Hy, Ho1.
      rewrite (div_succ (ol_operationCount st)). lia.
Qed.

(** X13. Without a children reconciler, a pass that returns has yielded
    to the main thread once every [yieldBatchSize] items and, counting
    anew, once every [yieldBatchSize] deletions of obsolete blocks; an
    entry that is skipped or preserved is no operation.  With a batch size
    of zero the pass never yields. *)
Theorem reconcile_yields_per_batch parentUid items (h : Heap B) h' evs
    stats :
  reconcile roamApi this parentUid items h = (h', evs, inr stats) ->
  yieldCount evs
    = length items / br_yieldBatchSize this
      + deleted stats / br_yieldBatchSize this.
Proof.
  intros Hrun.
  refine (wp_run _ _ (fun _ evs r => forall stats, r = inr stats ->
    yieldCount evs = length items / batch + deleted stats / batch)
    _ _ _ _ Hrun stats eq_refl).
  clear Hrun. unfold reconcile.
  apply wp_bind, wp_modifyStats. apply wp_bind, wp_readBackend.
  apply wp_bind. eapply wp_mono.
  { apply (wp_unseen yields).
    unfold buildExistingMap. apply unseen_forOf. intros map node.
    unfold mapEntry. destruct (truthy _); [|done].
    apply unseen_bind; [by apply unseen_debug|done]. }
  intros h1 ev1 [e|map] Hev1%yieldCount_unseen; [done|].
  apply wp_bind, wp_debug_exact.
  apply wp_bind, wp_of_run. intros h2 ev2 [e|st2] Hitems; [done|].
  apply forOf_reconcileItem_yields in Hitems as [Hcount2 Hyield2].
  cbn [il_operationCount] in *.
  apply wp_bind. unfold removeObsolete.
  apply wp_bind, wp_of_run. intros h3 ev3 [e|st3] Hremoval; [done|].
  apply forOf_removeEntry_yields in Hremoval as (k & Hd & Ho & Hyield3).
  cbn [deletedCount ol_operationCount] in *.
  apply wp_ret. apply wp_bind, wp_modifyStats.
  apply wp_bind, wp_debug_exact. apply wp_getStats.
  intros ? [= <-]. cbn [h_stats setDeleted deleted].
  rewrite !yieldCount_app, !yieldCount_debug, !yieldCount_nil, Hev1.
  rewrite Hcount2, Nat.Div0.div_0_l in Hyield2.
  rewrite Ho, Nat.Div0.div_0_l in Hyield3. rewrite Hd.
  rewrite !Nat.add_0_l in *. lia.
Qed.

End Yields.

Module ObserverExamples.
Import Examples TopExamples.

Lemma reconcile_yields_per_batch_witness :
  yieldCount
    [Api (CreateBlock "page" (line "1:: a") OrderLast);
     Api (CreateBlock "page" (line "2:: b") OrderLast);
     Api (CreateBlock "page" (line "3:: c") OrderLast); YieldToMain;
     Api (CreateBlock "page" (line "4:: d") OrderLast)]
  = 4 / 3 + 0 / 3.
Proof.
  apply (reconcile_yields_per_batch mockApi
           (newBlockReconciler PacingExamples.plainConfig) eq_refl "page"
           [("1", "a"); ("2", "b"); ("3", "c"); ("4", "d")] (heapOf [])
           (mkHeap [] {| total := 4; skipped := 0; created := 4;
                         updated := 0; deleted := 0 |} newChildStats)
           _ {| total := 4; skipped := 0; created := 4; updated := 0;
                deleted := 0 |}).
  reflexivity.
Defined.

End ObserverExamples.

(** ** The adapter reads back what it writes *)

Lemma orEmpty_toRoamNode raw :
  orEmpty (node_children (toRoamNode raw))
  = toRoamNode <$> orEmpty (basic_children raw).
Proof. by destruct raw as [t u [cs|]]. Qed.

Lemma orEmpty_toInputNode payload :
  orEmpty (input_children (toInputNode payload))
  = toInputNode <$> orEmpty (bp_children payload).
Proof. by destruct payload as [t [cs|]]. Qed.

Lemma node_text_toRoamNode raw :
  node_text (toRoamNode raw) = default "" (basic_text raw).
Proof. by destruct raw. Qed.

Lemma input_text_toInputNode payload :
  input_text (toInputNode payload) = bp_text payload.
Proof. by destruct payload. Qed.

Lemma structurallyEqual_mirrors raw :
  forall payload,
    structurallyEqual (toRoamNode raw) payload <->
    mirrors raw (toInputNode payload).
Proof.
  induction raw as [t u cs IH] using RoamBasicNode_ind. intros payload.
  rewrite Forall_lookup in IH. split.
  - intros H. inversion H as [? ? Htext Hlen Hkids]; subst.
    rewrite node_text_toRoamNode in Htext.
    rewrite orEmpty_toRoamNode, length_fmap in Hlen.
    constructor.
    + by rewrite input_text_toInputNode.
    + by rewrite orEmpty_toInputNode, length_fmap.
    + intros i r c Hr. rewrite orEmpty_toInputNode.
      intros (p & -> & Hp)%list_lookup_fmap_Some_1.
      apply (IH i r Hr). apply (Hkids i); [|done].
      rewrite orEmpty_toRoamNode, list_lookup_fmap.
      cbn [basic_children] in Hr |- *. by rewrite Hr.
  - intros H. inversion H as [? ? Htext Hlen Hkids]; subst.
    rewrite input_text_toInputNode in Htext.
    rewrite orEmpty_toInputNode, length_fmap in Hlen.
    constructor.
    + by rewrite node_text_toRoamNode.
    + by rewrite orEmpty_toRoamNode, length_fmap.
    + intros i e c. rewrite orEmpty_toRoamNode.
      intros (r & -> & Hr)%list_lookup_fmap_Some_1 Hc.
      apply (IH i r Hr). apply (Hkids i); [done|].
      by rewrite orEmpty_toInputNode, list_lookup_fmap, Hc.
Qed.

(** X14. Through the adapter of [createRoamApiAdapter], the children
    read under a parent are unchanged with respect to a list of payloads,
    one to one, exactly when the raw nodes of Roam mirror the input nodes
    the adapter sends for these payloads: same texts, a raw node without
    text reading as the empty text, and same child lists at every depth,
    a missing list reading as the empty one.  The uids read are the raw
    uids, and creating a block without [order] creates it last. *)
Theorem adapter_reads_back_what_it_writes {B E : Type}
    (options : RoamApiAdapterOptions B E) parentUid (b : B) :
  (forall blocks,
     Forall2 (fun n block => isUnchanged n block = true)
       (getChildren (createRoamApiAdapter options) parentUid b) blocks <->
     Forall2 mirrors (getBasicTreeByParentUid options parentUid b)
       (toInputNode <$> blocks)) /\
  node_uid <$> getChildren (createRoamApiAdapter options) parentUid b
    = basic_uid <$> getBasicTreeByParentUid options parentUid b /\
  (forall block,
     adapterCreateBlock options parentUid block None b
     = createBlock (createRoamApiAdapter options) parentUid block OrderLast
         b).
Proof.
  split_and!.
  - intros blocks. cbn [getChildren createRoamApiAdapter].
    change (map toRoamNode ?l) with (toRoamNode <$> l).
    rewrite Forall2_fmap_l, Forall2_fmap_r.
    split; intros H; (eapply Forall2_impl; [exact H|]); intros raw block Hrb;
      cbv beta in *.
    + by apply structurallyEqual_mirrors, isUnchanged_structurallyEqual.
    + by apply isUnchanged_structurallyEqual, structurallyEqual_mirrors.
  - cbn [getChildren createRoamApiAdapter].
    change (map toRoamNode ?l) with (toRoamNode <$> l).
    rewrite <- list_fmap_compose. apply list_fmap_ext.
    by intros i [t u cs] _.
  - done.
Qed.

(** ** The statistics tally the calls *)

Section Tallies.

Context {B E : Type}.
Variable I : Heap B -> list Call -> Heap B -> bool -> Prop.
Hypothesis I_refl : forall h, I h [] h true.
Hypothesis I_trans : forall h1 calls1 h2 calls2 h3 ok,
  I h1 calls1 h2 true -> I h2 calls2 h3 ok -> I h1 (calls1 ++ calls2) h3 ok.

Lemma tallies_ret {A : Type} (a : A) : tallies I (ret (B:=B) (E:=E) a).
Proof. intros h. apply wp_ret. apply I_refl. Qed.

Lemma tallies_bind {A C : Type} (m : M B E A) (k : A -> M B E C) :
  tallies I m -> (forall a, tallies I (k a)) -> tallies I (bind m k).
Proof.
  intros Hm Hk h. apply wp_bind. eapply wp_mono; [apply Hm|].
  intros h1 ev1 [e|a] H1.
  - exact H1.
  - eapply wp_mono; [apply Hk|]. intros h2 ev2 r2 H2.
    rewrite apiCalls_app. by eapply I_trans.
Qed.

Lemma tallies_forOf {A S : Type} (body : S -> A -> M B E S) xs :
  (forall s x, tallies I (body s x)) -> forall s, tallies I (forOf body s xs).
Proof.
  intros Hbody. induction xs as [|x xs IH]; intros s.
  - apply tallies_ret.
  - cbn [forOf]. by apply tallies_bind.
Qed.

Lemma tallies_quiet {A : Type} (m : M B E A) :
  (forall h, wp m h (fun h' evs r => h' = h /\ quiet evs /\ returned r = true)) ->
  tallies I m.
Proof.
  intros Hm h. eapply wp_mono; [apply Hm|].
  intros h' evs r (-> & -> & ->). apply I_refl.
Qed.

End Tallies.

Lemma childTally_trans {B : Type} (h1 : Heap B) calls1 h2 calls2 h3 ok :
  childTally h1 calls1 h2 true -> childTally h2 calls2 h3 ok ->
  childTally h1 (calls1 ++ calls2) h3 ok.
Proof.
  unfold childTally, mutations. intros (Hc & Hu & Hd). destruct ok.
  - intros (Hc' & Hu' & Hd'). rewrite creates_app, updates_app, deletes_app.
    lia.
  - rewrite length_app, (calls_by_kind calls1). lia.
Qed.

Lemma itemTally_trans {B : Type} (h1 : Heap B) calls1 h2 calls2 h3 ok :
  itemTally h1 calls1 h2 true -> itemTally h2 calls2 h3 ok ->
  itemTally h1 (calls1 ++ calls2) h3 ok.
Proof.
  unfold itemTally. intros (Hc & Hu & Hd). destruct ok; [|done].
  intros (Hc' & Hu' & Hd'). rewrite creates_app, updates_app, deletes_app.
  lia.
Qed.

(** Closes the tally of a straight piece of code. *)
Ltac tally :=
  intros; unfold childTally, itemTally, mutations, creates, updates, deletes;
  calls; simpl; lia.

Section ChildTally.

Context {B E : Type}.
Variable roamApi : RoamApiAdapter B E.
Variable this : ChildrenReconciler.

Local Abbreviation cfg := (cr_config this).
Local Abbreviation tallied := (tallies (B:=B) (E:=E) childTally).

Lemma childTally_refl (h : Heap B) : childTally h [] h true.
Proof. tally. Qed.

Lemma tallied_deleteSpecial u specialBlock :
  tallied (deleteSpecial roamApi this u specialBlock).
Proof. intros h. unfold deleteSpecial. wp_any; tally. Qed.

Lemma tallied_deleteOrphan n entry :
  tallied (deleteOrphan roamApi this n entry).
Proof. intros h. destruct entry. unfold deleteOrphan. wp_any; tally. Qed.

Lemma tallied_syncChild parentUid st newChild :
  tallied (syncChild roamApi this parentUid st newChild).
Proof.
  unfold syncChild.
  apply (tallies_bind _ childTally_trans).
  - destruct (truthy _) as [key|].
    + destruct (JsMap.get key _) as [existing|].
      * destruct (String.eqb _ _); intros h; wp_any; tally.
      * intros h. wp_any; tally.
    + destruct (optCall _ _); [|intros h; wp_any; tally].
      apply (tallies_bind _ childTally_trans).
      * apply (tallies_forOf _ childTally_refl childTally_trans).
        intros [] sb. apply tallied_deleteSpecial.
      * intros _ h. wp_any; tally.
  - intros st' h. wp_any; tally.
Qed.

(** X15. The statistics of [syncChildren] tally its backend calls.  A
    pass that returns has made as many [createBlock], [updateBlock] and
    [deleteBlock] calls as it reports created, updated and deleted.  A
    pass that fails leaves statistics that record every call it made but
    one, the rejected one. *)
Theorem child_statistics_tally_calls parentUid existingChildren newChildren
    (h : Heap B) h' evs r :
  syncChildren roamApi this parentUid existingChildren newChildren h
    = (h', evs, r) ->
  match r with
  | inr stats =>
      c_created stats = creates (apiCalls evs) /\
      c_updated stats = updates (apiCalls evs) /\
      c_deleted stats = deletes (apiCalls evs)
  | inl _ =>
      length (apiCalls evs) = S (mutations (h_childStats h'))
  end.
Proof.
  apply (wp_run _ _ (fun h' evs r =>
    match r with
    | inr stats =>
        c_created stats = creates (apiCalls evs) /\
        c_updated stats = updates (apiCalls evs) /\
        c_deleted stats = deletes (apiCalls evs)
    | inl _ => length (apiCalls evs) = S (mutations (h_childStats h'))
    end)).
  apply wp_syncChildren. intros ev0 Hq0. apply wp_bind. eapply wp_mono.
  { apply (tallies_forOf _ childTally_refl childTally_trans).
    intros st c. apply tallied_syncChild. }
  intros h1 ev1 [e|st1] H1; unfold childTally in H1; simpl in H1.
  { calls. simpl. unfold mutations in *. simpl in H1. lia. }
  destruct H1 as (Hc1 & Hu1 & Hd1).
  apply wp_bind. eapply wp_mono.
  { apply (tallies_forOf _ childTally_refl childTally_trans).
    intros n entry. apply tallied_deleteOrphan. }
  intros h2 ev2 [e|n2] H2; unfold childTally in H2; simpl in H2.
  { calls. rewrite length_app, (calls_by_kind (apiCalls ev1)).
    unfold mutations in *. lia. }
  destruct H2 as (Hc2 & Hu2 & Hd2).
  wp_steps. calls. rewrite creates_app, updates_app, deletes_app.
  rewrite ?app_nil_r. unfold creates, updates, deletes in *. simpl. lia.
Qed.

End ChildTally.

Section ItemTally.

Context {B E T : Type}.
Variable roamApi : RoamApiAdapter B E.
Variable this : BlockReconciler T.
Hypothesis Hnone : childrenReconciler this = None.

Local Abbreviation config := (br_config this).
Local Abbreviation tallied := (tallies (B:=B) (E:=E) itemTally).

Lemma itemTally_refl (h : Heap B) : itemTally h [] h true.
Proof. tally. Qed.

Lemma tallied_reconcileItem parentUid existingMap st item :
  tallied (reconcileItem roamApi this parentUid existingMap st item).
Proof.
  unfold reconcileItem. apply (tallies_bind _ itemTally_trans).
  - destruct (JsMap.get _ existingMap) as [existingNode|].
    + destruct (isUnchanged _ _); [intros h; wp_any; tally|].
      unfold updateExistingBlock. rewrite Hnone.
      destruct (negb _); intros h; wp_any; tally.
    + unfold createNewBlock. intros h. wp_any; tally.
  - intros _. apply (tallies_quiet _ itemTally_refl). intros h.
    apply wp_bind, wp_maybeYieldToMain. intros ev2 Hq2.
    apply wp_bind, wp_reportProgress. intros ev3 Hq3. apply wp_ret.
    split_and!; [done| |done]. unfold quiet. by calls.
Qed.

Lemma wp_removeEntries_tally seen entries : forall st (h : Heap B),
  wp (forOf (removeEntry roamApi this seen) st entries) h
    (fun h' evs r =>
       h_stats h' = h_stats h /\
       forall st', r = inr st' ->
         deletedCount st' = deletedCount st + deletes (apiCalls evs) /\
         creates (apiCalls evs) = 0 /\ updates (apiCalls evs) = 0).
Proof.
  induction entries as [|[id node] entries IH]; intros st h.
  - apply wp_ret. split; [done|]. intros ? [= <-]. tally.
  - cbn [forOf]. apply wp_bind. unfold removeEntry at 1.
    destruct (bool_decide _).
    { apply wp_ret. eapply wp_mono; [apply IH|].
      intros h2 ev2 r2 [Hs2 H2]. split; [done|]. intros st' ->.
      destruct (H2 st' eq_refl) as (? & ? & ?). by calls. }
    destruct (optCall _ _).
    { wp_steps. eapply wp_mono; [apply IH|].
      intros h2 ev2 r2 [Hs2 H2]. split; [done|]. intros st' ->.
      destruct (H2 st' eq_refl) as (? & ? & ?). by calls. }
    apply wp_bind, wp_await. intros b' [e|] _; [done|].
    apply wp_bind, wp_delay. apply wp_bind, wp_debug. intros ev1 Hq1.
    apply wp_bind, wp_maybeYieldToMain. intros ev2 Hq2. apply wp_ret.
    eapply wp_mono; [apply IH|].
    intros h2 ev3 r3 [Hs3 H3]. split; [done|]. intros st' ->.
    destruct (H3 st' eq_refl) as (Hd & Hc & Hu). simpl in Hd.
    calls. unfold creates, updates, deletes in *. simpl. lia.
Qed.

(** X16. Without a children reconciler, the statistics of a pass that
    returns tally its backend calls: as many [createBlock] calls as blocks
    reported created, as many [deleteBlock] calls as blocks reported
    deleted, and at most as many [updateBlock] calls as blocks reported
    updated, whose number also counts the blocks that differ in their
    children only. *)
Theorem statistics_tally_calls parentUid items (h : Heap B) h' evs stats :
  reconcile roamApi this parentUid items h = (h', evs, inr stats) ->
  created stats = creates (apiCalls evs) /\
  deleted stats = deletes (apiCalls evs) /\
  updates (apiCalls evs) <= updated stats.
Proof.
  intros Hrun.
  refine (wp_run _ _ (fun _ evs r => forall stats, r = inr stats ->
    created stats = creates (apiCalls evs) /\
    deleted stats = deletes (apiCalls evs) /\
    updates (apiCalls evs) <= updated stats) _ _ _ _ Hrun stats eq_refl).
  clear Hrun. apply wp_reconcile. intros ev0 Hq0. apply wp_bind.
  eapply wp_mono.
  { apply (tallies_forOf _ itemTally_refl itemTally_trans).
    intros st item. apply tallied_reconcileItem. }
  intros h1 ev1 [e|st1] H1; [done|].
  unfold itemTally in H1. simpl in H1. destruct H1 as (Hc1 & Hu1 & Hd1).
  apply wp_bind. unfold removeObsolete. apply wp_bind.
  eapply wp_mono; [apply wp_removeEntries_tally|].
  intros h2 ev2 [e|st2] [Hs2 H2]; [done|].
  destruct (H2 st2 eq_refl) as (Hd2 & Hc2 & Hu2). simpl in Hd2.
  wp_steps. intros ? [= <-]. simpl. rewrite Hs2. calls.
  rewrite ?app_nil_r, creates_app, updates_app, deletes_app.
  simpl. lia.
Qed.

End ItemTally.

Module TallyExamples.
Import Examples TopExamples FailureExamples.

Lemma child_statistics_tally_calls_witness :
  c_created (incChildCreated (incChildUpdated newChildStats))
    = creates [UpdateBlock "c1" "a:: 9";
               CreateBlock "u1" (line "comments...") OrderLast] /\
  c_updated (incChildCreated (incChildUpdated newChildStats))
    = updates [UpdateBlock "c1" "a:: 9";
               CreateBlock "u1" (line "comments...") OrderLast] /\
  c_deleted (incChildCreated (incChildUpdated newChildStats))
    = deletes [UpdateBlock "c1" "a:: 9";
               CreateBlock "u1" (line "comments...") OrderLast].
Proof.
  apply (child_statistics_tally_calls mockApi children "u1"
           [leaf "c1" "a:: 1"]
           [line "a:: 9"; line "plain"; line "comments..."]
           (heapOf [])
           (mkHeap [] (newStats 0)
              (incChildCreated (incChildUpdated newChildStats)))
           [Api (UpdateBlock "c1" "a:: 9"); Delay 0;
            Api (CreateBlock "u1" (line "comments...") OrderLast); Delay 0;
            YieldToMain]
           (inr (incChildCreated (incChildUpdated newChildStats)))).
  reflexivity.
Defined.

Lemma statistics_tally_calls_witness :
  created (setDeleted 1 (incCreated (incUpdated (newStats 2))))
    = creates [UpdateBlock "u1" "1:: new";
               CreateBlock "page" (line "2:: b") OrderLast;
               DeleteBlock "u3"] /\
  deleted (setDeleted 1 (incCreated (incUpdated (newStats 2))))
    = deletes [UpdateBlock "u1" "1:: new";
               CreateBlock "page" (line "2:: b") OrderLast;
               DeleteBlock "u3"] /\
  updates [UpdateBlock "u1" "1:: new";
           CreateBlock "page" (line "2:: b") OrderLast;
           DeleteBlock "u3"]
    <= updated (setDeleted 1 (incCreated (incUpdated (newStats 2)))).
Proof.
  apply (statistics_tally_calls mockApi reconciler eq_refl "page"
           [("1", "new"); ("2", "b")]
           (heapOf [leaf "u1" "1:: old"; leaf "u3" "3:: x"])
           (mkHeap [leaf "u1" "1:: old"; leaf "u3" "3:: x"]
              (setDeleted 1 (incCreated (incUpdated (newStats 2))))
              newChildStats)
           [Api (UpdateBlock "u1" "1:: new"); Delay 0;
            OnProgress (incUpdated (newStats 2));
            Api (CreateBlock "page" (line "2:: b") OrderLast);
            OnProgress (incCreated (incUpdated (newStats 2)));
            Api (DeleteBlock "u3"); Delay 0]
           (setDeleted 1 (incCreated (incUpdated (newStats 2))))).
  reflexivity.
Defined.

End TallyExamples.

(** ** Existing children that share a key *)

Section Shadowed.

Context {B E : Type}.
Variable roamApi : RoamApiAdapter B E.
Variable this : ChildrenReconciler.
Variable parentUid : string.

Local Abbreviation cfg := (cr_config this).

(** The key map leads from a key to one of the children that carry it, as
    soon as there is one. *)
Lemma partition_fold_get_last l : forall acc key,
  (exists m, m ∈ l /\ keyOf this (node_text m) = Some key) ->
  exists m', m' ∈ l /\ keyOf this (node_text m') = Some key /\
             JsMap.get key (fold_left (partitionStep cfg) l acc).1 = Some m'.
Proof.
  induction l as [|x l IH] using rev_ind; intros acc key (m & Hm & Hkey).
  { by apply elem_of_nil in Hm. }
  rewrite fold_left_app. cbn [fold_left].
  destruct (fold_left (partitionStep cfg) l acc) as [map sp] eqn:Hfold.
  unfold partitionStep. unfold keyOf in *.
  destruct (truthy (extractKey cfg (node_text x))) as [kx|] eqn:Hkx.
  - destruct (decide (kx = key)) as [->|Hne].
    + exists x. split_and!; [apply elem_of_app; right; by left|done|].
      apply JsMapFacts.get_set_eq.
    + apply elem_of_app in Hm as [Hm|Hm%list_elem_of_singleton];
        [|subst m; congruence].
      destruct (IH acc key) as (m' & Hm' & Hk' & Hget); [by exists m|].
      exists m'. split_and!; [apply elem_of_app; by left|done|].
      rewrite Hfold in Hget. simpl in *.
      by rewrite JsMapFacts.get_set_ne.
  - apply elem_of_app in Hm as [Hm|Hm%list_elem_of_singleton];
      [|subst m; congruence].
    destruct (IH acc key) as (m' & Hm' & Hk' & Hget); [by exists m|].
    exists m'. split_and!; [apply elem_of_app; by left|done|].
    rewrite Hfold in Hget. by destruct (optCall _ _).
Qed.

(** X17. Of the existing children that carry the same key, only the
    last is reconciled: uids being distinct, an existing child that is
    followed by another child with its key is neither updated nor deleted
    by [syncChildren], whatever the desired children are and whether the
    pass completes or fails. *)
Theorem shadowed_children_kept pre n post key newChildren (h : Heap B) h'
    evs r :
  keyOf this (node_text n) = Some key ->
  (exists m, m ∈ post /\ keyOf this (node_text m) = Some key) ->
  NoDup (node_uid <$> pre ++ n :: post) ->
  syncChildren roamApi this parentUid (pre ++ n :: post) newChildren h
    = (h', evs, r) ->
  (forall text, UpdateBlock (node_uid n) text ∉ apiCalls evs) /\
  DeleteBlock (node_uid n) ∉ apiCalls evs.
Proof.
  set (existing := pre ++ n :: post).
  set (map := (partitionExisting cfg existing).1).
  set (specials := (partitionExisting cfg existing).2).
  intros Hkey Hlater Hnd Hrun.
  destruct (partitionExisting_childInv this existing) as [Hmap Hsp].
  cbn [existingPropsMap existingSpecialBlocks] in Hmap, Hsp.
  fold map in Hmap. fold specials in Hsp.
  assert (Hn : n ∈ existing).
  { apply elem_of_app. right. by left. }
  assert (Hshadow : forall k, (k, n) ∉ map).
  { intros k Hin. destruct (Hmap k n Hin) as [_ Hk].
    assert (k = key) as -> by congruence.
    apply list_elem_of_In, JsMapFacts.In_get in Hin;
      [|apply partitionExisting_NoDup].
    unfold map, partitionExisting, existing in Hin.
    rewrite fold_left_app in Hin. cbn [fold_left] in Hin.
    destruct (partition_fold_get_last post
                (partitionStep cfg
                   (fold_left (partitionStep cfg) pre (JsMap.empty, [])) n)
                key Hlater) as (m' & Hm' & _ & Hget).
    rewrite Hget in Hin. injection Hin as ->.
    apply NoDup_fmap_1 in Hnd. apply NoDup_app in Hnd as (_ & _ & Hnd).
    apply NoDup_cons in Hnd as [Hnotin _]. done. }
  assert (Hcalls : Forall (childCall this parentUid
                             ((snd <$> map) ++ specials)) (apiCalls evs)).
  { revert Hrun.
    apply (wp_run _ _ (fun _ evs _ =>
             Forall (childCall this parentUid ((snd <$> map) ++ specials))
               (apiCalls evs))).
    apply wp_syncChildren. intros ev0 Hq0. eapply wp_mono.
    { apply (sound_syncChildren_loops roamApi this parentUid
               ((snd <$> map) ++ specials)).
      split; cbn [existingPropsMap existingSpecialBlocks].
      - intros k m Hin. split; [|by destruct (Hmap k m Hin)].
        apply elem_of_app. left. by apply (list_elem_of_fmap_2 snd _ (k, m)).
      - intros m Hin. split; [|by destruct (Hsp m Hin)].
        apply elem_of_app. by right. }
    intros h1 ev1 r1 (Hcalls & _). by calls. }
  rewrite Forall_forall in Hcalls.
  assert (Hnot : forall m, m ∈ (snd <$> map) ++ specials ->
                   node_uid m <> node_uid n).
  { intros m Hm Huid.
    apply elem_of_app in Hm as [([k m'] & -> & Hin)%list_elem_of_fmap|Hin].
    - simpl in Huid. destruct (Hmap k m' Hin) as [Hm' _].
      assert (m' = n) as -> by (by eapply (NoDup_fmap_eq node_uid)).
      by apply (Hshadow k).
    - destruct (Hsp m Hin) as [Hm' [Hnokey _]].
      assert (m = n) as -> by (by eapply (NoDup_fmap_eq node_uid)).
      congruence. }
  split.
  - intros text Hc. apply Hcalls in Hc as (m & Hm & Huid & _).
    by apply (Hnot m).
  - intros Hc. apply Hcalls in Hc as (m & Hm & Huid & _).
    by apply (Hnot m).
Qed.

End Shadowed.

Module ShadowedExamples.
Import Examples.

Lemma shadowed_children_kept_witness :
  (forall text,
     UpdateBlock "c1" text
       ∉ apiCalls [Api (UpdateBlock "c2" "a:: 9"); Delay 0]) /\
  DeleteBlock "c1" ∉ apiCalls [Api (UpdateBlock "c2" "a:: 9"); Delay 0].
Proof.
  apply (shadowed_children_kept mockApi children "u1" []
           (leaf "c1" "a:: 1") [leaf "c2" "a:: 2"] "a" [line "a:: 9"]
           (heapOf [])
           (mkHeap [] (newStats 0) (incChildUpdated newChildStats))
           _ (inr (incChildUpdated newChildStats))).
  - reflexivity.
  - exists (leaf "c2" "a:: 2"). split; [by left|reflexivity].
  - apply (bool_decide_unpack _). by vm_compute.
  - reflexivity.
Defined.

End ShadowedExamples.
